(** * gorm: the Handle ([DB]), the [Scope] and [Field] of the ORM core

    A shallow embedding of [src/unnamed/part_000] (the Handle helpers
    [clone], [new], [err], [print], [log] and the whole of [Scope]),
    [src/field.go] and [src/interface.go].

    Go pointers are addresses into explicit stores, so that aliasing
    between a Scope, its Handle and the Handle's parent is visible; a
    [nil] pointer is [None].  Code that can panic runs in a state and
    error monad.  The packages [reflect], [regexp], [database/sql] and the
    helpers of this repository that are not part of the three files are
    either modelled by their documented behaviour or taken as parameters
    of the development. *)

From Stdlib Require Import ZArith String Ascii List Bool Lia.
From stdpp Require Import base option list strings gmap.

Set Warnings "-register-all".

Local Open Scope string_scope.

(** ** Regular expressions ([regexp])

    The source only uses patterns that are sequences of single-character
    items, so a pattern is a list of items.  Matching is leftmost-first
    with a greedy [?], as in Go. *)

Inductive rx :=
| RxBegin                      (* ^ *)
| RxEnd                        (* $ *)
| RxChar (c : ascii)           (* a literal character *)
| RxOpt (c : ascii)            (* c? *)
| RxGroupNot (c : ascii).      (* ([^c]), the capturing group 1 *)

Definition regexp := list rx.

(** A match found at the current position: its length and group 1. *)
Definition rxmatch := (nat * string)%type.

Definition advance (m : option rxmatch) : option rxmatch :=
  match m with
  | Some (n, g) => Some (S n, g)
  | None => None
  end.

(** [match_here re bot s]: match [re] against a prefix of [s]; [bot] says
    that [s] starts at the beginning of the text. *)
Fixpoint match_here (re : regexp) (bot : bool) (s : string) : option rxmatch :=
  match re with
  | [] => Some (O, "")
  | RxBegin :: re' => if bot then match_here re' bot s else None
  | RxEnd :: re' =>
      match s with
      | EmptyString => match_here re' bot s
      | String _ _ => None
      end
  | RxChar c :: re' =>
      match s with
      | String c' s' =>
          if Ascii.eqb c c' then advance (match_here re' false s') else None
      | EmptyString => None
      end
  | RxOpt c :: re' =>
      match s with
      | String c' s' =>
          if Ascii.eqb c c' then
            match match_here re' false s' with
            | Some m => advance (Some m)
            | None => match_here re' bot s
            end
          else match_here re' bot s
      | EmptyString => match_here re' bot s
      end
  | RxGroupNot c :: re' =>
      match s with
      | String c' s' =>
          if Ascii.eqb c c' then None
          else match match_here re' false s' with
               | Some (n, _) => Some (S n, String c' "")
               | None => None
               end
      | EmptyString => None
      end
  end.

(** The leftmost match: the number of characters before it, and the match. *)
Fixpoint find_from (re : regexp) (bot : bool) (s : string)
  : option (nat * rxmatch) :=
  match match_here re bot s with
  | Some m => Some (O, m)
  | None =>
      match s with
      | EmptyString => None
      | String _ s' =>
          match find_from re false s' with
          | Some (k, m) => Some (S k, m)
          | None => None
          end
      end
  end.

Definition MatchString (re : regexp) (s : string) : bool :=
  match find_from re true s with
  | Some _ => true
  | None => false
  end.

(** Replacement templates: literal text and [${1}]. *)
Inductive tpl_item :=
| TplLit (s : string)
| TplGroup1.

Definition template := list tpl_item.

Definition expand (t : template) (group1 : string) : string :=
  fold_right (fun it acc =>
                match it with
                | TplLit s => s +:+ acc
                | TplGroup1 => group1 +:+ acc
                end) "" t.

Definition str_take (n : nat) (s : string) : string := substring 0 n s.

Fixpoint str_drop (n : nat) (s : string) : string :=
  match n, s with
  | O, _ => s
  | S n', String _ s' => str_drop n' s'
  | S _, EmptyString => EmptyString
  end.

(** [ReplaceAllString]: every non-overlapping match is replaced by the
    expanded template.  After an empty match one character is copied, so
    that the scan always advances; [fuel] bounds the number of matches. *)
Fixpoint replace_all (fuel : nat) (re : regexp) (t : template)
    (bot : bool) (s : string) : string :=
  match fuel with
  | O => s
  | S fuel' =>
      match find_from re bot s with
      | None => s
      | Some (k, (n, g)) =>
          let rest := str_drop (k + n) s in
          str_take k s +:+ expand t g +:+
            match n, rest with
            | O, String c rest' =>
                String c (replace_all fuel' re t false rest')
            | O, EmptyString => EmptyString
            | S _, _ => replace_all fuel' re t false rest
            end
      end
  end.

Definition ReplaceAllString (re : regexp) (s : string) (t : template) : string :=
  replace_all (S (String.length s)) re t true s.

Definition rx_lit (s : string) : regexp :=
  map RxChar (list_ascii_of_string s).

(** ** Errors *)

(** An [error] value: the package's sentinel [RecordNotFound], or any other
    error, carried by its message ([errors.New], a driver's or a hook's
    error). *)
Inductive error :=
| RecordNotFound
| ErrorString (msg : string).

Definition errors_New (msg : string) : error := ErrorString msg.

(** Modelled from the spec: the message of the sentinel "record not found"
    value, which is declared outside the three files. *)
Definition error_Error (e : error) : string :=
  match e with
  | RecordNotFound => "record not found"
  | ErrorString msg => msg
  end.

Definition is_RecordNotFound (e : error) : bool :=
  match e with
  | RecordNotFound => true
  | ErrorString _ => false
  end.

(** ** Types and values seen through [reflect] *)

Inductive Kind := Invalid | Ptr | Slice | Struct | OtherKind.

Inductive BasicKind := KBool | KInt | KString | KOpaque.

Inductive Typ :=
| TBasic (k : BasicKind) (name : string)
| TPtr (elem : Typ)
| TSlice (name : string) (elem : Typ)
| TStruct (name : string) (fs : list StructField)
with StructField :=
| mkStructField (sf_Name : string) (sf_Type : Typ)
                (sf_Tag : list (string * string)) (sf_Anonymous : bool).

Definition sf_Name (f : StructField) : string :=
  let 'mkStructField n _ _ _ := f in n.
Definition sf_Type (f : StructField) : Typ :=
  let 'mkStructField _ t _ _ := f in t.
Definition sf_Tag (f : StructField) : list (string * string) :=
  let 'mkStructField _ _ t _ := f in t.
Definition sf_Anonymous (f : StructField) : bool :=
  let 'mkStructField _ _ _ a := f in a.

Inductive Basic :=
| BBool (b : bool)
| BInt (z : Z)
| BString (s : string)
| BOpaque (s : string).

Inductive Val :=
| VBasic (t : Typ) (b : Basic)
| VNilPtr (elem : Typ)
| VPtr (v : Val)
| VSlice (t : Typ) (elems : list Val)
| VStruct (t : Typ) (fs : list Val).

(** A [reflect.Value]: the zero Value, or a value and whether it is
    addressable. *)
Inductive reflect_Value :=
| RInvalid
| RV (v : Val) (addressable : bool).

(** An [interface{}]: nil, an ordinary value, an [error], a boxed
    [reflect.Value]. *)
Inductive iface :=
| Nil
| I (v : Val)
| IErr (e : error)
| IReflect (rv : reflect_Value).

Definition Type_Kind (t : Typ) : Kind :=
  match t with
  | TBasic _ _ => OtherKind
  | TPtr _ => Ptr
  | TSlice _ _ => Slice
  | TStruct _ _ => Struct
  end.

Definition Type_Name (t : Typ) : string :=
  match t with
  | TBasic _ n => n
  | TPtr _ => ""
  | TSlice n _ => n
  | TStruct n _ => n
  end.

(** [Type.Elem] (of a pointer or slice type; it panics on the others, and
    the source never calls it there). *)
Definition Type_Elem (t : Typ) : Typ :=
  match t with
  | TPtr e => e
  | TSlice _ e => e
  | _ => t
  end.

Definition Type_fields (t : Typ) : list StructField :=
  match t with
  | TStruct _ fs => fs
  | _ => []
  end.

Fixpoint TypeOf (v : Val) : Typ :=
  match v with
  | VBasic t _ => t
  | VNilPtr e => TPtr e
  | VPtr v' => TPtr (TypeOf v')
  | VSlice t _ => t
  | VStruct t _ => t
  end.

Definition zero_basic (k : BasicKind) : Basic :=
  match k with
  | KBool => BBool false
  | KInt => BInt 0
  | KString => BString ""
  | KOpaque => BOpaque ""
  end.

(** [reflect.Zero]: the zero value of a type. *)
Fixpoint zero (t : Typ) : Val :=
  match t with
  | TBasic k _ => VBasic t (zero_basic k)
  | TPtr e => VNilPtr e
  | TSlice _ _ => VSlice t []
  | TStruct _ fs =>
      VStruct t
        ((fix zeros (l : list StructField) : list Val :=
            match l with
            | [] => []
            | mkStructField _ ft _ _ :: l' => zero ft :: zeros l'
            end) fs)
  end.

Definition reflect_ValueOf (i : iface) : reflect_Value :=
  match i with
  | Nil => RInvalid
  | I v => RV v false
  | IErr e => RV (VPtr (VStruct (TStruct "errorString" []) [])) false
  | IReflect _ => RV (VStruct (TStruct "Value" []) []) false
  end.

Definition reflect_Indirect (rv : reflect_Value) : reflect_Value :=
  match rv with
  | RV (VPtr v) _ => RV v true
  | RV (VNilPtr _) _ => RInvalid
  | _ => rv
  end.

Definition Value_IsValid (rv : reflect_Value) : bool :=
  match rv with
  | RInvalid => false
  | RV _ _ => true
  end.

Definition Value_CanAddr (rv : reflect_Value) : bool :=
  match rv with
  | RInvalid => false
  | RV _ a => a
  end.

Definition Value_Kind (rv : reflect_Value) : Kind :=
  match rv with
  | RInvalid => Invalid
  | RV v _ => Type_Kind (TypeOf v)
  end.

Definition Value_elems (rv : reflect_Value) : list Val :=
  match rv with
  | RV (VSlice _ l) _ => l
  | _ => []
  end.

(** The position of the field called [name] among the fields of a struct
    type. *)
Fixpoint field_index (name : string) (fs : list StructField) : option nat :=
  match fs with
  | [] => None
  | f :: fs' =>
      if String.eqb (sf_Name f) name then Some O
      else match field_index name fs' with
           | Some i => Some (S i)
           | None => None
           end
  end.

(** [Value.FieldByName] on a struct, for a name that the struct itself
    declares: the field of that name, which hides the promoted ones.  It
    is the zero Value when the struct declares no field of the name; the
    fields promoted from embedded structs are those of [Type_selects]
    below. *)
Definition Value_FieldByName (rv : reflect_Value) (name : string) : reflect_Value :=
  match rv with
  | RV (VStruct t vs) a =>
      match field_index name (Type_fields t) with
      | Some i =>
          match vs !! i with
          | Some v => RV v a
          | None => RInvalid
          end
      | None => RInvalid
      end
  | _ => RInvalid
  end.

(** [reflect.New(t).Elem()]: a fresh, addressable zero value. *)
Definition reflect_New_Elem (t : Typ) : reflect_Value := RV (zero t) true.

(** The fields called [name] that a struct type declares or that are
    promoted to it from the structs it embeds, by value or by pointer:
    for each, the depth at which it is declared and whether a pointer is
    on the way to it. *)
Fixpoint fields_named (name : string) (t : Typ) : list (nat * bool) :=
  match t with
  | TStruct _ fs =>
      (fix walk (l : list StructField) : list (nat * bool) :=
         match l with
         | [] => []
         | mkStructField n ft _ anonymous :: l' =>
             ((if String.eqb n name then [(O, false)] else [])
              ++ (if anonymous then
                   match ft with
                   | TStruct _ _ =>
                       map (fun m => (S (fst m), snd m)) (fields_named name ft)
                   | TPtr e =>
                       match e with
                       | TStruct _ _ =>
                           map (fun m => (S (fst m), true)) (fields_named name e)
                       | _ => []
                       end
                   | _ => []
                   end
                  else [])
              ++ walk l')%list
         end) fs
  | _ => []
  end.

(** The field that the selector [name] denotes in a struct type: the one
    at the least depth, when there is exactly one at that depth; with it,
    whether a pointer is on the way to it. *)
Definition Type_selects (t : Typ) (name : string) : option bool :=
  let found := fields_named name t in
  let least := fold_right Nat.min (hd O (map fst found)) (map fst found) in
  match List.filter (fun m => Nat.eqb (fst m) least) found with
  | [m] => Some (snd m)
  | _ => None
  end.

(** ** Connections ([src/interface.go])

    Every connection implements [sqlCommon].  [*sql.DB] also implements
    [sqlDb] (it can begin a transaction) and [*sql.Tx] implements [sqlTx]
    (it can commit and roll back); any other implementation says which of
    the two interfaces it satisfies. *)

Inductive sqlCommon :=
| SqlDB (id : nat)
| SqlTx (id : nat)
| SqlCustom (id : nat) (is_sqlDb is_sqlTx : bool).

Definition implements_sqlDb (c : sqlCommon) : bool :=
  match c with
  | SqlDB _ => true
  | SqlTx _ => false
  | SqlCustom _ d _ => d
  end.

Definition implements_sqlTx (c : sqlCommon) : bool :=
  match c with
  | SqlDB _ => false
  | SqlTx _ => true
  | SqlCustom _ _ t => t
  end.

(** ** The records of the package *)

Definition ptr := nat.

(** The Handle.  The struct is declared outside the three files; these
    are the fields the files read and write:  [clone] copies [db],
    [parent], [logMode], [Value], [Error], [values] and [search], and
    [singularTable] and [tagIdentifier] are only read on the parent. *)
Record DB := mkDB {
  db : sqlCommon;
  parent : ptr;
  logMode : Z;
  Value : iface;
  Error : option error;
  values : gmap string iface;
  search : option ptr;
  singularTable : bool;
  tagIdentifier : string;
}.

(** Modelled from the spec: the query-condition accumulator, of which the
    files only use the back pointer [db], the field [TableName] and
    [clone]; the conditions themselves are kept as text. *)
Record searchT := mkSearch {
  search_db : option ptr;
  TableName : string;
  conditions : list string;
}.

Record relationship := mkRelationship {
  JoinTable : string;
  ForeignKey : string;
  ForeignType : string;
  AssociationForeignKey : string;
  rel_Kind : string;
}.

Record Field := mkField {
  Name : string;
  DBName : string;
  field_Field : reflect_Value;
  Tag : list (string * string);
  Relationship : option relationship;
  IsNormal : bool;
  IsBlank : bool;
  IsIgnored : bool;
  IsPrimaryKey : bool;
  DefaultValue : iface;
}.

Record Scope := mkScope {
  scope_Value : iface;
  indirectValue : option reflect_Value;
  Search : option ptr;
  Sql : string;
  SqlVars : list iface;
  scope_db : option ptr;
  skipLeft : bool;
  primaryKeyField : option Field;
  instanceId : string;
  fields : option ptr;
}.

(** The stores: Handles, accumulators, Scopes and the [map[string]*Field]
    objects, each by address. *)
Record Heap := mkHeap {
  dbs : gmap ptr DB;
  searches : gmap ptr searchT;
  scopes : gmap ptr Scope;
  fieldmaps : gmap ptr (gmap string Field);
}.

(** A method found by [MethodByName], by the shape of its signature.  The
    body of a method is code of the caller: it gets its receiver and its
    argument and may change the stores. *)
Inductive method :=
| func_unit (f : Val → Heap → Heap)
| func_Scope (f : Val → ptr → Heap → Heap)
| func_DB (f : Val → ptr → Heap → Heap)
| func_unit_error (f : Val → Heap → Heap * option error)
| func_Scope_error (f : Val → ptr → Heap → Heap * option error)
| func_DB_error (f : Val → ptr → Heap → Heap * option error)
| func_other (nargs : nat) (f : Val → Heap → Heap * list iface).

Inductive logarg :=
| LogStr (s : string)
| LogErr (e : error).

(** What the program does to the outside: logging, transactions, and the
    calls of hooks and of [Scan]. *)
Inductive event :=
| EvGoPrint (args : list logarg)
| EvPrint (args : list logarg)
| EvBegin (c : sqlCommon)
| EvCommit (c : sqlCommon)
| EvRollback (c : sqlCommon)
| EvCall (name : string) (recv : Val)
| EvScan (recv : Val) (arg : iface).

Record World := mkWorld {
  heap : Heap;
  trace : list event;
}.

(** ** The monad of the package's code *)

Inductive outcome (A : Type) :=
| Ok (a : A)
| Panic (msg : string)
| OutOfFuel.
Arguments Ok {A} a.
Arguments Panic {A} msg.
Arguments OutOfFuel {A}.

Definition M (A : Type) : Type := World → outcome (A * World).

Definition ret {A} (a : A) : M A := fun w => Ok (a, w).

Definition bind {A B} (m : M A) (k : A → M B) : M B :=
  fun w =>
    match m w with
    | Ok (a, w') => k a w'
    | Panic msg => Panic msg
    | OutOfFuel => OutOfFuel
    end.

Notation "x <- m ;;; k" := (bind m (fun x => k))
  (at level 20, m at level 99, k at level 200, only parsing).
Notation "m ;;; k" := (bind m (fun _ => k))
  (at level 100, k at level 200, only parsing, right associativity).

Definition panic {A} (msg : string) : M A := fun _ => Panic msg.

Definition out_of_fuel {A} : M A := fun _ => OutOfFuel.

Definition emit (e : event) : M unit :=
  fun w => Ok (tt, mkWorld (heap w) (trace w ++ [e])).

Definition get_heap : M Heap := fun w => Ok (heap w, w).

Definition put_heap (h : Heap) : M unit :=
  fun w => Ok (tt, mkWorld h (trace w)).

Definition get_trace : M (list event) := fun w => Ok (trace w, w).

(** Run the body of a method on the stores. *)
Definition run_body {A} (f : Heap → Heap * A) : M A :=
  fun w => let '(h, a) := f (heap w) in Ok (a, mkWorld h (trace w)).

Global Instance DB_inhabited : Inhabited DB :=
  populate (mkDB (SqlDB 0) 0 0 Nil None ∅ None false "").
Global Instance search_inhabited : Inhabited searchT :=
  populate (mkSearch None "" []).
Global Instance Scope_inhabited : Inhabited Scope :=
  populate (mkScope Nil None None "" [] None false None "" None).

(** Reading and writing through a non-nil pointer. *)
Definition load_DB (p : ptr) : M DB :=
  fun w => Ok (dbs (heap w) !!! p, w).

Definition store_DB (p : ptr) (d : DB) : M unit :=
  fun w =>
    let h := heap w in
    Ok (tt, mkWorld (mkHeap (<[p := d]> (dbs h)) (searches h) (scopes h)
                            (fieldmaps h)) (trace w)).

Definition load_search (p : ptr) : M searchT :=
  fun w => Ok (searches (heap w) !!! p, w).

Definition store_search (p : ptr) (s : searchT) : M unit :=
  fun w =>
    let h := heap w in
    Ok (tt, mkWorld (mkHeap (dbs h) (<[p := s]> (searches h)) (scopes h)
                            (fieldmaps h)) (trace w)).

Definition load_Scope (p : ptr) : M Scope :=
  fun w => Ok (scopes (heap w) !!! p, w).

Definition store_Scope (p : ptr) (s : Scope) : M unit :=
  fun w =>
    let h := heap w in
    Ok (tt, mkWorld (mkHeap (dbs h) (searches h) (<[p := s]> (scopes h))
                            (fieldmaps h)) (trace w)).

Definition load_fieldmap (p : ptr) : M (gmap string Field) :=
  fun w => Ok (default ∅ (fieldmaps (heap w) !! p), w).

Definition store_fieldmap (p : ptr) (m : gmap string Field) : M unit :=
  fun w =>
    let h := heap w in
    Ok (tt, mkWorld (mkHeap (dbs h) (searches h) (scopes h)
                            (<[p := m]> (fieldmaps h))) (trace w)).

(** Allocation: an address that is not in use. *)
Definition new_DB (d : DB) : M ptr :=
  fun w =>
    let p := fresh (dom (dbs (heap w))) in
    (store_DB p d ;;; ret p) w.

Definition new_search (s : searchT) : M ptr :=
  fun w =>
    let p := fresh (dom (searches (heap w))) in
    (store_search p s ;;; ret p) w.

Definition new_Scope (s : Scope) : M ptr :=
  fun w =>
    let p := fresh (dom (scopes (heap w))) in
    (store_Scope p s ;;; ret p) w.

Definition new_fieldmap (m : gmap string Field) : M ptr :=
  fun w =>
    let p := fresh (dom (fieldmaps (heap w))) in
    (store_fieldmap p m ;;; ret p) w.

(** In place updates of the fields the code assigns. *)
Definition DB_with_db (c : sqlCommon) (d : DB) : DB :=
  mkDB c (parent d) (logMode d) (Value d) (Error d) (values d) (search d)
       (singularTable d) (tagIdentifier d).
Definition DB_with_Value (v : iface) (d : DB) : DB :=
  mkDB (db d) (parent d) (logMode d) v (Error d) (values d) (search d)
       (singularTable d) (tagIdentifier d).
Definition DB_with_Error (e : option error) (d : DB) : DB :=
  mkDB (db d) (parent d) (logMode d) (Value d) e (values d) (search d)
       (singularTable d) (tagIdentifier d).
Definition DB_with_values (m : gmap string iface) (d : DB) : DB :=
  mkDB (db d) (parent d) (logMode d) (Value d) (Error d) m (search d)
       (singularTable d) (tagIdentifier d).
Definition DB_with_search (s : option ptr) (d : DB) : DB :=
  mkDB (db d) (parent d) (logMode d) (Value d) (Error d) (values d) s
       (singularTable d) (tagIdentifier d).

Definition search_with_db (p : option ptr) (s : searchT) : searchT :=
  mkSearch p (TableName s) (conditions s).

Definition Scope_with_indirectValue (v : option reflect_Value) (s : Scope) : Scope :=
  mkScope (scope_Value s) v (Search s) (Sql s) (SqlVars s) (scope_db s)
          (skipLeft s) (primaryKeyField s) (instanceId s) (fields s).
Definition Scope_with_primaryKeyField (f : option Field) (s : Scope) : Scope :=
  mkScope (scope_Value s) (indirectValue s) (Search s) (Sql s) (SqlVars s)
          (scope_db s) (skipLeft s) f (instanceId s) (fields s).
Definition Scope_with_instanceId (i : string) (s : Scope) : Scope :=
  mkScope (scope_Value s) (indirectValue s) (Search s) (Sql s) (SqlVars s)
          (scope_db s) (skipLeft s) (primaryKeyField s) i (fields s).
Definition Scope_with_fields (m : option ptr) (s : Scope) : Scope :=
  mkScope (scope_Value s) (indirectValue s) (Search s) (Sql s) (SqlVars s)
          (scope_db s) (skipLeft s) (primaryKeyField s) (instanceId s) m.
Definition Scope_with_skipLeft (b : bool) (s : Scope) : Scope :=
  mkScope (scope_Value s) (indirectValue s) (Search s) (Sql s) (SqlVars s)
          (scope_db s) b (primaryKeyField s) (instanceId s) (fields s).

Definition Field_with_IsPrimaryKey (b : bool) (f : Field) : Field :=
  mkField (Name f) (DBName f) (field_Field f) (Tag f) (Relationship f)
          (IsNormal f) (IsBlank f) (IsIgnored f) b (DefaultValue f).
Definition Field_with_Field (v : reflect_Value) (f : Field) : Field :=
  mkField (Name f) (DBName f) v (Tag f) (Relationship f)
          (IsNormal f) (IsBlank f) (IsIgnored f) (IsPrimaryKey f)
          (DefaultValue f).
Definition Field_with_IsBlank (b : bool) (f : Field) : Field :=
  mkField (Name f) (DBName f) (field_Field f) (Tag f) (Relationship f)
          (IsNormal f) b (IsIgnored f) (IsPrimaryKey f) (DefaultValue f).

Definition Field_with_Relationship (r : option relationship) (f : Field) : Field :=
  mkField (Name f) (DBName f) (field_Field f) (Tag f) r
          (IsNormal f) (IsBlank f) (IsIgnored f) (IsPrimaryKey f)
          (DefaultValue f).
Definition Field_with_IsNormal (b : bool) (f : Field) : Field :=
  mkField (Name f) (DBName f) (field_Field f) (Tag f) (Relationship f)
          b (IsBlank f) (IsIgnored f) (IsPrimaryKey f) (DefaultValue f).

(** [StructTag.Get]: the value under a key, the empty string if there is
    none. *)
Fixpoint Tag_Get (tag : list (string * string)) (key : string) : string :=
  match tag with
  | [] => ""
  | (k, v) :: tag' => if String.eqb k key then v else Tag_Get tag' key
  end.

(** [Value.Type]; it panics on the zero Value. *)
Definition Value_Type (rv : reflect_Value) : outcome Typ :=
  match rv with
  | RV v _ => Ok (TypeOf v)
  | RInvalid => Panic "reflect: call of reflect.Value.Type on zero Value"
  end.

(** [reflect.New(t).Elem().FieldByName(name).IsValid()], for a struct type
    [t]: a field that the struct declares is there; so is a promoted
    field, when the selector denotes one, unless it is reached through an
    embedded pointer, which is nil in the zero value: [FieldByName] then
    panics. *)
Definition New_Elem_FieldByName_IsValid (t : Typ) (name : string) : outcome bool :=
  if Value_IsValid (Value_FieldByName (reflect_New_Elem t) name) then Ok true
  else match Type_selects t name with
       | Some false => Ok true
       | Some true =>
           Panic "reflect: indirection through nil pointer to embedded struct"
       | None => Ok false
       end.

(** ** What the three files take from elsewhere

    Helpers of the repository that are declared in other files
    ([ToSnake], [SnakeToUpperCamel], [parseTagSetting], [isBlank],
    [fileWithLineNum]), facts about the types of the caller's program
    (which types are [time.Time], which implement [sql.Scanner], which
    methods they have, which conversions exist), the driver's answer to
    [Begin], the order in which [range] walks a map, and the text [%v]
    prints for the address of a variable. *)
Record Env := mkEnv {
  ToSnake : string → string;
  SnakeToUpperCamel : string → string;
  parseTagSetting : string → gmap string string;
  IsExported : string → bool;
  isBlank : reflect_Value → bool;
  fileWithLineNum : string;
  isTime : Typ → bool;
  Scanner : Typ → option (Val → iface → Val * option error);
  MethodByName : Typ → string → option method;
  ConvertibleTo : Typ → Typ → bool;
  Convert : Val → Typ → Val;
  map_range : gmap string Field → list (string * Field);
  sql_Begin : sqlCommon → list event → option nat;
  var_addr : World → string;
}.

(** [for _, x := range l { body }] over a slice. *)
Fixpoint for_each {A} (l : list A) (body : A → M unit) : M unit :=
  match l with
  | [] => ret tt
  | x :: l' => body x ;;; for_each l' body
  end.

(** A loop over a slice that carries a local variable. *)
Fixpoint fold_M {A B} (body : B → A → M B) (acc : B) (l : list A) : M B :=
  match l with
  | [] => ret acc
  | x :: l' => acc' <- body acc x ;;; fold_M body acc' l'
  end.

Definition lift {A} (o : outcome A) : M A :=
  fun w =>
    match o with
    | Ok a => Ok (a, w)
    | Panic msg => Panic msg
    | OutOfFuel => OutOfFuel
    end.

Section Gorm.

Context (E : Env).

(** ** The Handle ([DB]) *)

(** [search.clone], declared with the accumulator: a copy of the object. *)
Definition search_clone (q : ptr) : M ptr :=
  s <- load_search q ;;;
  new_search s.

Definition DB_clone (s : ptr) : M ptr :=
  d <- load_DB s ;;;
  p <- new_DB (mkDB (db d) (parent d) (logMode d) (Value d) (Error d)
                    (values d) None false "") ;;;
  q <- match search d with
       | None => new_search (mkSearch None "" [])
       | Some q0 => search_clone q0
       end ;;;
  d' <- load_DB p ;;;
  store_DB p (DB_with_search (Some q) d') ;;;
  sr <- load_search q ;;;
  store_search q (search_with_db (Some p) sr) ;;;
  ret p.

Definition DB_new (s : ptr) : M ptr :=
  d <- load_DB s ;;;
  store_DB s (DB_with_search None d) ;;;
  DB_clone s.

(** Modelled from the spec: the logger sink "exposes a variadic print
    operation"; [print] hands its arguments to the parent's logger. *)
Definition DB_print (s : ptr) (v : list logarg) : M unit :=
  emit (EvPrint v).

(** [go s.print(...)]: the print is started, not waited for. *)
Definition go_DB_print (s : ptr) (v : list logarg) : M unit :=
  emit (EvGoPrint v).

Definition DB_log (s : option ptr) (v : list logarg) : M unit :=
  match s with
  | Some p =>
      d <- load_DB p ;;;
      if (logMode d =? 2)%Z
      then DB_print p (LogStr "log" :: LogStr (fileWithLineNum E) :: v)
      else ret tt
  | None => ret tt
  end.

(** [^sql: Scan error on column index] *)
Definition scanErrorRegexp : regexp :=
  RxBegin :: rx_lit "sql: Scan error on column index".

Definition DB_err (s : ptr) (err : option error) : M (option error) :=
  match err with
  | Some e =>
      if negb (is_RecordNotFound e) then
        d <- load_DB s ;;;
        (if (logMode d =? 0)%Z
         then go_DB_print s [LogStr (fileWithLineNum E); LogErr e]
         else DB_log (Some s) [LogErr e]) ;;;
        if MatchString scanErrorRegexp (error_Error e)
        then ret None
        else
          d' <- load_DB s ;;;
          store_DB s (DB_with_Error err d') ;;;
          ret err
      else
        d <- load_DB s ;;;
        store_DB s (DB_with_Error err d) ;;;
        ret err
  | None => ret err
  end.

(** Modelled from the spec: "a mapping of named settings".  [InstantSet]
    and [Get] are declared with the Handle; they write and read
    [values]. *)
Definition DB_InstantSet (s : ptr) (name : string) (value : iface) : M ptr :=
  d <- load_DB s ;;;
  store_DB s (DB_with_values (<[name := value]> (values d)) d) ;;;
  ret s.

Definition DB_Get (s : ptr) (name : string) : M (option iface) :=
  d <- load_DB s ;;;
  ret (values d !! name).

(** ** Scope *)

(** Dereferencing [scope.db]. *)
Definition Scope_handle (scope : ptr) : M ptr :=
  sc <- load_Scope scope ;;;
  match scope_db sc with
  | Some p => ret p
  | None => panic "nil pointer dereference"
  end.

Definition Scope_IndirectValue (scope : ptr) : M reflect_Value :=
  sc <- load_Scope scope ;;;
  match indirectValue sc with
  | None =>
      let value := reflect_Indirect (reflect_ValueOf (scope_Value sc)) in
      store_Scope scope (Scope_with_indirectValue (Some value) sc) ;;;
      ret value
  | Some value => ret value
  end.

Definition DB_NewScope (p : ptr) (value : iface) : M ptr :=
  d <- load_DB p ;;;
  store_DB p (DB_with_Value value d) ;;;
  new_Scope (mkScope value None (search d) "" [] (Some p) false None "" None).

Definition Scope_New (scope : ptr) (value : iface) : M ptr :=
  sc <- load_Scope scope ;;;
  q <- new_search (mkSearch None "" []) ;;;
  new_Scope (mkScope value None (Some q) "" [] (scope_db sc) false None ""
                     None).

Definition Scope_NewDB (scope : ptr) : M ptr :=
  p <- Scope_handle scope ;;;
  DB_new p.

Definition Scope_DB (scope : ptr) : M sqlCommon :=
  p <- Scope_handle scope ;;;
  d <- load_DB p ;;;
  ret (db d).

Definition Scope_SkipLeft (scope : ptr) : M unit :=
  sc <- load_Scope scope ;;;
  store_Scope scope (Scope_with_skipLeft true sc).

Definition Scope_Err (scope : ptr) (err : option error) : M (option error) :=
  match err with
  | Some _ =>
      p <- Scope_handle scope ;;;
      DB_err p err ;;;
      ret err
  | None => ret err
  end.

Definition Scope_Log (scope : ptr) (v : list logarg) : M unit :=
  sc <- load_Scope scope ;;;
  DB_log (scope_db sc) v.

Definition Scope_HasError (scope : ptr) : M bool :=
  p <- Scope_handle scope ;;;
  d <- load_DB p ;;;
  ret (bool_decide (is_Some (Error d))).

Definition Scope_Set (scope : ptr) (name : string) (value : iface) : M ptr :=
  p <- Scope_handle scope ;;;
  DB_InstantSet p name value ;;;
  ret scope.

Definition Scope_Get (scope : ptr) (name : string) : M (option iface) :=
  p <- Scope_handle scope ;;;
  DB_Get p name.

(** [fmt.Sprintf("%v", &scope)]: the address of the receiver variable,
    printed as [0x] and hexadecimal digits. *)
Definition Scope_InstanceId (scope : ptr) : M string :=
  sc <- load_Scope scope ;;;
  if String.eqb (instanceId sc) "" then
    fun w =>
      (let id := "0x" +:+ var_addr E w in
       store_Scope scope (Scope_with_instanceId id sc) ;;;
       ret id) w
  else ret (instanceId sc).

Definition Scope_InstanceSet (scope : ptr) (name : string) (value : iface)
  : M ptr :=
  id <- Scope_InstanceId scope ;;;
  Scope_Set scope (name +:+ id) value.

Definition Scope_InstanceGet (scope : ptr) (name : string)
  : M (option iface) :=
  id <- Scope_InstanceId scope ;;;
  Scope_Get scope (name +:+ id).

Definition bool_T : Typ := TBasic KBool "bool".
Definition string_T : Typ := TBasic KString "string".
Definition Go_true : iface := I (VBasic bool_T (BBool true)).
Definition Go_string (s : string) : iface := I (VBasic string_T (BString s)).

(** ** Transactions *)

Definition Scope_Begin (scope : ptr) : M ptr :=
  c <- Scope_DB scope ;;;
  (if implements_sqlDb c then
     tr <- get_trace ;;;
     emit (EvBegin c) ;;;
     match sql_Begin E c tr with
     | Some tx =>
         p <- Scope_handle scope ;;;
         d <- load_DB p ;;;
         store_DB p (DB_with_db (SqlTx tx) d) ;;;
         Scope_InstanceSet scope "gorm:started_transaction" Go_true ;;;
         ret tt
     | None => ret tt
     end
   else ret tt) ;;;
  ret scope.

Definition Scope_CommitOrRollback (scope : ptr) : M ptr :=
  marker <- Scope_InstanceGet scope "gorm:started_transaction" ;;;
  match marker with
  | Some _ =>
      c <- Scope_DB scope ;;;
      if implements_sqlTx c then
        failed <- Scope_HasError scope ;;;
        (if failed : bool then emit (EvRollback c) else emit (EvCommit c)) ;;;
        p <- Scope_handle scope ;;;
        d <- load_DB p ;;;
        top <- load_DB (parent d) ;;;
        d' <- load_DB p ;;;
        store_DB p (DB_with_db (db top) d') ;;;
        ret scope
      else ret scope
  | None => ret scope
  end.

(** ** Hooks *)

Definition iface_of_error (e : option error) : iface :=
  match e with
  | Some e' => IErr e'
  | None => Nil
  end.

(** The closure [call] of [CallMethod]. *)
Definition CallMethod_call (scope : ptr) (name : string) (value : iface)
  : M unit :=
  match reflect_ValueOf value with
  | RInvalid => panic "reflect: call of reflect.Value.MethodByName on zero Value"
  | RV recv _ =>
      match MethodByName E (TypeOf recv) name with
      | Some fm =>
          match fm with
          | func_unit f =>
              emit (EvCall name recv) ;;;
              run_body (fun h => (f recv h, tt))
          | func_Scope f =>
              emit (EvCall name recv) ;;;
              run_body (fun h => (f recv scope h, tt))
          | func_DB f =>
              p <- Scope_handle scope ;;;
              fresh_db <- DB_new p ;;;
              emit (EvCall name recv) ;;;
              run_body (fun h => (f recv fresh_db h, tt))
          | func_unit_error f =>
              emit (EvCall name recv) ;;;
              err <- run_body (f recv) ;;;
              Scope_Err scope err ;;;
              ret tt
          | func_Scope_error f =>
              emit (EvCall name recv) ;;;
              err <- run_body (f recv scope) ;;;
              Scope_Err scope err ;;;
              ret tt
          | func_DB_error f =>
              p <- Scope_handle scope ;;;
              fresh_db <- DB_new p ;;;
              emit (EvCall name recv) ;;;
              err <- run_body (f recv fresh_db) ;;;
              Scope_Err scope err ;;;
              ret tt
          | func_other _ _ =>
              Scope_Err scope
                (Some (errors_New ("unsupported function " +:+ name))) ;;;
              ret tt
          end
      | None => ret tt
      end
  end.

Definition is_Nil (i : iface) : bool :=
  match i with
  | Nil => true
  | _ => false
  end.

Definition Kind_is_Slice (k : Kind) : bool :=
  match k with Slice => true | _ => false end.
Definition Kind_is_Struct (k : Kind) : bool :=
  match k with Struct => true | _ => false end.
Definition Kind_is_Ptr (k : Kind) : bool :=
  match k with Ptr => true | _ => false end.

(** [values.Index(i).Addr().Interface()]: the elements of a slice are
    addressable. *)
Definition Index_Addr_Interface (elem : Val) : iface := I (VPtr elem).

Definition Scope_CallMethod (scope : ptr) (name : string) : M unit :=
  sc <- load_Scope scope ;;;
  if is_Nil (scope_Value sc) then ret tt
  else
    values <- Scope_IndirectValue scope ;;;
    if Kind_is_Slice (Value_Kind values) then
      for_each (Value_elems values)
        (fun elem => CallMethod_call scope name (Index_Addr_Interface elem))
    else
      sc' <- load_Scope scope ;;;
      CallMethod_call scope name (scope_Value sc').

(** ** Table names *)

Definition pluralMapKeys : list regexp :=
  [ rx_lit "ch" ++ [RxEnd]; rx_lit "ss" ++ [RxEnd]; rx_lit "sh" ++ [RxEnd];
    rx_lit "day" ++ [RxEnd]; rx_lit "y" ++ [RxEnd]; rx_lit "x" ++ [RxEnd];
    [RxGroupNot "s"%char; RxOpt "s"%char; RxEnd] ]%list.

Definition pluralMapValues : list template :=
  [ [TplLit "ches"]; [TplLit "sses"]; [TplLit "shes"]; [TplLit "days"];
    [TplLit "ies"]; [TplLit "xes"]; [TplGroup1; TplLit "s"] ].

(** The loop [for index, reg := range pluralMapKeys] of [TableName], from
    position [index] on: the replacement by the first key that matches,
    if any. *)
Fixpoint plural_from (index : nat) (keys : list regexp) (str : string)
  : option string :=
  match keys with
  | [] => None
  | reg :: keys' =>
      if MatchString reg str
      then Some (ReplaceAllString reg str
                   (default [] (pluralMapValues !! index)))
      else plural_from (S index) keys' str
  end.

(** [Value.Call] with no arguments. *)
Definition Value_Call0 (fm : method) (name : string) (recv : Val)
  : M (list iface) :=
  match fm with
  | func_unit f =>
      emit (EvCall name recv) ;;;
      run_body (fun h => (f recv h, []))
  | func_unit_error f =>
      emit (EvCall name recv) ;;;
      err <- run_body (f recv) ;;;
      ret [iface_of_error err]
  | func_other O f =>
      emit (EvCall name recv) ;;;
      run_body (f recv)
  | _ => panic "reflect: Call with too few input arguments"
  end.

(** The type assertion [.(string)]. *)
Definition as_string (i : iface) : option string :=
  match i with
  | I (VBasic (TBasic KString n) (BString s)) =>
      if String.eqb n "string" then Some s else None
  | _ => None
  end.

Definition Scope_TableName (scope : ptr) : M string :=
  sc <- load_Scope scope ;;;
  override <- match Search sc with
              | Some q => sr <- load_search q ;;; ret (TableName sr)
              | None => ret ""
              end ;;;
  if (0 <? String.length override)%nat then ret override
  else if is_Nil (scope_Value sc) then
    Scope_Err scope (Some (errors_New "can't get table name")) ;;;
    ret ""
  else
    data0 <- Scope_IndirectValue scope ;;;
    let data :=
      if Kind_is_Slice (Value_Kind data0) then
        let elem :=
          match data0 with
          | RV v _ => Type_Elem (TypeOf v)
          | RInvalid => TBasic KOpaque ""
          end in
        let elem := if Kind_is_Ptr (Type_Kind elem) then Type_Elem elem
                    else elem in
        reflect_New_Elem elem
      else data0 in
    match data with
    | RInvalid =>
        panic "reflect: call of reflect.Value.MethodByName on zero Value"
    | RV v _ =>
        hooked <-
          match MethodByName E (TypeOf v) "TableName" with
          | Some fm =>
              results <- Value_Call0 fm "TableName" v ;;;
              match results with
              | r :: _ => ret (as_string r)
              | [] => ret None
              end
          | None => ret None
          end ;;;
        match hooked with
        | Some result => ret result
        | None =>
            let str := ToSnake E (Type_Name (TypeOf v)) in
            sc' <- load_Scope scope ;;;
            singular <-
              match scope_db sc' with
              | None => ret false
              | Some p =>
                  d <- load_DB p ;;;
                  top <- load_DB (parent d) ;;;
                  ret (singularTable top)
              end ;;;
            if negb singular then
              match plural_from 0 pluralMapKeys str with
              | Some plural => ret plural
              | None => ret str
              end
            else ret str
        end
    end.

(** ** Field ([src/field.go]) *)

Definition Field_IsScanner (field : Field) : M bool :=
  match field_Field field with
  | RV v _ => ret (bool_decide (is_Some (Scanner E (TypeOf v))))
  | RInvalid => panic "reflect: call of reflect.Value.Type on zero Value"
  end.

Definition Field_IsTime (field : Field) : M bool :=
  match field_Field field with
  | RV v _ => ret (isTime E (TypeOf v))
  | RInvalid => panic "reflect: call of reflect.Value.Interface on zero Value"
  end.

(** [Value.Interface] *)
Definition Value_Interface (rv : reflect_Value) : M iface :=
  match rv with
  | RV v _ => ret (I v)
  | RInvalid => panic "reflect: call of reflect.Value.Interface on zero Value"
  end.

(** [reflect.TypeOf]; it is nil for a nil interface. *)
Definition reflect_TypeOf (i : iface) : option Typ :=
  match reflect_ValueOf i with
  | RV v _ => Some (TypeOf v)
  | RInvalid => None
  end.

(** [Set] has a pointer receiver: it returns here, with the error, the
    Field as the call leaves [*field].  The Field is modelled by value: a
    [reflect.Value] is the value it holds and whether it is addressable,
    not a location; that [Set] and [Scan] write through [field.Field]
    into the record the Scope is on, and that the Field is the object the
    Scope's map refers to, is not part of this model, and no statement
    below is about it. *)
Definition Field_Set (field : Field) (value : iface)
  : M (Field * option error) :=
  if negb (Value_IsValid (field_Field field)) then
    ret (field, Some (errors_New "field value not valid"))
  else if negb (Value_CanAddr (field_Field field)) then
    ret (field, Some (errors_New "field value not addressable"))
  else
    value <- match value with
             | IReflect rvalue => Value_Interface rvalue
             | _ => ret value
             end ;;;
    match field_Field field with
    | RInvalid => panic "unreachable"
    | RV cur a =>
        match Scanner E (TypeOf cur) with
        | Some scan =>
            emit (EvScan (VPtr cur) value) ;;;
            let '(cur', _) := scan cur value in
            let field := Field_with_Field (RV cur' a) field in
            ret (Field_with_IsBlank (isBlank E (field_Field field)) field,
                 None)
        | None =>
            match reflect_TypeOf value with
            | None => panic "nil pointer dereference"
            | Some vt =>
                if ConvertibleTo E vt (TypeOf cur) then
                  match reflect_ValueOf value with
                  | RV v _ =>
                      let field :=
                        Field_with_Field (RV (Convert E v (TypeOf cur)) a)
                                         field in
                      ret (Field_with_IsBlank
                             (isBlank E (field_Field field)) field, None)
                  | RInvalid => panic "unreachable"
                  end
                else
                  ret (field, Some (errors_New "could not convert argument"))
            end
        end
    end.

(** ** Field discovery

    [Fields], [fieldFromStruct] and [HasColumn] call each other.  The two
    helpers are written over the recursive call to [Fields]; [Fields]
    itself recurses on a bound [fuel] of nested calls. *)

Definition HasColumn_with (Fields_rec : ptr → list bool → M ptr)
    (scope : ptr) (column : string) : M bool :=
  iv <- Scope_IndirectValue scope ;;;
  clone <- (if Kind_is_Slice (Value_Kind iv) then
              t <- lift (Value_Type iv) ;;;
              Scope_New scope (I (VPtr (zero (Type_Elem t))))
            else ret scope) ;;;
  let dbName := ToSnake E column in
  m <- Fields_rec clone [false] ;;;
  mm <- load_fieldmap m ;;;
  ret (bool_decide (is_Some (mm !! dbName))).

Definition setting (settings : gmap string string) (key : string) : string :=
  default "" (settings !! key).

(** [fieldFromStruct]; [fieldStruct] is a field that the type of the
    target declares: [Fields], the only caller, takes it from that
    type. *)
Definition fieldFromStruct_with (Fields_rec : ptr → list bool → M ptr)
    (scope : ptr) (fieldStruct : StructField) (withRelation : bool)
  : M (list Field) :=
  iv <- Scope_IndirectValue scope ;;;
  let value := Value_FieldByName iv (sf_Name fieldStruct) in
  let indirectValue := reflect_Indirect value in
  let settings := parseTagSetting E (Tag_Get (sf_Tag fieldStruct) "gorm") in
  let isPrimaryKey := bool_decide (is_Some (settings !! "PRIMARY_KEY")) in
  let defaultValue :=
    match parseTagSetting E (Tag_Get (sf_Tag fieldStruct) "sql") !! "DEFAULT" with
    | Some def => Go_string def
    | None => Nil
    end in
  let dbName :=
    match settings !! "COLUMN" with
    | Some v => v
    | None => ToSnake E (sf_Name fieldStruct)
    end in
  sc <- load_Scope scope ;;;
  tagIdentifier <- match scope_db sc with
                   | Some p =>
                       d <- load_DB p ;;;
                       top <- load_DB (parent d) ;;;
                       ret (tagIdentifier top)
                   | None => ret "sql"
                   end ;;;
  let isIgnored := String.eqb (Tag_Get (sf_Tag fieldStruct) tagIdentifier) "-" in
  let field :=
    mkField (sf_Name fieldStruct) dbName value (sf_Tag fieldStruct) None
            false (isBlank E value) isIgnored isPrimaryKey defaultValue in
  if isIgnored then ret [field]
  else
    indirectValue <-
      (if Value_IsValid indirectValue then ret indirectValue
       else t <- lift (Value_Type value) ;;; ret (RV (VPtr (zero t)) false)) ;;;
    typ <- lift (Value_Type indirectValue) ;;;
    iv' <- Scope_IndirectValue scope ;;;
    scopeTyp <- lift (Value_Type iv') ;;;
    let polymorphic := SnakeToUpperCamel E (setting settings "POLYMORPHIC") in
    let foreignKey :=
      if String.eqb polymorphic "" then
        SnakeToUpperCamel E (setting settings "FOREIGNKEY")
      else polymorphic +:+ "Id" in
    let foreignType :=
      if String.eqb polymorphic "" then
        SnakeToUpperCamel E (setting settings "FOREIGNTYPE")
      else polymorphic +:+ "Type" in
    let associationForeignKey :=
      SnakeToUpperCamel E (setting settings "ASSOCIATIONFOREIGNKEY") in
    let many2many := setting settings "MANY2MANY" in
    match Value_Kind indirectValue with
    | Slice =>
        let typ := Type_Elem typ in
        if Kind_is_Struct (Type_Kind typ) && withRelation then
          let foreignKey :=
            if String.eqb foreignKey "" then Type_Name scopeTyp +:+ "Id"
            else foreignKey in
          let associationForeignKey :=
            if String.eqb associationForeignKey "" then Type_Name typ +:+ "Id"
            else associationForeignKey in
          foreignKey <-
            (if String.eqb many2many "" then
               valid <- lift (New_Elem_FieldByName_IsValid typ foreignKey) ;;;
               ret (if negb valid then "" else foreignKey)
             else ret foreignKey) ;;;
          let kind :=
            if negb (String.eqb many2many "") then "many_to_many"
            else "has_many" in
          ret [Field_with_Relationship
                 (Some (mkRelationship many2many foreignKey foreignType
                                       associationForeignKey kind)) field]
        else ret [Field_with_IsNormal true field]
    | Struct =>
        is_time <- Field_IsTime field ;;;
        is_leaf <- (if is_time : bool then ret true
                    else Field_IsScanner field) ;;;
        if is_leaf : bool then ret [Field_with_IsNormal true field]
        else if bool_decide (is_Some (settings !! "EMBEDDED"))
                || sf_Anonymous fieldStruct then
          match value with
          | RV v true =>
              sub <- Scope_New scope (I (VPtr v)) ;;;
              m <- Fields_rec sub [] ;;;
              mm <- load_fieldmap m ;;;
              ret (map snd (map_range E mm))
          | _ => ret []
          end
        else if withRelation then
          let belongsToForeignKey :=
            if String.eqb foreignKey "" then sf_Name fieldStruct +:+ "Id"
            else foreignKey in
          let hasOneForeignKey :=
            if String.eqb foreignKey "" then Type_Name scopeTyp +:+ "Id"
            else foreignKey in
          belongs <- HasColumn_with Fields_rec scope belongsToForeignKey ;;;
          let '(foreignKey, kind) :=
            if belongs : bool then (belongsToForeignKey, "belongs_to")
            else (hasOneForeignKey, "has_one") in
          ret [Field_with_Relationship
                 (Some (mkRelationship "" foreignKey foreignType "" kind))
                 field]
        else ret [field]
    | _ => ret [Field_with_IsNormal true field]
    end.

Definition Fields_withRelation (noRelations : list bool) : bool :=
  match noRelations with
  | [] => true
  | _ :: _ => false
  end.

(** The body of the inner loop of [Fields]: enter one discovered field
    into the map at [m]. *)
Definition Fields_enter (m : ptr) (hasPrimaryKey : bool) (field : Field)
  : M bool :=
  let hasPrimaryKey := if IsPrimaryKey field then true else hasPrimaryKey in
  mm <- load_fieldmap m ;;;
  match mm !! DBName field with
  | Some value =>
      if IsIgnored value then
        store_fieldmap m (<[DBName field := field]> mm) ;;;
        ret hasPrimaryKey
      else panic "Duplicated column name"
  | None =>
      store_fieldmap m (<[DBName field := field]> mm) ;;;
      ret hasPrimaryKey
  end.

Fixpoint Scope_Fields (fuel : nat) (scope : ptr) (noRelations : list bool)
  : M ptr :=
  match fuel with
  | O => out_of_fuel
  | S fuel' =>
      let withRelation := Fields_withRelation noRelations in
      sc <- load_Scope scope ;;;
      match (if withRelation then fields sc else None) with
      | Some cached => ret cached
      | None =>
          m <- new_fieldmap ∅ ;;;
          iv <- Scope_IndirectValue scope ;;;
          (if Value_IsValid iv && Kind_is_Struct (Value_Kind iv) then
             scopeTyp <- lift (Value_Type iv) ;;;
             hasPrimaryKey <-
               fold_M
                 (fun hasPrimaryKey fieldStruct =>
                    if negb (IsExported E (sf_Name fieldStruct))
                    then ret hasPrimaryKey
                    else
                      fs <- fieldFromStruct_with (Scope_Fields fuel') scope
                              fieldStruct withRelation ;;;
                      fold_M (Fields_enter m) hasPrimaryKey fs)
                 false (Type_fields scopeTyp) ;;;
             if negb hasPrimaryKey then
               mm <- load_fieldmap m ;;;
               match mm !! "id" with
               | Some field =>
                   store_fieldmap m
                     (<["id" := Field_with_IsPrimaryKey true field]> mm)
               | None => ret tt
               end
             else ret tt
           else ret tt) ;;;
          (if withRelation then
             sc' <- load_Scope scope ;;;
             store_Scope scope (Scope_with_fields (Some m) sc')
           else ret tt) ;;;
          ret m
      end
  end.

Definition Scope_fieldFromStruct (fuel : nat) :=
  fieldFromStruct_with (Scope_Fields fuel).

Definition Scope_HasColumn (fuel : nat) := HasColumn_with (Scope_Fields fuel).

(** The first entry that [range] yields with the flag set. *)
Definition first_primary_key (l : list (string * Field)) : option Field :=
  snd <$> find (fun kv => IsPrimaryKey (snd kv)) l.

Definition Scope_PrimaryKeyField (fuel : nat) (scope : ptr)
  : M (option Field) :=
  sc <- load_Scope scope ;;;
  match primaryKeyField sc with
  | None =>
      indirectValue <- Scope_IndirectValue scope ;;;
      clone <- (if Kind_is_Slice (Value_Kind indirectValue) then
                  t <- lift (Value_Type indirectValue) ;;;
                  Scope_New scope (I (zero (Type_Elem t)))
                else ret scope) ;;;
      m <- Scope_Fields fuel clone [] ;;;
      mm <- load_fieldmap m ;;;
      match first_primary_key (map_range E mm) with
      | Some field =>
          sc' <- load_Scope scope ;;;
          store_Scope scope (Scope_with_primaryKeyField (Some field) sc') ;;;
          ret (Some field)
      | None =>
          sc' <- load_Scope scope ;;;
          ret (primaryKeyField sc')
      end
  | Some field => ret (Some field)
  end.

End Gorm.

(** * Vocabulary of the statements

    Predicates and observations on the states of the model, used to state
    what the functions above do. *)

(** ** Error latching *)

Definition scan_error_text : string := "sql: Scan error on column index".

(** The Handle's error after [err(e)], from the error before it: nil and an
    error that is not the sentinel and starts with the scan-error text
    leave it, any other error replaces it. *)
Definition latched (prev : option error) (err : option error) : option error :=
  match err with
  | None => prev
  | Some e =>
      if negb (is_RecordNotFound e)
         && String.prefix scan_error_text (error_Error e)
      then prev else Some e
  end.

(** ** Transactions *)

(** The world in which some step between [Begin] and [CommitOrRollback]
    has left the Handle [p] with the error [err]. *)
Definition World_with_Error (p : ptr) (err : option error) (w : World) : World :=
  let h := heap w in
  mkWorld (mkHeap (<[p := DB_with_Error err (dbs h !!! p)]> (dbs h))
                  (searches h) (scopes h) (fieldmaps h)) (trace w).

Definition finish_event (err : option error) (c : sqlCommon) : event :=
  match err with
  | Some _ => EvRollback c
  | None => EvCommit c
  end.

(** The Scope [scope] has begun the transaction [tx] on its Handle [p]:
    the marker is stored under the Scope's instance id and the Handle's
    connection is the transaction. *)
Definition started_transaction (scope p : ptr) (tx : nat) (w : World) : Prop :=
  let sc := scopes (heap w) !!! scope in
  let d := dbs (heap w) !!! p in
  scope_db sc = Some p ∧ instanceId sc ≠ "" ∧
  is_Some (values d !! ("gorm:started_transaction" +:+ instanceId sc)) ∧
  db d = SqlTx tx ∧ parent d ≠ p.

(** ** The dereferenced target of a Scope *)

(** What [IndirectValue] returns: the cached value, or the dereferenced
    target. *)
Definition Scope_indirect (sc : Scope) : reflect_Value :=
  match indirectValue sc with
  | Some v => v
  | None => reflect_Indirect (reflect_ValueOf (scope_Value sc))
  end.

(** The world after [IndirectValue] has filled its cache. *)
Definition World_with_indirect (scope : ptr) (w : World) : World :=
  let h := heap w in
  let sc := scopes h !!! scope in
  match indirectValue sc with
  | Some _ => w
  | None =>
      mkWorld (mkHeap (dbs h) (searches h)
                 (<[scope := Scope_with_indirectValue (Some (Scope_indirect sc)) sc]>
                    (scopes h))
                 (fieldmaps h)) (trace w)
  end.

(** ** Hook dispatch *)

(** The receivers [CallMethod] dispatches on: the addresses of the
    elements of a collection target, or the target itself. *)
Definition hook_receivers (sc : Scope) : list Val :=
  if Kind_is_Slice (Value_Kind (Scope_indirect sc))
  then map VPtr (Value_elems (Scope_indirect sc))
  else match reflect_ValueOf (scope_Value sc) with
       | RV v _ => [v]
       | RInvalid => []
       end.

(** One of the six shapes [CallMethod] invokes. *)
Definition recognized (fm : method) : bool :=
  match fm with
  | func_other _ _ => false
  | _ => true
  end.

Definition is_call (ev : event) : bool :=
  match ev with
  | EvCall _ _ => true
  | _ => false
  end.

(** The calls of methods of the caller's values in a trace. *)
Definition calls_of (tr : list event) : list event := List.filter is_call tr.

Definition has_hook (E : Env) (name : string) (recv : Val) : bool :=
  match MethodByName E (TypeOf recv) name with
  | Some fm => recognized fm
  | None => false
  end.

(** One call per receiver that has the hook, in the order of the
    receivers. *)
Definition hook_calls (E : Env) (name : string) (recvs : list Val) : list event :=
  map (EvCall name) (List.filter (has_hook E name) recvs).

(** The forms that take a fresh Handle, as a function that returns a
    failure or none. *)
Definition fresh_Handle_body (fm : method)
  : option (Val → ptr → Heap → Heap * option error) :=
  match fm with
  | func_DB f => Some (fun recv p h => (f recv p h, None))
  | func_DB_error f => Some f
  | _ => None
  end.

(** The receiver has a method of this name and of none of the six
    shapes. *)
Definition unsupported (E : Env) (name : string) (recv : Val) : Prop :=
  ∃ n f, MethodByName E (TypeOf recv) name = Some (func_other n f).

(** The stores after the body of a method. *)
Definition method_heap (fm : method) (recv : Val) (arg : ptr) (h : Heap) : Heap :=
  match fm with
  | func_unit f => f recv h
  | func_Scope f => f recv arg h
  | func_DB f => f recv arg h
  | func_unit_error f => fst (f recv h)
  | func_Scope_error f => fst (f recv arg h)
  | func_DB_error f => fst (f recv arg h)
  | func_other _ _ => h
  end.

(** The field [db] of a Scope is unexported and assigned only when the
    Scope is made: the hooks, code of another package, leave it as it
    is. *)
Definition keeps_handle (E : Env) (scope : ptr) (name : string) : Prop :=
  ∀ t fm recv arg h,
    MethodByName E t name = Some fm →
    scope_db (scopes (method_heap fm recv arg h) !!! scope)
    = scope_db (scopes h !!! scope).

(** *** One dispatch after the other *)

(** Whether the method takes a fresh Handle. *)
Definition takes_Handle (fm : method) : bool :=
  match fm with
  | func_DB _ | func_DB_error _ => true
  | _ => false
  end.

(** The Handle given to the body of a method and the world the body starts
    in, when the dispatch starts in [w] on a Scope of the Handle [p]: the
    forms that take a Handle run after [new] on [p]. *)
Definition hook_start (fm : method) (p : ptr) (w : World) : ptr * World :=
  if takes_Handle fm then
    match DB_new p w with
    | Ok (fresh, w') => (fresh, w')
    | _ => (p, w)
    end
  else (p, w).

(** The stores the body of a method leaves and the failure the dispatch
    hands to [Err]: the failure the body returns, none for a body that
    returns nothing, and the failure of the dispatch itself for a method
    of another shape, whose body is not run. *)
Definition hook_result (fm : method) (name : string) (recv : Val)
    (scope fresh : ptr) (h : Heap) : Heap * option error :=
  match fm with
  | func_unit f => (f recv h, None)
  | func_Scope f => (f recv scope h, None)
  | func_DB f => (f recv fresh h, None)
  | func_unit_error f => f recv h
  | func_Scope_error f => f recv scope h
  | func_DB_error f => f recv fresh h
  | func_other _ _ => (h, Some (errors_New ("unsupported function " +:+ name)))
  end.

(** The dispatch on one receiver takes [w] to [w1]: nothing happens when
    the receiver has no method of the name; otherwise the body runs once
    (when it has one of the six shapes), and the Handle [p] of the Scope
    is left as the body left it, but for its error, which is the latched
    failure; the other stores are those the body left. *)
Definition hook_step (E : Env) (scope : ptr) (name : string) (p : ptr)
    (recv : Val) (w w1 : World) : Prop :=
  match MethodByName E (TypeOf recv) name with
  | None => w1 = w
  | Some fm =>
      let start := hook_start fm p w in
      let res := hook_result fm name recv scope start.1 (heap start.2) in
      let d := dbs res.1 !!! p in
      calls_of (trace w1)
      = (calls_of (trace w) ++ if recognized fm then [EvCall name recv] else [])%list ∧
      dbs (heap w1) !!! p = DB_with_Error (latched (Error d) res.2) d ∧
      (∀ q, q ≠ p → dbs (heap w1) !!! q = dbs res.1 !!! q) ∧
      searches (heap w1) = searches res.1 ∧
      scopes (heap w1) = scopes res.1 ∧
      fieldmaps (heap w1) = fieldmaps res.1
  end.

(** The receivers are dispatched on one after the other, each from the
    world the one before it left, whatever failure that one returned. *)
Fixpoint dispatched (E : Env) (scope : ptr) (name : string) (p : ptr)
    (recvs : list Val) (w w' : World) : Prop :=
  match recvs with
  | [] => w' = w
  | recv :: recvs' =>
      ∃ w1, hook_step E scope name p recv w w1 ∧
            dispatched E scope name p recvs' w1 w'
  end.

(** [new] on the Handle [p] took [w] to [wn] and gave [fresh]: a Handle
    that did not exist, with the fields of [p] and an accumulator of its
    own, new and empty; [p] has lost its accumulator reference, and
    nothing else has changed. *)
Definition derived (p fresh : ptr) (w wn : World) : Prop :=
  let d := dbs (heap w) !!! p in
  ∃ q, (fresh ∉ dom (dbs (heap w))) ∧ fresh ≠ p ∧
    dbs (heap wn) !!! fresh
    = mkDB (db d) (parent d) (logMode d) (Value d) (Error d) (values d)
           (Some q) false "" ∧
    (q ∉ dom (searches (heap w))) ∧
    searches (heap wn) !!! q = mkSearch (Some fresh) "" [] ∧
    dbs (heap wn) !!! p = DB_with_search None d ∧
    (∀ r, r ≠ fresh → r ≠ p → dbs (heap wn) !!! r = dbs (heap w) !!! r) ∧
    (∀ r, r ∈ dom (searches (heap w)) →
          searches (heap wn) !! r = searches (heap w) !! r) ∧
    scopes (heap wn) = scopes (heap w) ∧
    fieldmaps (heap wn) = fieldmaps (heap w) ∧
    trace wn = trace w.

(** The dispatch on one receiver takes [w] to [w1], and when the method
    of the receiver takes a fresh Handle, the dispatch is: [new] on the
    Scope's Handle [p], then the call of the body with the Handle that
    [new] gave, then [Err] on what the body returned. *)
Definition fresh_step (E : Env) (scope : ptr) (name : string) (p : ptr)
    (recv : Val) (w w1 : World) : Prop :=
  match MethodByName E (TypeOf recv) name ≫= fresh_Handle_body with
  | Some body =>
      ∃ fresh wn, DB_new p w = Ok (fresh, wn) ∧ derived p fresh w wn ∧
        (emit (EvCall name recv) ;;;
         err <- run_body (body recv fresh) ;;;
         Scope_Err E scope err ;;;
         ret tt) wn = Ok (tt, w1)
  | None => CallMethod_call E scope name (I recv) w = Ok (tt, w1)
  end.

Fixpoint fresh_dispatched (E : Env) (scope : ptr) (name : string) (p : ptr)
    (recvs : list Val) (w w' : World) : Prop :=
  match recvs with
  | [] => w' = w
  | recv :: recvs' =>
      ∃ w1, fresh_step E scope name p recv w w1 ∧
            fresh_dispatched E scope name p recvs' w1 w'
  end.

(** ** Table names *)

(** [strip_suffix suf s]: what comes before [suf] when [s] ends with
    it. *)
Fixpoint strip_suffix (suf s : string) : option string :=
  if String.eqb s suf then Some ""
  else match s with
       | EmptyString => None
       | String c s' => String c <$> strip_suffix suf s'
       end.

Fixpoint last_char (s : string) : option ascii :=
  match s with
  | EmptyString => None
  | String c EmptyString => Some c
  | String _ s' => last_char s'
  end.

(** The ordered suffix rules, as the specification lists them. *)
Definition plural_suffix_rules : list (string * string) :=
  [("ch", "ches"); ("ss", "sses"); ("sh", "shes"); ("day", "days");
   ("y", "ies"); ("x", "xes")].

Fixpoint first_suffix_rule (rules : list (string * string)) (str : string)
  : option string :=
  match rules with
  | [] => None
  | (suf, rep) :: rules' =>
      match strip_suffix suf str with
      | Some stem => Some (stem +:+ rep)
      | None => first_suffix_rule rules' str
      end
  end.

(** Pluralization in the specification's words: the first suffix rule
    that matches, else append [s]. *)
Definition plural_as_specified (str : string) : string :=
  default (str +:+ "s") (first_suffix_rule plural_suffix_rules str).

(** The last rule of the code: a name that ends in a character other than
    [s] gets an [s], any other name stays as it is. *)
Definition plural_default (str : string) : string :=
  match last_char str with
  | Some c => if Ascii.eqb c "s" then str else str +:+ "s"
  | None => str
  end.

Definition plural_word (str : string) : string :=
  default (plural_default str) (first_suffix_rule plural_suffix_rules str).

(** The value of the loop over [pluralMapKeys] in [TableName]. *)
Definition pluralize (str : string) : string :=
  default str (plural_from 0 pluralMapKeys str).

Definition default_key : regexp := [RxGroupNot "s"%char; RxOpt "s"%char; RxEnd].
Definition default_value : template := [TplGroup1; TplLit "s"].

(** The override of the table name on the Scope's accumulator. *)
Definition TableName_override (h : Heap) (sc : Scope) : string :=
  match Search sc with
  | Some q => TableName (searches h !!! q)
  | None => ""
  end.

(** The value whose type names the table: the target, or a new element
    of a collection target. *)
Definition TableName_data (sc : Scope) : reflect_Value :=
  let data := Scope_indirect sc in
  if Kind_is_Slice (Value_Kind data) then
    match data with
    | RV v _ =>
        let elem := Type_Elem (TypeOf v) in
        reflect_New_Elem (if Kind_is_Ptr (Type_Kind elem) then Type_Elem elem
                          else elem)
    | RInvalid => RInvalid
    end
  else data.

Definition singular_tables (h : Heap) (sc : Scope) : bool :=
  match scope_db sc with
  | Some p => singularTable (dbs h !!! parent (dbs h !!! p))
  | None => false
  end.

(** ** Field.Set *)

(** The value [Set] works with: a boxed [reflect.Value] is unboxed, and
    the zero [reflect.Value] holds nothing. *)
Definition supplied_value (value : iface) : option iface :=
  match value with
  | IReflect RInvalid => None
  | IReflect (RV v _) => Some (I v)
  | _ => Some value
  end.

(** ** Field discovery *)

(** How deep struct values are nested in a value. *)
Fixpoint depth (v : Val) : nat :=
  match v with
  | VStruct _ fs =>
      S ((fix depths (l : list Val) : nat :=
            match l with
            | [] => O
            | x :: l' => Nat.max (depth x) (depths l')
            end) fs)
  | _ => O
  end.

Definition Value_depth (rv : reflect_Value) : nat :=
  match rv with
  | RV v _ => depth v
  | RInvalid => O
  end.

(** Fuel that is enough for [Fields] on a target. *)
Definition Fields_fuel (rv : reflect_Value) (withRelation : bool) : nat :=
  2 * Value_depth rv + (if withRelation then 2 else 1).

(** A Scope without its caches of the target and of the field map. *)
Definition Scope_erase (sc : Scope) : Scope :=
  mkScope (scope_Value sc) (Some (Scope_indirect sc)) (Search sc) (Sql sc)
          (SqlVars sc) (scope_db sc) (skipLeft sc) (primaryKeyField sc)
          (instanceId sc) None.

(** What field discovery leaves alone between [w] and [w']: the Handles,
    the trace, every accumulator, Scope and field map that existed in
    [w]; of the Scopes it may fill the cache of the target, and the field
    map cache of [ex] only. *)
Definition discovery_frame (ex : option ptr) (w w' : World) : Prop :=
  dbs (heap w') = dbs (heap w) ∧ trace w' = trace w ∧
  (∀ q, q ∈ dom (searches (heap w)) →
        searches (heap w') !! q = searches (heap w) !! q) ∧
  (∀ q, q ∈ dom (scopes (heap w)) →
        q ∈ dom (scopes (heap w')) ∧
        Scope_erase (scopes (heap w') !!! q) = Scope_erase (scopes (heap w) !!! q) ∧
        (ex ≠ Some q →
         fields (scopes (heap w') !!! q) = fields (scopes (heap w) !!! q))) ∧
  (∀ c, c ∈ dom (fieldmaps (heap w)) →
        fieldmaps (heap w') !! c = fieldmaps (heap w) !! c).

(** [wp oof m w Q]: run from [w], [m] ends with a result and a world in
    [Q], or panics, or runs out of fuel and then [oof] holds. *)
Definition wp {A} (oof : Prop) (m : M A) (w : World) (Q : A → World → Prop) : Prop :=
  match m w with
  | Ok (a, w') => Q a w'
  | Panic _ => True
  | OutOfFuel => oof
  end.

(** What [Fields] guarantees when it returns [m]. *)
Definition Fields_post (scope : ptr) (nr : list bool) (w : World) (m : ptr) (w' : World)
  : Prop :=
  discovery_frame (if Fields_withRelation nr then Some scope else None) w w' ∧
  (Fields_withRelation nr = true → fields (scopes (heap w') !!! scope) = Some m) ∧
  (Fields_withRelation nr = false ∨ fields (scopes (heap w) !!! scope) = None →
   m ∉ dom (fieldmaps (heap w))) ∧
  (Fields_withRelation nr = true →
   ∀ c, fields (scopes (heap w) !!! scope) = Some c → m = c ∧ w' = w).

Definition Fields_ok (fuel : nat) (Fields_rec : ptr → list bool → M ptr) : Prop :=
  ∀ s nr w, s ∈ dom (scopes (heap w)) →
    wp (fuel < Fields_fuel (Scope_indirect (scopes (heap w) !!! s))
                           (Fields_withRelation nr))%nat
       (Fields_rec s nr) w (Fields_post s nr w).

(** The target of the discovery [PrimaryKeyField] runs: the target of the
    Scope, or a zero element of a collection target. *)
Definition PrimaryKeyField_target (sc : Scope) : reflect_Value :=
  match Scope_indirect sc with
  | RV v a =>
      if Kind_is_Slice (Type_Kind (TypeOf v))
      then reflect_Indirect (reflect_ValueOf (I (zero (Type_Elem (TypeOf v)))))
      else RV v a
  | RInvalid => RInvalid
  end.

Definition PrimaryKeyField_fuel (sc : Scope) : nat :=
  Fields_fuel (PrimaryKeyField_target sc) true.

(** The first field of a struct type that is tagged primary key, in the
    order of the declaration. *)
Definition first_declared_primary_key (E : Env) (t : Typ) : option string :=
  sf_Name <$>
    find (fun f => bool_decide
                     (is_Some (parseTagSetting E (Tag_Get (sf_Tag f) "gorm")
                               !! "PRIMARY_KEY")))
         (Type_fields t).

(** *** The columns of a struct *)

(** The column of a declared field: the [COLUMN] setting of its [gorm]
    tag, or its name in snake case. *)
Definition column_of (E : Env) (sf : StructField) : string :=
  match parseTagSetting E (Tag_Get (sf_Tag sf) "gorm") !! "COLUMN" with
  | Some v => v
  | None => ToSnake E (sf_Name sf)
  end.

(** A declared field that [Fields] enters under its own column: it is
    exported, and it is not embedded (an embedded struct gives the columns
    of its own fields instead). *)
Definition own_column (E : Env) (sf : StructField) : bool :=
  IsExported E (sf_Name sf)
  && negb (bool_decide (is_Some (parseTagSetting E (Tag_Get (sf_Tag sf) "gorm")
                                 !! "EMBEDDED"))
           || sf_Anonymous sf).

(** The map at [m] has the column [key]. *)
Definition has_column (m : ptr) (key : string) (w : World) : Prop :=
  is_Some (default ∅ (fieldmaps (heap w) !! m) !! key).

(** *** Independence of the cache *)

(** The world in which the Scope [scope] has the reference [c] cached in
    [fields]. *)
Definition World_with_fields (scope : ptr) (c : option ptr) (w : World) : World :=
  let h := heap w in
  mkWorld (mkHeap (dbs h) (searches h)
             (<[scope := Scope_with_fields c (scopes h !!! scope)]> (scopes h))
             (fieldmaps h)) (trace w).

(** [cache_blind scope c m w Q]: run from [w] and from the world in which
    [scope] has [c] cached, [m] does the same: the same panic, or the
    same result, in worlds that differ in that cache only; and [Q] holds
    of the result. *)
Definition cache_blind {A} (scope : ptr) (c : option ptr) (m : M A) (w : World)
    (Q : A → World → Prop) : Prop :=
  match m w with
  | Ok (a, w') =>
      m (World_with_fields scope c w) = Ok (a, World_with_fields scope c w') ∧ Q a w'
  | Panic msg => m (World_with_fields scope c w) = Panic msg
  | OutOfFuel => m (World_with_fields scope c w) = OutOfFuel
  end.

Definition Fields_blind (scope : ptr) (c : option ptr)
    (Fields_rec : ptr → list bool → M ptr) : Prop :=
  ∀ s nr w, scope ∈ dom (scopes (heap w)) →
    s ≠ scope ∨ Fields_withRelation nr = false →
    cache_blind scope c (Fields_rec s nr) w
      (fun _ w' => scope ∈ dom (scopes (heap w'))).

(** * A program to run the model on

    An instance of the environment (the helpers in ASCII, a few hooks, one
    scanner type) and a world with a session Handle, a Handle cloned from
    it and Scopes over a few records. *)

Definition ex_is_upper (c : ascii) : bool :=
  let n := nat_of_ascii c in (65 <=? n)%nat && (n <=? 90)%nat.

Definition ex_lower (c : ascii) : ascii :=
  if ex_is_upper c then ascii_of_nat (nat_of_ascii c + 32) else c.

Definition ex_upper (c : ascii) : ascii :=
  let n := nat_of_ascii c in
  if (97 <=? n)%nat && (n <=? 122)%nat then ascii_of_nat (n - 32) else c.

Fixpoint ex_str_upper (s : string) : string :=
  match s with
  | EmptyString => EmptyString
  | String c s' => String (ex_upper c) (ex_str_upper s')
  end.

Fixpoint ex_snake_tail (s : string) : string :=
  match s with
  | EmptyString => EmptyString
  | String c s' =>
      if ex_is_upper c then String "_" (String (ex_lower c) (ex_snake_tail s'))
      else String c (ex_snake_tail s')
  end.

(** An underscore before every capital but the first, then lower case. *)
Definition ex_ToSnake (s : string) : string :=
  match s with
  | EmptyString => EmptyString
  | String c s' => String (ex_lower c) (ex_snake_tail s')
  end.

Fixpoint ex_split (sep : ascii) (s : string) : list string :=
  match s with
  | EmptyString => [EmptyString]
  | String c s' =>
      if Ascii.eqb c sep then EmptyString :: ex_split sep s'
      else match ex_split sep s' with
           | x :: r => String c x :: r
           | [] => [String c EmptyString]
           end
  end.

Definition ex_capitalize (s : string) : string :=
  match s with
  | EmptyString => EmptyString
  | String c s' => String (ex_upper c) s'
  end.

Definition ex_SnakeToUpperCamel (s : string) : string :=
  fold_right (fun part acc => ex_capitalize part +:+ acc) "" (ex_split "_" s).

(** [KEY:value] settings separated by [;], the keys in upper case. *)
Definition ex_parseTagSetting (s : string) : gmap string string :=
  fold_left
    (fun (m : gmap string string) part =>
       match ex_split ":" part with
       | [k; v] => <[ex_str_upper k := v]> m
       | k :: _ => <[ex_str_upper k := ex_str_upper k]> m
       | [] => m
       end)
    (ex_split ";" s) ∅.

Definition ex_IsExported (s : string) : bool :=
  match s with
  | String c _ => ex_is_upper c
  | EmptyString => false
  end.

Definition ex_isBlank (rv : reflect_Value) : bool :=
  match rv with
  | RV (VBasic _ (BInt z)) _ => (z =? 0)%Z
  | RV (VBasic _ (BString s)) _ => String.eqb s ""
  | RV (VBasic _ (BBool b)) _ => negb b
  | RV (VNilPtr _) _ => true
  | RV (VSlice _ []) _ => true
  | _ => false
  end.

Definition int_T : Typ := TBasic KInt "int64".

Definition NullInt64_T : Typ :=
  TStruct "NullInt64"
    [mkStructField "Int64" int_T [] false; mkStructField "Valid" bool_T [] false].

(** [Scan] of [*NullInt64]: an integer is stored, anything else is an
    error. *)
Definition ex_Scan (cur : Val) (arg : iface) : Val * option error :=
  match arg with
  | I (VBasic _ (BInt z)) =>
      (VStruct NullInt64_T [VBasic int_T (BInt z); VBasic bool_T (BBool true)],
       None)
  | _ => (cur, Some (ErrorString "converting driver.Value type to a int64"))
  end.

Definition ex_Scanner (t : Typ) : option (Val → iface → Val * option error) :=
  if String.eqb (Type_Name t) "NullInt64" then Some ex_Scan else None.

(** Every type has the hooks [BeforeSave] (it reports a failure),
    [AfterFind] (it takes a fresh Handle) and [Validate] (of a shape that
    is not a hook's). *)
Definition ex_MethodByName (t : Typ) (name : string) : option method :=
  if String.eqb name "BeforeSave" then
    Some (func_unit_error (fun _ h => (h, Some (ErrorString "invalid record"))))
  else if String.eqb name "AfterFind" then
    Some (func_DB (fun _ _ h => h))
  else if String.eqb name "Validate" then
    Some (func_other 2 (fun _ h => (h, [])))
  else None.

Definition ex_Env (range : gmap string Field → list (string * Field)) : Env :=
  mkEnv ex_ToSnake ex_SnakeToUpperCamel ex_parseTagSetting ex_IsExported
        ex_isBlank "scope.go:1"
        (fun t => String.eqb (Type_Name t) "Time")
        ex_Scanner ex_MethodByName
        (fun _ _ => false) (fun v _ => v)
        range
        (fun _ _ => Some 7%nat)
        (fun _ => "c000010000").

(** The two orders of [range] used below. *)
Definition range_forth (m : gmap string Field) : list (string * Field) :=
  map_to_list m.
Definition range_back (m : gmap string Field) : list (string * Field) :=
  reverse (map_to_list m).

Definition exE : Env := ex_Env range_forth.

Definition User_T : Typ :=
  TStruct "User"
    [mkStructField "Id" int_T [("gorm", "primary_key")] false;
     mkStructField "Name" string_T [] false;
     mkStructField "Age" int_T [] false].

Definition Pair_T : Typ :=
  TStruct "Pair"
    [mkStructField "A" int_T [("gorm", "primary_key")] false;
     mkStructField "B" int_T [("gorm", "primary_key")] false].

Definition Bus_T : Typ :=
  TStruct "Bus" [mkStructField "Id" int_T [] false].

Definition ex_user (id : Z) (name : string) : Val :=
  VStruct User_T [VBasic int_T (BInt id); VBasic string_T (BString name);
                  VBasic int_T (BInt 30)].

Definition ex_users : list Val := [ex_user 1 "ann"; ex_user 2 "bob"].

Definition Users_T : Typ := TSlice "" User_T.

Definition ex_session : DB :=
  mkDB (SqlDB 1) 0 0 Nil None ∅ None false "sql".

Definition ex_handle : DB :=
  mkDB (SqlDB 1) 0 0 Nil None ∅ (Some 0%nat) false "".

Definition ex_scope (value : iface) : Scope :=
  mkScope value None (Some 0%nat) "" [] (Some 1%nat) false None "" None.

Definition ex_world : World :=
  mkWorld
    (mkHeap (<[1%nat := ex_handle]> {[0%nat := ex_session]})
            {[0%nat := mkSearch (Some 1%nat) "" ["name = ?"]]}
            (<[3%nat := ex_scope (I (VPtr (zero Bus_T)))]>
               (<[2%nat := ex_scope (I (VPtr (zero Pair_T)))]>
                  (<[1%nat := ex_scope (I (VPtr (VSlice Users_T ex_users)))]>
                     {[0%nat := ex_scope (I (VPtr (ex_user 1 "ann")))]})))
            ∅)
    [].

(** The example world after the Scope 2 has computed its instance id. *)
Definition ex_world_ids : World :=
  let h := heap ex_world in
  mkWorld
    (mkHeap (dbs h) (searches h)
            (<[2%nat := Scope_with_instanceId "0xc000010020" (scopes h !!! 2%nat)]>
               (scopes h))
            (fieldmaps h))
    [].

Definition ex_scan_error : error :=
  ErrorString "sql: Scan error on column index 2: converting string to int".

Definition ex_null_field : Field :=
  mkField "Score" "score" (RV (zero NullInt64_T) true) [] None true true false
          false Nil.

(** * More of [Scope]

    The functions of [Scope] that build on the ones above: the quoting and
    numbering of the dialect, [Raw], and the readers of the primary key
    and of a field by name. *)

(** ** [strings]

    [Replace] (with [n = -1]) and [Split], for a separator that is not
    empty, as the source calls them; [skip] counts the characters of a
    match that are still to pass. *)

Fixpoint Replace_from (skip : nat) (s old new : string) : string :=
  match s with
  | EmptyString => ""
  | String c s' =>
      match skip with
      | S k => Replace_from k s' old new
      | O =>
          if String.prefix old s
          then new +:+ Replace_from (String.length old - 1) s' old new
          else String c (Replace_from 0 s' old new)
      end
  end.

(** [strings.Replace(s, old, new, -1)] *)
Definition strings_Replace (s old new : string) : string :=
  Replace_from 0 s old new.

(** The first piece and the pieces after it. *)
Fixpoint Split_from (skip : nat) (s sep : string) : string * list string :=
  match s with
  | EmptyString => ("", [])
  | String c s' =>
      match skip with
      | S k => Split_from k s' sep
      | O =>
          if String.prefix sep s
          then let '(p, ps) := Split_from (String.length sep - 1) s' sep in
               ("", p :: ps)
          else let '(p, ps) := Split_from 0 s' sep in (String c p, ps)
      end
  end.

(** [strings.Split(s, sep)] *)
Definition strings_Split (s sep : string) : list string :=
  let '(p, ps) := Split_from 0 s sep in p :: ps.

(** [strings.Join(a, sep)] *)
Definition strings_Join (a : list string) (sep : string) : string :=
  String.concat sep a.

(** [strings.Contains(s, substr)] *)
Fixpoint strings_Contains (s substr : string) : bool :=
  String.prefix substr s
  || match s with
     | EmptyString => false
     | String _ s' => strings_Contains s' substr
     end.

(** ** The dialect

    The interface [Dialect] is declared in another file; [Scope] calls
    its methods [Quote] and [BinVar]. *)
Record Dialect := mkDialect {
  Quote : string → string;
  BinVar : nat → string;
}.

Definition Scope_with_Sql (sql : string) (s : Scope) : Scope :=
  mkScope (scope_Value s) (indirectValue s) (Search s) sql (SqlVars s)
          (scope_db s) (skipLeft s) (primaryKeyField s) (instanceId s)
          (fields s).
Definition Scope_with_SqlVars (vars : list iface) (s : Scope) : Scope :=
  mkScope (scope_Value s) (indirectValue s) (Search s) (Sql s) vars
          (scope_db s) (skipLeft s) (primaryKeyField s) (instanceId s)
          (fields s).

(** [for i, v := range l { l[i] = f(v) }] *)
Fixpoint map_M {A B} (f : A → M B) (l : list A) : M (list B) :=
  match l with
  | [] => ret []
  | x :: l' => y <- f x ;;; ys <- map_M f l' ;;; ret (y :: ys)
  end.

(** Every entry of a map of fields is under the column name of its
    field. *)
Definition keyed_by_DBName (mm : gmap string Field) : Prop :=
  ∀ k f, mm !! k = Some f → DBName f = k.

(** The map [m] that [Fields] is filling for the Scope [s]: it is
    allocated, and keyed by column name. *)
Definition filling (s m : ptr) (w : World) : Prop :=
  s ∈ dom (scopes (heap w)) ∧ m ∈ dom (fieldmaps (heap w)) ∧
  keyed_by_DBName (default ∅ (fieldmaps (heap w) !! m)).

(** The text of [\n]. *)
Definition newline : string := String (ascii_of_nat 10) "".

(** The untyped constant [0] in an [interface{}]. *)
Definition int_0 : iface := I (VBasic (TBasic KInt "int") (BInt 0)).

Section Scope_more.

Context (E : Env).

(** The field [dialect] of the Handle at an address; it is assigned when
    the session is opened. *)
Context (dialect : ptr → Dialect).

(** [NeedPtr]; with the scope it returns here the format it hands to
    [fmt.Printf], if any. *)
Definition Scope_NeedPtr (scope : ptr) : M (ptr * option string) :=
  sc <- load_Scope scope ;;;
  match Value_Kind (reflect_ValueOf (scope_Value sc)) with
  | Invalid | Ptr => ret (scope, None)
  | _ =>
      let err := errors_New (fileWithLineNum E +:+ " "
                             +:+ "using unaddressable value" +:+ newline) in
      Scope_Err E scope (Some err) ;;;
      ret (scope, Some (error_Error err))
  end.

(** [scope.db.parent.dialect] *)
Definition Scope_Dialect (scope : ptr) : M Dialect :=
  p <- Scope_handle scope ;;;
  d <- load_DB p ;;;
  ret (dialect (parent d)).

Definition Scope_Quote (scope : ptr) (str : string) : M string :=
  dl <- Scope_Dialect scope ;;;
  ret (Quote dl str).

Definition Scope_AddToVars (scope : ptr) (value : iface) : M string :=
  sc <- load_Scope scope ;;;
  store_Scope scope (Scope_with_SqlVars (SqlVars sc ++ [value]) sc) ;;;
  dl <- Scope_Dialect scope ;;;
  sc' <- load_Scope scope ;;;
  ret (BinVar dl (length (SqlVars sc'))).

Definition Scope_QuotedTableName (scope : ptr) : M string :=
  sc <- load_Scope scope ;;;
  override <- match Search sc with
              | Some q => sr <- load_search q ;;; ret (TableName sr)
              | None => ret ""
              end ;;;
  if (0 <? String.length override)%nat then ret override
  else
    name <- Scope_TableName E scope ;;;
    keys <- map_M (Scope_Quote scope) (strings_Split name ".") ;;;
    ret (strings_Join keys ".").

Definition Scope_Raw (scope : ptr) (sql : string) : M ptr :=
  sc <- load_Scope scope ;;;
  store_Scope scope (Scope_with_Sql (strings_Replace sql "$$" "?") sc) ;;;
  ret scope.

Definition Scope_PrimaryKey (fuel : nat) (scope : ptr) : M string :=
  field <- Scope_PrimaryKeyField E fuel scope ;;;
  match field with
  | Some field => ret (DBName field)
  | None => ret ""
  end.

Definition Scope_PrimaryKeyValue (fuel : nat) (scope : ptr) : M iface :=
  field <- Scope_PrimaryKeyField E fuel scope ;;;
  match field with
  | Some field => Value_Interface (field_Field field)
  | None => ret int_0
  end.

Definition Scope_PrimaryKeyZero (fuel : nat) (scope : ptr) : M bool :=
  value <- Scope_PrimaryKeyValue fuel scope ;;;
  ret (isBlank E (reflect_ValueOf value)).

(** The first entry that [range] yields with the name. *)
Definition first_named (name : string) (l : list (string * Field))
  : option Field :=
  snd <$> find (fun kv => String.eqb (Name (snd kv)) name) l.

Definition Scope_FieldByName (fuel : nat) (scope : ptr) (name : string)
  : M (option Field) :=
  m <- Scope_Fields E fuel scope [] ;;;
  mm <- load_fieldmap m ;;;
  ret (first_named name (map_range E mm)).

End Scope_more.

(** ** More of the example program *)

(** A dialect that quotes with backticks and numbers its variables. *)
Definition ex_dialect (p : ptr) : Dialect :=
  mkDialect (fun s => "`" +:+ s +:+ "`")
            (fun n => "$" +:+ String (ascii_of_nat (48 + n)) "").

(** The example program when the type has the method [TableName] [fm]. *)
Definition ex_Env_TableName (fm : method) : Env :=
  mkEnv (ToSnake exE) (SnakeToUpperCamel exE) (parseTagSetting exE)
        (IsExported exE) (isBlank exE) (fileWithLineNum exE) (isTime exE)
        (Scanner exE)
        (fun t name => if String.eqb name "TableName" then Some fm
                       else MethodByName exE t name)
        (ConvertibleTo exE) (Convert exE) (map_range exE) (sql_Begin exE)
        (var_addr exE).

(** The environment in which every type has the hook [AfterFind] of the
    example and a hook [BeforeSave] that fails as a driver does on a
    column it cannot convert. *)
Definition ex_Env_scan_failure : Env :=
  mkEnv (ToSnake exE) (SnakeToUpperCamel exE) (parseTagSetting exE)
        (IsExported exE) (isBlank exE) (fileWithLineNum exE) (isTime exE)
        (Scanner exE)
        (fun t name =>
           if String.eqb name "BeforeSave"
           then Some (func_unit_error (fun _ h => (h, Some ex_scan_error)))
           else MethodByName exE t name)
        (ConvertibleTo exE) (Convert exE) (map_range exE) (sql_Begin exE)
        (var_addr exE).

(** A second session (Handle 2) with singular table names and its clone
    (Handle 3), whose accumulator (1) names the table [people]; a Handle
    (4) inside a transaction.  The Scope 4 is on the Handle 4, the Scope 5
    has no target, the Scope 6 has the accumulator 1, the Scope 7, over a
    [Bus], is on the Handle 3, and the target of the Scope 8 is a [User],
    not a pointer to one. *)
Definition ex_world_more : World :=
  let h := heap ex_world in
  mkWorld
    (mkHeap
       (<[4%nat := mkDB (SqlTx 9) 0 0 Nil None ∅ None false ""]>
          (<[3%nat := mkDB (SqlDB 1) 2 0 Nil None ∅ (Some 1%nat) false ""]>
             (<[2%nat := mkDB (SqlDB 1) 2 0 Nil None ∅ None true "sql"]>
                (dbs h))))
       (<[1%nat := mkSearch (Some 3%nat) "people" []]> (searches h))
       (<[8%nat := mkScope (I (ex_user 3 "cy")) None (Some 0%nat) "" []
                           (Some 1%nat) false None "" None]>
       (<[7%nat := mkScope (I (VPtr (zero Bus_T))) None (Some 0%nat) "" []
                           (Some 3%nat) false None "" None]>
          (<[6%nat := mkScope (I (VPtr (ex_user 1 "ann"))) None (Some 1%nat) "" []
                              (Some 3%nat) false None "" None]>
             (<[5%nat := mkScope Nil None (Some 0%nat) "" [] (Some 1%nat) false
                                 None "" None]>
                (<[4%nat := mkScope (I (VPtr (ex_user 1 "ann"))) None (Some 0%nat)
                                    "" [] (Some 4%nat) false None "" None]>
                   (scopes h))))))
       (fieldmaps h))
    [].

(** An addressable field of a type that is no scanner. *)
Definition ex_age_field : Field :=
  mkField "Age" "age" (RV (VBasic int_T (BInt 30)) true) [] None true false
          false false Nil.

(** * Proofs *)

(** ** The monad *)

Lemma bind_Ok {A B} (m : M A) (k : A → M B) w a w' :
  m w = Ok (a, w') → bind m k w = k a w'.
Proof. unfold bind. by intros ->. Qed.

Lemma bind_ret_unit (m : M unit) w : (m ;;; ret tt) w = m w.
Proof. unfold bind, ret. by destruct (m w) as [[[] w']| |]. Qed.

Lemma wp_ret {A} oof (a : A) w Q : Q a w → wp oof (ret a) w Q.
Proof. done. Qed.

Lemma wp_bind {A B} oof (m : M A) (k : A → M B) w Q :
  wp oof m w (fun a w' => wp oof (k a) w' Q) → wp oof (bind m k) w Q.
Proof. unfold wp, bind. by destruct (m w) as [[a w']| |]. Qed.

Lemma wp_mono {A} (oof oof' : Prop) (m : M A) w (Q Q' : A → World → Prop) :
  wp oof m w Q → (oof → oof') → (∀ a w', Q a w' → Q' a w') → wp oof' m w Q'.
Proof. unfold wp. destruct (m w) as [[a w']| |]; auto. Qed.

Lemma wp_panic {A} oof msg w (Q : A → World → Prop) : wp oof (panic msg) w Q.
Proof. done. Qed.

Lemma wp_lift {A} oof (o : outcome A) w (Q : A → World → Prop) :
  (∀ a, o = Ok a → Q a w) → o ≠ OutOfFuel → wp oof (lift o) w Q.
Proof. unfold wp, lift. destruct o; auto. done. Qed.

Lemma wp_Ok {A} oof (m : M A) w Q a w' : m w = Ok (a, w') → Q a w' → wp oof m w Q.
Proof. unfold wp. by intros ->. Qed.

Lemma wp_inv_Ok {A} oof (m : M A) w Q a w' : wp oof m w Q → m w = Ok (a, w') → Q a w'.
Proof. unfold wp. intros H Heq. by rewrite Heq in H. Qed.

Lemma wp_load_Scope oof p w Q : Q (scopes (heap w) !!! p) w → wp oof (load_Scope p) w Q.
Proof. done. Qed.

Lemma wp_load_DB oof p w Q : Q (dbs (heap w) !!! p) w → wp oof (load_DB p) w Q.
Proof. done. Qed.

Lemma wp_load_fieldmap oof p w Q :
  Q (default ∅ (fieldmaps (heap w) !! p)) w → wp oof (load_fieldmap p) w Q.
Proof. done. Qed.

Lemma wp_store_Scope oof p sc w Q :
  Q tt (mkWorld (mkHeap (dbs (heap w)) (searches (heap w))
                        (<[p := sc]> (scopes (heap w))) (fieldmaps (heap w)))
                (trace w)) →
  wp oof (store_Scope p sc) w Q.
Proof. done. Qed.

Lemma wp_fold_M {A B} oof (body : B → A → M B) (Inv : World → Prop) l : ∀ acc w,
  Inv w →
  (∀ acc x w1, Inv w1 → wp oof (body acc x) w1 (fun _ w2 => Inv w2)) →
  wp oof (fold_M body acc l) w (fun _ w' => Inv w').
Proof.
  induction l as [|x l IH]; intros acc w HI Hbody; cbn [fold_M].
  - by apply wp_ret.
  - apply wp_bind. eapply wp_mono; [by apply Hbody|done|].
    intros acc' w1 HI1. cbn beta. by apply IH.
Qed.


(** ** Strings and regular expressions *)

Lemma append_nil_l s : "" +:+ s = s.
Proof. reflexivity. Qed.

Lemma append_cons c s t : String c s +:+ t = String c (s +:+ t).
Proof. reflexivity. Qed.

Lemma append_empty_r s : s +:+ "" = s.
Proof. induction s as [|c s IH]; [done|]. by rewrite append_cons, IH. Qed.

Lemma find_from_Begin re s : find_from (RxBegin :: re) false s = None.
Proof. induction s as [|c s IH]; simpl; [done|]. by rewrite IH. Qed.

Lemma match_here_lit lit : forall b s,
  match_here (rx_lit lit) b s = if String.prefix lit s then Some (String.length lit, "") else None.
Proof.
  induction lit as [|c lit IH]; intros b s; simpl.
  - by destruct s.
  - destruct s as [|c' s]; simpl; [done|].
    destruct (Ascii.eqb_spec c c') as [->|Hne].
    + rewrite IH. destruct (ascii_dec c' c'); [|congruence]. destruct (String.prefix lit s); reflexivity.
    + destruct (ascii_dec c c'); [congruence|]. done.
Qed.

(** A pattern [^lit] matches the strings that start with [lit]. *)
Lemma MatchString_Begin_lit lit s :
  MatchString (RxBegin :: rx_lit lit) s = String.prefix lit s.
Proof.
  unfold MatchString.
  assert (Hm : match_here (RxBegin :: rx_lit lit) true s
               = if String.prefix lit s then Some (String.length lit, "") else None)
    by apply (match_here_lit lit true s).
  destruct s as [|c s]; cbn [find_from]; rewrite Hm.
  - by destruct (String.prefix lit "").
  - destruct (String.prefix lit (String c s)); [done|].
    by rewrite find_from_Begin.
Qed.

Lemma scanErrorRegexp_prefix s :
  MatchString scanErrorRegexp s = String.prefix scan_error_text s.
Proof. apply MatchString_Begin_lit. Qed.

Lemma match_here_suffix lit : ∀ b s,
  match_here (rx_lit lit ++ [RxEnd])%list b s
  = if String.eqb s lit then Some (String.length lit, "") else None.
Proof.
  induction lit as [|c lit IH]; intros b s; cbn.
  - by destruct s.
  - destruct s as [|c' s]; cbn; [done|].
    rewrite Ascii.eqb_sym.
    destruct (Ascii.eqb c' c); [|done].
    fold (rx_lit lit). rewrite IH. by destruct (String.eqb s lit).
Qed.

Lemma find_from_suffix lit : ∀ b s,
  find_from (rx_lit lit ++ [RxEnd])%list b s
  = (fun stem => (String.length stem, (String.length lit, ""))) <$> strip_suffix lit s.
Proof.
  intros b s. revert b. induction s as [|c s IH]; intros b.
  - cbn [find_from strip_suffix]. rewrite match_here_suffix.
    by destruct (String.eqb "" lit).
  - cbn [find_from strip_suffix]. rewrite match_here_suffix.
    destruct (String.eqb (String c s) lit); [done|].
    rewrite IH. by destruct (strip_suffix lit s).
Qed.

Lemma strip_suffix_app lit : ∀ s stem, strip_suffix lit s = Some stem → s = stem +:+ lit.
Proof.
  induction s as [|c s IH]; intros stem; cbn [strip_suffix].
  - destruct (String.eqb_spec "" lit) as [<-|]; [|done]. by intros [= <-].
  - destruct (String.eqb_spec (String c s) lit) as [<-|]; [by intros [= <-]|].
    destruct (strip_suffix lit s) as [st|]; [|done].
    intros [= <-]. rewrite append_cons. f_equal. by apply IH.
Qed.

Lemma str_take_app stem rest : str_take (String.length stem) (stem +:+ rest) = stem.
Proof.
  unfold str_take. induction stem as [|c stem IH].
  - by destruct rest.
  - rewrite append_cons. cbn. by rewrite IH.
Qed.

Lemma str_drop_app stem rest : str_drop (String.length stem) (stem +:+ rest) = rest.
Proof. induction stem as [|c stem IH]; [done|]. rewrite append_cons. apply IH. Qed.

Lemma str_drop_all s : str_drop (String.length s) s = "".
Proof. induction s as [|c s IH]; cbn; [done|]. apply IH. Qed.

Lemma str_drop_add n m s : str_drop (n + m) s = str_drop m (str_drop n s).
Proof.
  revert s. induction n as [|n IH]; intros s; cbn; [done|].
  destruct s; [by destruct m|]. apply IH.
Qed.

Lemma replace_all_empty fuel lit t b :
  lit ≠ "" → replace_all fuel (rx_lit lit ++ [RxEnd])%list t b "" = "".
Proof.
  intros Hlit. destruct fuel; cbn [replace_all]; [done|].
  rewrite find_from_suffix. cbn. destruct lit; done.
Qed.

(** A rule [lit$] of the table: it matches the strings that end with [lit],
    and puts the replacement in the place of [lit]. *)
Lemma suffix_rule lit rep s (k : option string) :
  lit ≠ "" →
  (if MatchString (rx_lit lit ++ [RxEnd])%list s
   then Some (ReplaceAllString (rx_lit lit ++ [RxEnd])%list s [TplLit rep])
   else k)
  = match strip_suffix lit s with
    | Some stem => Some (stem +:+ rep)
    | None => k
    end.
Proof.
  intros Hlit. unfold MatchString, ReplaceAllString. cbn [replace_all].
  rewrite find_from_suffix.
  destruct (strip_suffix lit s) as [stem|] eqn:Hs; cbn; [|done].
  f_equal. apply strip_suffix_app in Hs. subst s.
  rewrite str_take_app, str_drop_add, str_drop_app, str_drop_all.
  rewrite append_empty_r.
  destruct (String.length lit) eqn:Hl; [by destruct lit|].
  by rewrite replace_all_empty, append_empty_r.
Qed.

Lemma match_here_default b str :
  match_here default_key b str
  = match str with
    | String c EmptyString =>
        if Ascii.eqb "s" c then None else Some (1, String c "")
    | String c (String c2 EmptyString) =>
        if Ascii.eqb "s" c then None
        else if Ascii.eqb "s" c2 then Some (2, String c "") else None
    | _ => None
    end.
Proof.
  destruct str as [|c [|c2 [|c3 r]]]; cbn -[Ascii.eqb]; [done|..];
    destruct (Ascii.eqb "s" c); try done; destruct (Ascii.eqb "s" c2); done.
Qed.

Lemma replace_all_skip fuel re t b c s :
  match_here re b (String c s) = None →
  replace_all (S fuel) re t b (String c s)
  = String c (replace_all (S fuel) re t false s).
Proof.
  intros Hm. cbn [replace_all find_from]. rewrite Hm.
  destruct (find_from re false s) as [[k [n g]]|]; [|done].
  cbn [str_take substring str_drop Nat.add append]. f_equal.
Qed.

Lemma last_char_cons c c2 s :
  last_char (String c (String c2 s)) = last_char (String c2 s).
Proof. reflexivity. Qed.

Lemma last_char_is_Some c s : is_Some (last_char (String c s)).
Proof.
  revert c. induction s as [|c2 s IH]; intros c; [by eexists|].
  rewrite last_char_cons. apply IH.
Qed.

Lemma replace_all_default fuel : ∀ b str,
  replace_all (S fuel) default_key default_value b str = plural_default str.
Proof.
  intros b str. revert b. induction str as [|c s IH]; intros b; [done|].
  destruct (match_here default_key b (String c s)) as [[n g]|] eqn:Hm.
  - rewrite match_here_default in Hm. cbn [replace_all find_from].
    rewrite match_here_default.
    destruct s as [|c2 [|c3 r]]; [| |done].
    + destruct (Ascii.eqb_spec "s" c) as [<-|Hc]; [done|].
      unfold plural_default. cbn -[Ascii.eqb]. rewrite Ascii.eqb_sym.
      destruct (Ascii.eqb_spec "s"%char c); [done|]. by destruct fuel.
    + destruct (Ascii.eqb_spec "s" c) as [<-|Hc]; [done|].
      destruct (Ascii.eqb_spec "s" c2) as [<-|Hc2]; [|done].
      unfold plural_default. cbn -[Ascii.eqb]. by destruct fuel.
  - rewrite replace_all_skip by done. rewrite IH.
    rewrite match_here_default in Hm. unfold plural_default.
    destruct s as [|c2 s].
    + cbn -[Ascii.eqb] in Hm |- *. rewrite Ascii.eqb_sym.
      by destruct (Ascii.eqb "s" c).
    + rewrite last_char_cons. destruct (last_char_is_Some c2 s) as [l ->].
      by destruct (Ascii.eqb l "s").
Qed.

Lemma default_rule str :
  default str
    (if MatchString default_key str
     then Some (ReplaceAllString default_key str default_value) else None)
  = plural_default str.
Proof.
  unfold MatchString, ReplaceAllString.
  destruct (find_from default_key true str) as [m|] eqn:Hf; cbn [default].
  - apply replace_all_default.
  - rewrite <- (replace_all_default 0 true str). cbn [replace_all]. by rewrite Hf.
Qed.

(** The loop over [pluralMapKeys] computes [plural_word]. *)
Lemma pluralize_plural_word str : pluralize str = plural_word str.
Proof.
  unfold pluralize, plural_word, plural_suffix_rules, pluralMapKeys.
  cbn [plural_from first_suffix_rule].
  change (default [] (pluralMapValues !! 0%nat)) with [TplLit "ches"].
  change (default [] (pluralMapValues !! 1%nat)) with [TplLit "sses"].
  change (default [] (pluralMapValues !! 2%nat)) with [TplLit "shes"].
  change (default [] (pluralMapValues !! 3%nat)) with [TplLit "days"].
  change (default [] (pluralMapValues !! 4%nat)) with [TplLit "ies"].
  change (default [] (pluralMapValues !! 5%nat)) with [TplLit "xes"].
  change (default [] (pluralMapValues !! 6%nat)) with default_value.
  rewrite !suffix_rule by done.
  repeat (match goal with |- context [strip_suffix ?l str] =>
            destruct (strip_suffix l str); [done|] end).
  apply default_rule.
Qed.


Section Proofs.

Context (E : Env).

(** ** The Handle *)

Lemma calls_of_app l1 l2 : calls_of (l1 ++ l2) = (calls_of l1 ++ calls_of l2)%list.
Proof. apply List.filter_app. Qed.

(** What [err] returns and what it changes. *)
Lemma DB_err_frame s err w :
  ∃ w', DB_err E s err w
        = Ok (match err with
              | Some e => if negb (is_RecordNotFound e)
                             && String.prefix scan_error_text (error_Error e)
                          then None else err
              | None => None
              end, w') ∧
    Error (dbs (heap w') !!! s) = latched (Error (dbs (heap w) !!! s)) err ∧
    (∀ q, q ≠ s → dbs (heap w') !!! q = dbs (heap w) !!! q) ∧
    searches (heap w') = searches (heap w) ∧ scopes (heap w') = scopes (heap w) ∧
    fieldmaps (heap w') = fieldmaps (heap w) ∧
    calls_of (trace w') = calls_of (trace w).
Proof.
  unfold DB_err, latched.
  destruct err as [e|]; [|by eexists].
  destruct e as [|msg]; cbn [is_RecordNotFound negb andb].
  - unfold bind, load_DB, store_DB, ret. eexists. split; [reflexivity|]. cbn.
    rewrite lookup_total_insert_eq. repeat split; try done.
    intros q Hq. by rewrite lookup_total_insert_ne.
  - rewrite scanErrorRegexp_prefix. cbn [error_Error].
    unfold DB_log, go_DB_print, DB_print, bind, load_DB, store_DB, emit, ret.
    destruct (logMode (dbs (heap w) !!! s) =? 0)%Z;
      [|destruct (logMode (dbs (heap w) !!! s) =? 2)%Z];
      destruct (String.prefix scan_error_text msg); cbn;
      eexists; (split; [reflexivity|]); cbn;
      rewrite ?lookup_total_insert_eq, ?calls_of_app, ?app_nil_r;
      repeat split; try done;
      intros q Hq; by rewrite lookup_total_insert_ne.
Qed.

(** [new]: the receiver loses its accumulator reference, and the result is
    a new Handle with the fields of the receiver and a new, empty
    accumulator. *)
Lemma DB_new_spec s w :
  let d := dbs (heap w) !!! s in
  ∃ p q w', DB_new s w = Ok (p, w') ∧
    (p ∉ dom (dbs (heap w))) ∧ p ≠ s ∧ (q ∉ dom (searches (heap w))) ∧
    dbs (heap w') !!! p
      = mkDB (db d) (parent d) (logMode d) (Value d) (Error d) (values d)
             (Some q) false "" ∧
    dbs (heap w') !!! s = DB_with_search None d ∧
    (∀ r, r ≠ p → r ≠ s → dbs (heap w') !!! r = dbs (heap w) !!! r) ∧
    searches (heap w') !!! q = mkSearch (Some p) "" [] ∧
    (∀ r, r ≠ q → searches (heap w') !! r = searches (heap w) !! r) ∧
    scopes (heap w') = scopes (heap w) ∧
    fieldmaps (heap w') = fieldmaps (heap w) ∧
    trace w' = trace w.
Proof.
  intros d. unfold DB_new, DB_clone, new_DB, new_search, bind, load_DB, store_DB,
    load_search, store_search, ret. cbn.
  rewrite !lookup_total_insert_eq. cbn.
  set (p := fresh (dom (<[s:=DB_with_search None d]> (dbs (heap w))))).
  set (q := fresh (dom (searches (heap w)))).
  assert (Hp : p ∉ dom (<[s:=DB_with_search None d]> (dbs (heap w)))) by apply is_fresh.
  rewrite dom_insert_L in Hp.
  assert (Hq : q ∉ dom (searches (heap w))) by apply is_fresh.
  assert (Hps : p ≠ s) by set_solver.
  eexists p, q, _. split; [reflexivity|]. cbn.
  rewrite !lookup_total_insert_eq.
  repeat split; try done.
  - set_solver.
  - rewrite !lookup_total_insert_ne by done. by rewrite lookup_total_insert_eq.
  - intros r Hr1 Hr2. by rewrite !lookup_total_insert_ne.
  - intros r Hr. by rewrite !lookup_insert_ne.
Qed.


(** ** Scope *)

Lemma Scope_handle_Ok scope w p :
  scope_db (scopes (heap w) !!! scope) = Some p → Scope_handle scope w = Ok (p, w).
Proof. intros H. unfold Scope_handle, bind, load_Scope. by rewrite H. Qed.

Lemma Scope_InstanceId_cached scope w :
  instanceId (scopes (heap w) !!! scope) ≠ "" →
  Scope_InstanceId E scope w = Ok (instanceId (scopes (heap w) !!! scope), w).
Proof.
  intros Hne. unfold Scope_InstanceId, bind, load_Scope.
  destruct (String.eqb_spec (instanceId (scopes (heap w) !!! scope)) ""); [done|].
  reflexivity.
Qed.

Lemma Scope_InstanceId_spec scope w :
  ∃ id w', Scope_InstanceId E scope w = Ok (id, w') ∧ id ≠ "" ∧
    instanceId (scopes (heap w') !!! scope) = id ∧
    scope_db (scopes (heap w') !!! scope) = scope_db (scopes (heap w) !!! scope) ∧
    dbs (heap w') = dbs (heap w) ∧ trace w' = trace w.
Proof.
  destruct (String.eqb_spec (instanceId (scopes (heap w) !!! scope)) "") as [Hid|Hid].
  - unfold Scope_InstanceId, bind, load_Scope. rewrite Hid. cbn.
    eexists _, _. split; [reflexivity|]. cbn.
    rewrite lookup_total_insert_eq. done.
  - eexists _, _. split; [by apply Scope_InstanceId_cached|]. done.
Qed.

Lemma Scope_Err_frame scope p err w :
  scope_db (scopes (heap w) !!! scope) = Some p →
  ∃ w', Scope_Err E scope err w = Ok (err, w') ∧
    Error (dbs (heap w') !!! p) = latched (Error (dbs (heap w) !!! p)) err ∧
    (∀ q, q ≠ p → dbs (heap w') !!! q = dbs (heap w) !!! q) ∧
    searches (heap w') = searches (heap w) ∧ scopes (heap w') = scopes (heap w) ∧
    fieldmaps (heap w') = fieldmaps (heap w) ∧
    calls_of (trace w') = calls_of (trace w).
Proof.
  intros Hdb. unfold Scope_Err. destruct err as [e|]; [|by eexists].
  unfold Scope_handle, bind, load_Scope. rewrite Hdb. cbn -[DB_err].
  destruct (DB_err_frame p (Some e) w) as (w' & -> & H). by exists w'.
Qed.

Lemma Scope_IndirectValue_spec scope w :
  Scope_IndirectValue scope w
  = Ok (Scope_indirect (scopes (heap w) !!! scope), World_with_indirect scope w).
Proof.
  unfold Scope_IndirectValue, Scope_indirect, World_with_indirect, bind, load_Scope,
    store_Scope, ret.
  destruct (indirectValue (scopes (heap w) !!! scope)) eqn:Hc; cbn;
    unfold Scope_indirect; rewrite ?Hc; reflexivity.
Qed.

Lemma World_with_indirect_scope scope w :
  let sc := scopes (heap (World_with_indirect scope w)) !!! scope in
  let sc0 := scopes (heap w) !!! scope in
  scope_Value sc = scope_Value sc0 ∧ scope_db sc = scope_db sc0 ∧
  Search sc = Search sc0 ∧ fields sc = fields sc0 ∧
  primaryKeyField sc = primaryKeyField sc0 ∧
  indirectValue sc = Some (Scope_indirect sc0).
Proof.
  unfold World_with_indirect, Scope_indirect.
  destruct (indirectValue (scopes (heap w) !!! scope)) eqn:Hc; cbn.
  - by rewrite Hc.
  - by rewrite lookup_total_insert_eq.
Qed.

Lemma World_with_indirect_frame scope w :
  dbs (heap (World_with_indirect scope w)) = dbs (heap w) ∧
  searches (heap (World_with_indirect scope w)) = searches (heap w) ∧
  fieldmaps (heap (World_with_indirect scope w)) = fieldmaps (heap w) ∧
  trace (World_with_indirect scope w) = trace w.
Proof.
  unfold World_with_indirect.
  by destruct (indirectValue (scopes (heap w) !!! scope)).
Qed.


(** ** Transactions *)

(** [CommitOrRollback] on a Scope that has begun a transaction. *)
Lemma CommitOrRollback_started scope p tx w :
  started_transaction scope p tx w →
  ∃ w2, Scope_CommitOrRollback E scope w = Ok (scope, w2) ∧
    trace w2 = (trace w ++ [finish_event (Error (dbs (heap w) !!! p)) (SqlTx tx)])%list ∧
    db (dbs (heap w2) !!! p) = db (dbs (heap w) !!! parent (dbs (heap w) !!! p)).
Proof.
  intros (Hdb & Hid & [m Hm] & Hconn & Hpar).
  unfold Scope_CommitOrRollback, Scope_InstanceGet, bind.
  rewrite (Scope_InstanceId_cached _ _ Hid).
  unfold Scope_Get, Scope_DB, Scope_HasError, Scope_handle, DB_Get, bind,
    load_DB, load_Scope, store_DB, emit, ret.
  destruct (Error (dbs (heap w) !!! p)) as [e|] eqn:He;
    repeat first [rewrite Hdb | rewrite Hm | rewrite Hconn | rewrite He
                 | progress cbn ];
    (eexists; split; [reflexivity|]; cbn; split; [reflexivity|]);
    by rewrite lookup_total_insert_eq.
Qed.

(** A successful [Begin]. *)
Lemma Begin_starts scope w p tx :
  scope_db (scopes (heap w) !!! scope) = Some p →
  parent (dbs (heap w) !!! p) ≠ p →
  implements_sqlDb (db (dbs (heap w) !!! p)) = true →
  sql_Begin E (db (dbs (heap w) !!! p)) (trace w) = Some tx →
  ∃ w1, Scope_Begin E scope w = Ok (scope, w1) ∧
    started_transaction scope p tx w1 ∧
    values (dbs (heap w1) !!! p)
      !! ("gorm:started_transaction" +:+ instanceId (scopes (heap w1) !!! scope))
      = Some Go_true ∧
    trace w1 = (trace w ++ [EvBegin (db (dbs (heap w) !!! p))])%list ∧
    parent (dbs (heap w1) !!! p) = parent (dbs (heap w) !!! p) ∧
    ∀ q, q ≠ p → dbs (heap w1) !!! q = dbs (heap w) !!! q.
Proof.
  intros Hdb Hpar HisDb Hbegin.
  unfold Scope_Begin, Scope_DB, Scope_InstanceSet, Scope_handle, bind, load_DB,
    load_Scope, store_DB, get_trace, emit, ret.
  repeat first [rewrite Hdb | rewrite HisDb | rewrite Hbegin
               | progress cbn -[Scope_InstanceId]].
  match goal with |- context [Scope_InstanceId E scope ?w0] =>
    destruct (Scope_InstanceId_spec scope w0)
      as (id & wi & -> & Hid & Hsid & Hsdb & Hdbs & Htr)
  end.
  cbn in Hsdb, Hdbs, Htr. rewrite Hdb in Hsdb.
  unfold Scope_Set, Scope_handle, DB_InstantSet, bind, load_DB, load_Scope,
    store_DB, ret.
  repeat first [rewrite Hsdb | progress cbn].
  eexists. split; [reflexivity|]. unfold started_transaction. cbn.
  rewrite Hdbs, !lookup_total_insert_eq. cbn.
  rewrite Hsid, lookup_insert_eq, Hsdb, Htr.
  repeat split; try done.
  intros q Hq. by rewrite !lookup_total_insert_ne.
Qed.

(** ** Error latching *)

(** C2 (as amended).  Once an error [e1] is latched, [err] with a later
    error [e2] replaces it, unless [e2] is not the sentinel and starts
    with the scan-error text: the last such error wins, and only the
    errors of the benign pattern are dropped. *)
Theorem DB_err_last_error_wins s e1 e2 w :
  Error (dbs (heap w) !!! s) = Some e1 →
  ∃ r w', DB_err E s (Some e2) w = Ok (r, w') ∧
    Error (dbs (heap w') !!! s)
    = if negb (is_RecordNotFound e2)
         && String.prefix scan_error_text (error_Error e2)
      then Some e1 else Some e2.
Proof.
  intros He1.
  destruct (DB_err_frame s (Some e2) w) as (w' & Hrun & Herr & _).
  eexists _, w'. split; [exact Hrun|].
  rewrite Herr, He1. reflexivity.
Qed.

(** C5 (as amended).  For an error whose message matches
    [^sql: Scan error on column index], [err] stores nothing (the stores
    are as before, only the log grows) and returns nil, not the error;
    [Scope.Err], which wraps it, returns the error it was given. *)
Theorem DB_err_scan_error s e w :
  MatchString scanErrorRegexp (error_Error e) = true →
  ∃ w', DB_err E s (Some e) w = Ok (None, w') ∧ heap w' = heap w ∧
    ∀ scope, scope_db (scopes (heap w) !!! scope) = Some s →
      Scope_Err E scope (Some e) w = Ok (Some e, w').
Proof.
  rewrite scanErrorRegexp_prefix. intros Hm.
  assert (He : is_RecordNotFound e = false).
  { destruct e; [|done]. by vm_compute in Hm. }
  unfold Scope_Err, Scope_handle, DB_err. rewrite He. cbn [negb].
  rewrite scanErrorRegexp_prefix, Hm.
  unfold DB_log, go_DB_print, DB_print, bind, load_Scope, load_DB, store_DB, emit, ret.
  destruct (logMode (dbs (heap w) !!! s) =? 0)%Z eqn:H0;
    [|destruct (logMode (dbs (heap w) !!! s) =? 2)%Z eqn:H2];
    cbn; (eexists; split; [reflexivity|]); (split; [by destruct w|]);
    intros scope ->; cbn; rewrite ?H0, ?H2; cbn; by destruct w.
Qed.


(** ** Hook dispatch *)

(** The dispatch on one receiver: it ends, the Scope keeps its Handle, and
    the hook is called once if the receiver has it. *)
Lemma CallMethod_call_calls scope p name v w :
  keeps_handle E scope name →
  scope_db (scopes (heap w) !!! scope) = Some p →
  ∃ w', CallMethod_call E scope name (I v) w = Ok (tt, w') ∧
    scope_db (scopes (heap w') !!! scope) = Some p ∧
    calls_of (trace w') = (calls_of (trace w) ++ hook_calls E name [v])%list.
Proof.
  intros Hkeep Hdb. unfold CallMethod_call, hook_calls, has_hook.
  cbn [reflect_ValueOf List.filter map].
  destruct (MethodByName E (TypeOf v) name) as [fm|] eqn:Hfm;
    [|eexists; split; [reflexivity|]; by rewrite app_nil_r].
  assert (Hstep : ∀ r w0,
    scope_db (scopes (heap w0) !!! scope) = Some p →
    calls_of (trace w0) = (calls_of (trace w) ++ [EvCall name v])%list →
    ∃ w', (Scope_Err E scope r ;;; ret tt) w0 = Ok (tt, w') ∧
      scope_db (scopes (heap w') !!! scope) = Some p ∧
      calls_of (trace w') = (calls_of (trace w) ++ [EvCall name v])%list).
  { intros r w0 Hdb0 Htr0. unfold bind.
    destruct (Scope_Err_frame scope p r w0 Hdb0)
      as (w' & -> & _ & _ & _ & Hsc & _ & Htr).
    eexists. split; [reflexivity|]. cbn. by rewrite Hsc, Htr. }
  destruct fm; cbn [recognized app].
  - pose proof (Hkeep _ _ v scope (heap w) Hfm) as Hk. cbn in Hk.
    unfold bind, emit, run_body, ret. cbn. eexists. split; [reflexivity|]. cbn.
    rewrite Hk, calls_of_app. done.
  - pose proof (Hkeep _ _ v scope (heap w) Hfm) as Hk. cbn in Hk.
    unfold bind, emit, run_body, ret. cbn. eexists. split; [reflexivity|]. cbn.
    rewrite Hk, calls_of_app. done.
  - unfold bind. rewrite (Scope_handle_Ok _ _ _ Hdb).
    destruct (DB_new_spec p w)
      as (p' & q & wn & -> & _ & _ & _ & _ & _ & _ & _ & _ & Hsc & _ & Htr).
    pose proof (Hkeep _ _ v p' (heap wn) Hfm) as Hk. cbn in Hk.
    unfold emit, run_body, ret. cbn. eexists. split; [reflexivity|]. cbn.
    rewrite Hk, Hsc, Htr, calls_of_app. done.
  - unfold bind at 1 2, emit, run_body. cbn [heap trace].
    pose proof (Hkeep _ _ v scope (heap w) Hfm) as Hk. cbn in Hk.
    destruct (f v (heap w)) as [h' r] eqn:Hf. cbn in Hk. cbn beta iota.
    apply Hstep; cbn; [by rewrite Hk | by rewrite calls_of_app].
  - unfold bind at 1 2, emit, run_body. cbn [heap trace].
    pose proof (Hkeep _ _ v scope (heap w) Hfm) as Hk. cbn in Hk.
    destruct (f v scope (heap w)) as [h' r] eqn:Hf. cbn in Hk. cbn beta iota.
    apply Hstep; cbn; [by rewrite Hk | by rewrite calls_of_app].
  - unfold bind at 1. rewrite (Scope_handle_Ok _ _ _ Hdb).
    unfold bind at 1.
    destruct (DB_new_spec p w)
      as (p' & q & wn & -> & _ & _ & _ & _ & _ & _ & _ & _ & Hsc & _ & Htr).
    unfold bind at 1 2, emit, run_body. cbn [heap trace].
    pose proof (Hkeep _ _ v p' (heap wn) Hfm) as Hk. cbn in Hk.
    destruct (f v p' (heap wn)) as [h' r] eqn:Hf. cbn in Hk. cbn beta iota.
    apply Hstep; cbn; [by rewrite Hk, Hsc | by rewrite calls_of_app, Htr].
  - unfold bind.
    match goal with |- context [Scope_Err E scope ?r ?w0] =>
      destruct (Scope_Err_frame scope p r w0) as (w' & -> & _ & _ & _ & Hsc & _ & Htr)
    end; [done|].
    eexists. split; [reflexivity|]. cbn. rewrite Hsc, Htr, app_nil_r. done.
Qed.

Lemma hook_calls_cons name v vs :
  hook_calls E name (v :: vs) = (hook_calls E name [v] ++ hook_calls E name vs)%list.
Proof. unfold hook_calls. cbn. by destruct (has_hook E name v). Qed.

Lemma for_each_calls scope p name vs : ∀ w,
  keeps_handle E scope name →
  scope_db (scopes (heap w) !!! scope) = Some p →
  ∃ w', for_each vs (fun v => CallMethod_call E scope name (I v)) w = Ok (tt, w') ∧
    scope_db (scopes (heap w') !!! scope) = Some p ∧
    calls_of (trace w') = (calls_of (trace w) ++ hook_calls E name vs)%list.
Proof.
  induction vs as [|v vs IH]; intros w Hkeep Hdb.
  - exists w. cbn. by rewrite app_nil_r.
  - cbn [for_each]. unfold bind.
    destruct (CallMethod_call_calls scope p name v w Hkeep Hdb) as (w1 & -> & Hdb1 & Htr1).
    destruct (IH w1 Hkeep Hdb1) as (w2 & -> & Hdb2 & Htr2).
    exists w2. repeat split; [done|].
    by rewrite Htr2, Htr1, (hook_calls_cons name v vs), app_assoc.
Qed.

Lemma CallMethod_call_receiver scope name i v a w :
  reflect_ValueOf i = RV v a →
  CallMethod_call E scope name i w = CallMethod_call E scope name (I v) w.
Proof. intros H. unfold CallMethod_call. by rewrite H. Qed.

(** [CallMethod] on a target that is not nil: the dispatch on each
    receiver, in order. *)
Lemma Scope_CallMethod_unfold scope name w :
  let sc := scopes (heap w) !!! scope in
  is_Nil (scope_Value sc) = false →
  Scope_CallMethod E scope name w
  = for_each (hook_receivers sc) (fun v => CallMethod_call E scope name (I v))
      (World_with_indirect scope w).
Proof.
  intros sc Hnil. unfold Scope_CallMethod, bind at 1, load_Scope at 1.
  fold sc. rewrite Hnil. unfold bind at 1. rewrite Scope_IndirectValue_spec.
  fold sc. unfold hook_receivers.
  destruct (Kind_is_Slice (Value_Kind (Scope_indirect sc))) eqn:Hk.
  - unfold Index_Addr_Interface. clear.
    generalize (World_with_indirect scope w).
    induction (Value_elems (Scope_indirect sc)) as [|e l IH]; intros w0; [done|].
    cbn [for_each map]. unfold bind.
    destruct (CallMethod_call E scope name (I (VPtr e)) w0) as [[? w1]| |]; [|done..].
    apply IH.
  - unfold bind, load_Scope.
    destruct (World_with_indirect_scope scope w) as (-> & _). fold sc.
    destruct (scope_Value sc) as [|v|e|rv] eqn:Hv; [done|..]; cbn [reflect_ValueOf for_each];
      rewrite bind_ret_unit; try reflexivity.
Qed.

Lemma unsupported_not_scan_error name :
  String.prefix scan_error_text ("unsupported function " +:+ name) = false.
Proof. reflexivity. Qed.

Lemma for_each_unsupported scope p name vs : ∀ w,
  scope_db (scopes (heap w) !!! scope) = Some p →
  (∀ v, v ∈ vs → unsupported E name v) →
  ∃ w', for_each vs (fun v => CallMethod_call E scope name (I v)) w = Ok (tt, w') ∧
    scope_db (scopes (heap w') !!! scope) = Some p ∧
    calls_of (trace w') = calls_of (trace w) ∧
    Error (dbs (heap w') !!! p)
    = match vs with
      | [] => Error (dbs (heap w) !!! p)
      | _ :: _ => Some (errors_New ("unsupported function " +:+ name))
      end.
Proof.
  induction vs as [|v vs IH]; intros w Hdb Hall.
  - by exists w.
  - cbn [for_each]. unfold bind at 1.
    destruct (Hall v) as (n & f & Hfm); [by left|].
    unfold CallMethod_call at 1. cbn [reflect_ValueOf]. rewrite Hfm. unfold bind at 1.
    match goal with |- context [Scope_Err E scope ?r ?w0] =>
      destruct (Scope_Err_frame scope p r w0 Hdb)
        as (w1 & -> & He1 & _ & _ & Hsc1 & _ & Htr1)
    end.
    cbn [ret].
    destruct (IH w1) as (w2 & -> & Hdb2 & Htr2 & He2).
    { by rewrite Hsc1. }
    { intros v' Hv'. apply Hall. by right. }
    exists w2. repeat split; [done|by rewrite Htr2|].
    rewrite He2. destruct vs; [|done].
    rewrite He1. unfold latched. cbn [is_RecordNotFound errors_New negb andb error_Error].
    by rewrite unsupported_not_scan_error.
Qed.

(** C9.  When every receiver of the dispatch (there is at least one)
    has a method of the hook's name and of none of the six shapes,
    [CallMethod] ends without a panic, calls no method, and the error of
    the Scope's Handle is [unsupported function <name>]. *)
Theorem CallMethod_unsupported_signature scope name w p :
  let sc := scopes (heap w) !!! scope in
  is_Nil (scope_Value sc) = false →
  scope_db sc = Some p →
  hook_receivers sc ≠ [] →
  (∀ v, v ∈ hook_receivers sc → unsupported E name v) →
  ∃ w', Scope_CallMethod E scope name w = Ok (tt, w') ∧
    Error (dbs (heap w') !!! p)
    = Some (errors_New ("unsupported function " +:+ name)) ∧
    calls_of (trace w') = calls_of (trace w).
Proof.
  intros sc Hnil Hdb Hne Hall.
  rewrite Scope_CallMethod_unfold by done. fold sc.
  destruct (World_with_indirect_scope scope w) as (_ & Hdb' & _).
  destruct (World_with_indirect_frame scope w) as (_ & _ & _ & Htr).
  destruct (for_each_unsupported scope p name (hook_receivers sc)
              (World_with_indirect scope w)) as (w' & Hrun & _ & Hcalls & Herr).
  { by rewrite Hdb'. }
  { done. }
  exists w'. split; [done|]. split; [|by rewrite Hcalls, Htr].
  rewrite Herr. by destruct (hook_receivers sc).
Qed.


(** ** Field.Set *)

(** C10.  On a valid, addressable field whose address implements
    [sql.Scanner], with the method [scan], [Set] calls [Scan] with the
    supplied value, keeps the value [Scan] left in the field, recomputes
    [IsBlank] and returns nil: what [Scan] returned, [(scan cur arg).2],
    is not looked at. *)
Theorem Field_Set_scanner field value arg cur scan w :
  field_Field field = RV cur true →
  Scanner E (TypeOf cur) = Some scan →
  supplied_value value = Some arg →
  Field_Set E field value w
  = Ok ((Field_with_IsBlank (isBlank E (RV (scan cur arg).1 true))
           (Field_with_Field (RV (scan cur arg).1 true) field), None),
        mkWorld (heap w) (trace w ++ [EvScan (VPtr cur) arg])).
Proof.
  intros Hf Hscan Harg. unfold Field_Set. rewrite Hf. cbn [Value_IsValid Value_CanAddr negb].
  assert (Hun : (match value with
                 | IReflect rvalue => Value_Interface rvalue
                 | _ => ret value
                 end) w = Ok (arg, w)).
  { destruct value as [|v|e|[|v b]]; cbn in Harg; try injection Harg as <-; done. }
  unfold bind at 1. rewrite Hun, Hscan.
  unfold bind, emit, ret. cbn. by destruct (scan cur arg).
Qed.


(** ** Table names *)

(** [TableName] when the name is derived from the type. *)
Lemma TableName_derived scope w v a :
  let sc := scopes (heap w) !!! scope in
  TableName_override (heap w) sc = "" →
  is_Nil (scope_Value sc) = false →
  TableName_data sc = RV v a →
  MethodByName E (TypeOf v) "TableName" = None →
  singular_tables (heap w) sc = false →
  Scope_TableName E scope w
  = Ok (pluralize (ToSnake E (Type_Name (TypeOf v))), World_with_indirect scope w).
Proof.
  intros sc Hover Hnil Hdata Hhook Hsing.
  unfold Scope_TableName, bind at 1, load_Scope at 1. fold sc.
  unfold bind at 1.
  assert (Ho : (match Search sc with
                | Some q => sr <- load_search q ;;; ret (TableName sr)
                | None => ret ""
                end) w = Ok ("", w)).
  { unfold TableName_override in Hover. destruct (Search sc); [|done].
    unfold bind, load_search, ret. by rewrite Hover. }
  rewrite Ho. cbn [String.length Nat.ltb Nat.leb]. rewrite Hnil.
  unfold bind at 1. rewrite Scope_IndirectValue_spec. fold sc.
  unfold TableName_data in Hdata.
  destruct (World_with_indirect_scope scope w) as (_ & Hdb & _).
  destruct (World_with_indirect_frame scope w) as (Hdbs & _).
  assert (Hs : (match scope_db (scopes (heap (World_with_indirect scope w)) !!! scope) with
                | None => ret false
                | Some p =>
                    d <- load_DB p ;;;
                    top <- load_DB (parent d) ;;;
                    ret (singularTable top)
                end) (World_with_indirect scope w)
               = Ok (false, World_with_indirect scope w)).
  { rewrite Hdb. fold sc. unfold singular_tables in Hsing.
    destruct (scope_db sc); [|done].
    unfold bind, load_DB, ret. by rewrite Hdbs, Hsing. }
  destruct (Kind_is_Slice (Value_Kind (Scope_indirect sc))) eqn:Hk.
  - destruct (Scope_indirect sc) as [|v0 a0]; [done|].
    rewrite Hdata, Hhook. unfold bind at 1. cbn [ret]. cbv beta iota.
    unfold bind at 1, load_Scope at 1. unfold bind at 1. rewrite Hs.
    cbn [negb]. unfold pluralize. by destruct (plural_from 0 pluralMapKeys _).
  - rewrite Hdata, Hhook. unfold bind at 1. cbn [ret]. cbv beta iota.
    unfold bind at 1, load_Scope at 1. unfold bind at 1. rewrite Hs.
    cbn [negb]. unfold pluralize. by destruct (plural_from 0 pluralMapKeys _).
Qed.

(** C8 (as amended).  Without an override on the accumulator, without a
    method [TableName] and without singular table names, [TableName] is
    [plural_word] of the snake-cased type name: the first suffix rule of
    [ch], [ss], [sh], [day], [y], [x] that applies, else an [s] appended
    to a name that ends in another character than [s], else the name as it
    is.  The seven names of the table come out as listed. *)
Theorem TableName_plural scope w v a :
  let sc := scopes (heap w) !!! scope in
  TableName_override (heap w) sc = "" →
  is_Nil (scope_Value sc) = false →
  TableName_data sc = RV v a →
  MethodByName E (TypeOf v) "TableName" = None →
  singular_tables (heap w) sc = false →
  Scope_TableName E scope w
  = Ok (plural_word (ToSnake E (Type_Name (TypeOf v))),
        World_with_indirect scope w)
  ∧ map pluralize
        ["bench"; "class"; "dish"; "monday"; "category"; "box"; "user"]
    = ["benches"; "classes"; "dishes"; "mondays"; "categories"; "boxes";
       "users"].
Proof.
  intros sc Hover Hnil Hdata Hhook Hsing. split; [|reflexivity].
  rewrite <- pluralize_plural_word.
  by apply TableName_derived with a.
Qed.


(** ** Field discovery *)

Lemma frame_refl ex w : discovery_frame ex w w.
Proof. by repeat split. Qed.

Lemma frame_weaken ex w w' : discovery_frame None w w' → discovery_frame ex w w'.
Proof.
  intros (H1 & H2 & H3 & H4 & H5). repeat split; try done; try (by apply H4).
  intros _. by apply H4.
Qed.

Lemma frame_trans ex w1 w2 w3 :
  discovery_frame ex w1 w2 → discovery_frame ex w2 w3 → discovery_frame ex w1 w3.
Proof.
  intros (A1 & A2 & A3 & A4 & A5) (B1 & B2 & B3 & B4 & B5).
  split; [congruence|]. split; [congruence|]. split; [|split].
  - intros q Hq. rewrite B3, A3; [done..|].
    apply elem_of_dom. rewrite A3 by done. by apply elem_of_dom.
  - intros q Hq. destruct (A4 q Hq) as (Hq2 & Ae & Af).
    destruct (B4 q Hq2) as (Hq3 & Be & Bf).
    split; [done|]. split; [congruence|]. intros Hex. rewrite Bf, Af; done.
  - intros c Hc. rewrite B5, A5; [done..|].
    apply elem_of_dom. rewrite A5 by done. by apply elem_of_dom.
Qed.

Lemma frame_trans_new sub w1 w2 w3 :
  discovery_frame None w1 w2 → sub ∉ dom (scopes (heap w1)) →
  discovery_frame (Some sub) w2 w3 → discovery_frame None w1 w3.
Proof.
  intros (A1 & A2 & A3 & A4 & A5) Hsub (B1 & B2 & B3 & B4 & B5).
  split; [congruence|]. split; [congruence|]. split; [|split].
  - intros q Hq. rewrite B3, A3; [done..|].
    apply elem_of_dom. rewrite A3 by done. by apply elem_of_dom.
  - intros q Hq. destruct (A4 q Hq) as (Hq2 & Ae & Af).
    destruct (B4 q Hq2) as (Hq3 & Be & Bf).
    split; [done|]. split; [congruence|]. intros _.
    rewrite Bf, Af; [done..|]. intros [= ->]. done.
  - intros c Hc. rewrite B5, A5; [done..|].
    apply elem_of_dom. rewrite A5 by done. by apply elem_of_dom.
Qed.

Lemma erase_eq_inv sc sc' :
  Scope_erase sc' = Scope_erase sc →
  Scope_indirect sc' = Scope_indirect sc ∧ scope_db sc' = scope_db sc ∧
  scope_Value sc' = scope_Value sc ∧ primaryKeyField sc' = primaryKeyField sc.
Proof. unfold Scope_erase. intros [=]. done. Qed.

Lemma World_with_indirect_discovery ex scope w :
  scope ∈ dom (scopes (heap w)) →
  discovery_frame ex w (World_with_indirect scope w).
Proof.
  intros Hs. unfold World_with_indirect.
  destruct (indirectValue (scopes (heap w) !!! scope)) eqn:Hc; [apply frame_refl|].
  repeat split; try done; cbn.
  - rewrite dom_insert_L. set_solver.
  - destruct (decide (q = scope)) as [->|Hne].
    + rewrite lookup_total_insert_eq. unfold Scope_erase, Scope_indirect. cbn.
      by rewrite Hc.
    + by rewrite lookup_total_insert_ne.
  - destruct (decide (q = scope)) as [->|Hne].
    + by rewrite lookup_total_insert_eq.
    + by rewrite lookup_total_insert_ne.
Qed.

Lemma Scope_New_spec scope value w :
  ∃ sub w', Scope_New scope value w = Ok (sub, w') ∧
    (sub ∉ dom (scopes (heap w))) ∧ sub ∈ dom (scopes (heap w')) ∧
    Scope_indirect (scopes (heap w') !!! sub) = reflect_Indirect (reflect_ValueOf value) ∧
    fields (scopes (heap w') !!! sub) = None ∧
    primaryKeyField (scopes (heap w') !!! sub) = None ∧
    scope_db (scopes (heap w') !!! sub) = scope_db (scopes (heap w) !!! scope) ∧
    discovery_frame None w w'.
Proof.
  unfold Scope_New, new_search, new_Scope, bind, load_Scope, store_search, store_Scope, ret.
  cbn. eexists _, _. split; [reflexivity|]. cbn.
  set (sub := fresh (dom (scopes (heap w)))).
  assert (Hsub : sub ∉ dom (scopes (heap w))) by apply is_fresh.
  assert (Hq : fresh (dom (searches (heap w))) ∉ dom (searches (heap w))) by apply is_fresh.
  rewrite lookup_total_insert_eq. cbn.
  repeat split; try done; cbn.
  - rewrite dom_insert_L. set_solver.
  - intros q Hq'. rewrite lookup_insert_ne; [done|]. intros <-. done.
  - rewrite dom_insert_L. set_solver.
  - rewrite lookup_total_insert_ne; [done|]. intros <-. done.
  - intros _. rewrite lookup_total_insert_ne; [done|]. intros <-. done.
Qed.

Lemma wp_IndirectValue oof scope w Q :
  Q (Scope_indirect (scopes (heap w) !!! scope)) (World_with_indirect scope w) →
  wp oof (Scope_IndirectValue scope) w Q.
Proof. intros H. unfold wp. by rewrite Scope_IndirectValue_spec. Qed.

Lemma frame_scope ex w w' q :
  discovery_frame ex w w' → q ∈ dom (scopes (heap w)) →
  q ∈ dom (scopes (heap w')) ∧
  Scope_indirect (scopes (heap w') !!! q) = Scope_indirect (scopes (heap w) !!! q) ∧
  scope_db (scopes (heap w') !!! q) = scope_db (scopes (heap w) !!! q) ∧
  scope_Value (scopes (heap w') !!! q) = scope_Value (scopes (heap w) !!! q) ∧
  primaryKeyField (scopes (heap w') !!! q) = primaryKeyField (scopes (heap w) !!! q).
Proof.
  intros (_ & _ & _ & H & _) Hq. destruct (H q Hq) as (Hq' & He & _).
  split; [done|]. by apply erase_eq_inv.
Qed.

Lemma frame_store_fieldmap ex w0 w m mm :
  discovery_frame ex w0 w → m ∉ dom (fieldmaps (heap w0)) →
  wp False (store_fieldmap m mm) w (fun _ w' => discovery_frame ex w0 w').
Proof.
  intros (A1 & A2 & A3 & A4 & A5) Hm. unfold wp, store_fieldmap. cbn.
  repeat split; try done; try (by apply A4).
  intros c Hc. cbn. rewrite lookup_insert_ne; [by apply A5|]. intros <-. done.
Qed.

Lemma field_index_Some name fs i : field_index name fs = Some i → fs ≠ [].
Proof. by destruct fs. Qed.

Lemma depth_lookup vs : ∀ i v,
  vs !! i = Some v →
  (depth v ≤ (fix depths (l : list Val) : nat :=
                match l with
                | [] => O
                | x :: l' => Nat.max (depth x) (depths l')
                end) vs)%nat.
Proof.
  induction vs as [|x vs IH]; intros i v Hv; [done|].
  destruct i as [|i]; cbn in Hv.
  - injection Hv as ->. lia.
  - specialize (IH i v Hv). lia.
Qed.

Lemma New_Elem_FieldByName_IsValid_ends t name :
  New_Elem_FieldByName_IsValid t name ≠ OutOfFuel.
Proof.
  unfold New_Elem_FieldByName_IsValid.
  destruct (Value_IsValid _); [done|]. by destruct (Type_selects t name) as [[|]|].
Qed.

Lemma FieldByName_valid iv name v a :
  Value_FieldByName iv name = RV v a →
  Kind_is_Slice (Value_Kind iv) = false ∧ (depth v < Value_depth iv)%nat.
Proof.
  unfold Value_FieldByName.
  destruct iv as [|[| | | |t vs] a0]; try done.
  destruct (field_index name (Type_fields t)) as [i|] eqn:Hi; [|done].
  destruct (vs !! i) as [v'|] eqn:Hv; [|done].
  intros [= -> ->]. split.
  - cbn. apply field_index_Some in Hi. by destruct t.
  - cbn. apply depth_lookup in Hv. lia.
Qed.

Ltac wp_step :=
  lazymatch goal with
  | |- wp _ (bind _ _) _ _ => apply wp_bind
  | |- wp _ (ret _) _ _ => apply wp_ret
  | |- wp _ (panic _) _ _ => apply wp_panic
  | |- wp _ (load_Scope _) _ _ => apply wp_load_Scope
  | |- wp _ (load_DB _) _ _ => apply wp_load_DB
  | |- wp _ (load_fieldmap _) _ _ => apply wp_load_fieldmap
  | |- wp _ (Scope_IndirectValue _) _ _ => apply wp_IndirectValue
  | |- wp _ (lift (Value_Type ?rv)) _ _ =>
      apply wp_lift; [let t := fresh "t" in let Ht := fresh "Ht" in intros t Ht
                     | by destruct rv]
  | |- wp _ (lift (New_Elem_FieldByName_IsValid _ _)) _ _ =>
      apply wp_lift; [intros ? ? | apply New_Elem_FieldByName_IsValid_ends]
  | |- wp _ (if ?b then _ else _) _ _ => destruct b eqn:?
  | |- wp _ (match ?x with _ => _ end) _ _ => destruct x eqn:?
  end.

Lemma HasColumn_wp fuel Fields_rec scope column w (oof : Prop) :
  Fields_ok fuel Fields_rec →
  scope ∈ dom (scopes (heap w)) →
  Kind_is_Slice (Value_Kind (Scope_indirect (scopes (heap w) !!! scope))) = false →
  ((fuel < Fields_fuel (Scope_indirect (scopes (heap w) !!! scope)) false)%nat → oof) →
  wp oof (HasColumn_with E Fields_rec scope column) w
     (fun _ w' => discovery_frame None w w').
Proof.
  intros HF Hs Hk Hoof. unfold HasColumn_with.
  wp_step. wp_step. rewrite Hk. wp_step. wp_step.
  pose proof (World_with_indirect_discovery None scope w Hs) as Hf1.
  destruct (frame_scope _ _ _ scope Hf1 Hs) as (Hs1 & Hiv1 & _).
  wp_step.
  eapply wp_mono; [apply (HF scope [false] _ Hs1) | |].
  { rewrite Hiv1. exact Hoof. }
  intros m w2 (Hf2 & _). cbn in Hf2.
  wp_step. wp_step. wp_step. by eapply frame_trans.
Qed.

Lemma wp_Field_IsTime oof field w Q :
  (∀ b, Q b w) → wp oof (Field_IsTime E field) w Q.
Proof. intros H. unfold Field_IsTime. destruct (field_Field field); [done|apply H]. Qed.

Lemma wp_Field_IsScanner oof field w Q :
  (∀ b, Q b w) → wp oof (Field_IsScanner E field) w Q.
Proof. intros H. unfold Field_IsScanner. destruct (field_Field field); [done|apply H]. Qed.

Lemma World_with_indirect_idem scope w :
  World_with_indirect scope (World_with_indirect scope w) = World_with_indirect scope w.
Proof.
  unfold World_with_indirect.
  destruct (indirectValue (scopes (heap w) !!! scope)) eqn:Hc; cbn.
  - by rewrite Hc.
  - by rewrite lookup_total_insert_eq.
Qed.

(** [fieldFromStruct] with enough fuel ends or panics, and changes no
    Scope, map or Handle that existed. *)
Lemma fieldFromStruct_wp fuel Fields_rec scope fieldStruct withRelation w :
  Fields_ok fuel Fields_rec →
  scope ∈ dom (scopes (heap w)) →
  wp (S fuel < Fields_fuel (Scope_indirect (scopes (heap w) !!! scope)) withRelation)%nat
     (fieldFromStruct_with E Fields_rec scope fieldStruct withRelation) w
     (fun _ w' => discovery_frame None w w').
Proof.
  intros HF Hs. unfold fieldFromStruct_with.
  pose proof (World_with_indirect_discovery None scope w Hs) as Hf1.
  destruct (frame_scope _ _ _ scope Hf1 Hs) as (Hs1 & Hiv1 & _).
  set (iv := Scope_indirect (scopes (heap w) !!! scope)) in *.
  wp_step. wp_step. fold iv.
  destruct (Value_FieldByName iv (sf_Name fieldStruct)) as [|v a] eqn:Hvalue.
  { (* the field has no value: the code panics unless the field is ignored *)
    cbn [reflect_Indirect Value_IsValid].
    repeat wp_step; try done. }
  destruct (FieldByName_valid _ _ _ _ Hvalue) as (Hk & Hdepth).
  repeat first [ wp_step | apply wp_Field_IsTime; intros ?
               | apply wp_Field_IsScanner; intros ? ];
    rewrite ?World_with_indirect_idem; try exact Hf1.
  all: lazymatch goal with
       | |- wp _ (Scope_New _ _) ?W _ =>
           destruct (Scope_New_spec scope (I (VPtr v)) W)
             as (sub & w2 & Hrun & Hsub & Hsub' & Hsiv & _ & _ & _ & Hf2);
           eapply wp_Ok; [exact Hrun|]; wp_step;
           eapply wp_mono; [apply (HF sub [] w2 Hsub') | |]
       | |- wp _ (HasColumn_with _ _ _ _) ?W _ =>
           eapply wp_mono;
             [apply (HasColumn_wp fuel Fields_rec scope _ W
                       (S fuel < Fields_fuel iv true)%nat HF Hs1) | |]
       end.
  all: try (rewrite Hiv1; exact Hk).
  all: lazymatch goal with
       | |- (_ < _)%nat → _ =>
           intros Hlt; rewrite ?Hsiv, ?Hiv1 in Hlt; revert Hlt;
           unfold Fields_fuel;
           cbn [reflect_Indirect reflect_ValueOf Value_depth Fields_withRelation];
           destruct withRelation; lia
       | |- ∀ (_ : ptr) (_ : World), _ =>
           intros m w3 (Hf3 & _); cbn [Fields_withRelation] in Hf3;
           wp_step; wp_step; wp_step;
           apply (frame_trans None _ _ _ Hf1);
           by apply (frame_trans_new sub _ w2 w3)
       | |- ∀ (_ : bool) (_ : World), _ =>
           intros belongs w3 Hf3; destruct belongs; wp_step;
           by apply (frame_trans None _ _ _ Hf1)
       end.
Qed.

Lemma new_fieldmap_spec ex mm w :
  ∃ m w', new_fieldmap mm w = Ok (m, w') ∧
    (m ∉ dom (fieldmaps (heap w))) ∧ discovery_frame ex w w' ∧
    scopes (heap w') = scopes (heap w).
Proof.
  unfold new_fieldmap, bind, store_fieldmap, ret. eexists _, _.
  split; [reflexivity|].
  assert (Hm : fresh (dom (fieldmaps (heap w))) ∉ dom (fieldmaps (heap w)))
    by apply is_fresh.
  repeat split; try done; cbn.
  intros c Hc. rewrite lookup_insert_ne; [done|]. intros <-. done.
Qed.

Lemma Fields_enter_wp oof ex w0 m hasPrimaryKey field w :
  discovery_frame ex w0 w → (m ∉ dom (fieldmaps (heap w0))) →
  wp oof (Fields_enter m hasPrimaryKey field) w
     (fun _ w' => discovery_frame ex w0 w').
Proof.
  intros Hf Hm. unfold Fields_enter.
  repeat wp_step;
    (eapply wp_mono; [by apply (frame_store_fieldmap ex w0 w m)|done|]);
    intros ? w' Hf'; cbn beta; by wp_step.
Qed.

(** [Fields] with enough fuel ends or panics; it memoizes the map it
    returns exactly when relations are inferred. *)
Lemma Scope_Fields_ok fuel : Fields_ok fuel (Scope_Fields E fuel).
Proof.
  induction fuel as [|fuel IH]; intros s nr w Hs.
  - unfold wp. cbn. unfold Fields_fuel. destruct (Fields_withRelation nr); lia.
  - cbn [Scope_Fields]. wp_step. wp_step.
    set (ex := if Fields_withRelation nr then Some s else None).
    destruct (if Fields_withRelation nr then fields (scopes (heap w) !!! s) else None)
      as [cached|] eqn:Hcache.
    { wp_step. unfold Fields_post.
      destruct (Fields_withRelation nr) eqn:Hwr; [|done].
      split; [apply frame_refl|]. split; [by intros _|]. split.
      - intros [?|Hn]; [done|]. by rewrite Hn in Hcache.
      - intros _ c Hc. rewrite Hc in Hcache. by injection Hcache as ->. }
    assert (Hnone : Fields_withRelation nr = false
                    ∨ fields (scopes (heap w) !!! s) = None).
    { destruct (Fields_withRelation nr); [by right|by left]. }
    wp_step.
    destruct (new_fieldmap_spec ex ∅ w) as (m & w1 & Hrun & Hm & Hf1 & Hsc1).
    eapply wp_Ok; [exact Hrun|]. cbn beta.
    destruct (frame_scope _ _ _ s Hf1 Hs) as (Hs1 & Hiv1 & _).
    wp_step. wp_step.
    pose proof (World_with_indirect_discovery ex s w1 Hs1) as Hf2.
    pose proof (frame_trans _ _ _ _ Hf1 Hf2) as Hf12.
    set (w2 := World_with_indirect s w1) in *.
    set (oof := (S fuel < Fields_fuel (Scope_indirect (scopes (heap w) !!! s))
                                      (Fields_withRelation nr))%nat).
    assert (Htail : ∀ w3, discovery_frame ex w w3 →
      wp oof
        ((if Fields_withRelation nr
          then sc' <- load_Scope s ;;;
               store_Scope s (Scope_with_fields (Some m) sc')
          else ret tt) ;;; ret m) w3 (Fields_post s nr w)).
    { intros w3 Hf3. destruct (frame_scope _ _ _ s Hf3 Hs) as (Hs3 & _).
      wp_step. destruct (Fields_withRelation nr) eqn:Hwr.
      - wp_step. wp_step. apply wp_store_Scope.
        wp_step. unfold Fields_post. rewrite Hwr. cbn.
        rewrite lookup_total_insert_eq. cbn.
        split; [|split; [done|split; [done|]]].
        + destruct Hf3 as (A1 & A2 & A3 & A4 & A5).
          repeat split; try done; cbn.
          * destruct (A4 q H) as (Hq & _). rewrite dom_insert_L. apply elem_of_union. by right.
          * destruct (decide (q = s)) as [->|Hne].
            -- rewrite lookup_total_insert_eq. by destruct (A4 s H) as (_ & <- & _).
            -- rewrite lookup_total_insert_ne by done. by apply A4.
          * intros Hex. rewrite lookup_total_insert_ne; [by apply A4|].
            intros <-. done.
        + intros _ c Hc. destruct Hnone as [|Hn]; [done|]. by rewrite Hn in Hc.
      - wp_step. wp_step. unfold Fields_post. rewrite Hwr.
        split; [done|]. by repeat split. }
    destruct (Value_IsValid (Scope_indirect (scopes (heap w1) !!! s))
              && Kind_is_Struct (Value_Kind (Scope_indirect (scopes (heap w1) !!! s))))
      eqn:Hstruct; [|wp_step; wp_step; by apply Htail].
    wp_step. wp_step. wp_step. wp_step.
    eapply wp_mono;
      [apply (wp_fold_M oof _ (fun w' => discovery_frame ex w w')); [exact Hf12|]
      | done |].
    + intros acc fieldStruct w3 Hf3.
      destruct (frame_scope _ _ _ s Hf3 Hs) as (Hs3 & Hiv3 & _).
      destruct (negb (IsExported E (sf_Name fieldStruct))); [by wp_step|].
      wp_step.
      eapply wp_mono;
        [apply (fieldFromStruct_wp fuel _ s fieldStruct _ w3 IH Hs3)
        | by rewrite Hiv3 |].
      intros fs w4 Hf4. cbn beta.
      apply (wp_fold_M oof _ (fun w' => discovery_frame ex w w')).
      * apply (frame_trans _ _ _ _ Hf3). by apply frame_weaken.
      * intros acc' field w5 Hf5. by apply Fields_enter_wp.
    + intros hasPrimaryKey w3 Hf3. cbn beta in Hf3 |- *.
      destruct (negb hasPrimaryKey).
      * wp_step. wp_step.
        destruct (default ∅ (fieldmaps (heap w3) !! m) !! "id") as [field|].
        -- eapply wp_mono; [by apply (frame_store_fieldmap ex w w3 m)|done|].
           intros ? w4 Hf4. by apply Htail.
        -- wp_step. by apply Htail.
      * wp_step. by apply Htail.
Qed.


Section Blind.

Context (scope : ptr) (c : option ptr).

Local Abbreviation blind := (cache_blind scope c).
Local Abbreviation T := (World_with_fields scope c).
Local Abbreviation inv := (fun w : World => scope ∈ dom (scopes (heap w))).

Lemma blind_ret {A} (a : A) w Q : Q a w → blind (ret a) w Q.
Proof. intros H. by split. Qed.

Lemma blind_panic {A} msg w (Q : A → World → Prop) : blind (panic msg) w Q.
Proof. reflexivity. Qed.

Lemma blind_bind {A B} (m : M A) (k : A → M B) w Q :
  blind m w (fun a w' => blind (k a) w' Q) → blind (bind m k) w Q.
Proof.
  unfold cache_blind, bind. destruct (m w) as [[a w1]| |]; [|by intros ->..].
  intros [-> H]. exact H.
Qed.

Lemma blind_mono {A} (m : M A) w (Q Q' : A → World → Prop) :
  blind m w Q → (∀ a w', Q a w' → Q' a w') → blind m w Q'.
Proof.
  unfold cache_blind. destruct (m w) as [[a w1]| |]; [|done..].
  intros [H1 H2] HQ. split; [done|by apply HQ].
Qed.

Lemma blind_lift {A} (o : outcome A) w Q :
  (∀ a, o = Ok a → Q a w) → blind (lift o) w Q.
Proof. intros H. destruct o; [|done..]. split; [done|by apply H]. Qed.

Lemma blind_load_DB p w Q : Q (dbs (heap w) !!! p) w → blind (load_DB p) w Q.
Proof. intros H. by split. Qed.

Lemma blind_load_fieldmap m w Q :
  Q (default ∅ (fieldmaps (heap w) !! m)) w → blind (load_fieldmap m) w Q.
Proof. intros H. by split. Qed.

Lemma blind_store_fieldmap m mm w (Q : unit → World → Prop) :
  (∀ w', store_fieldmap m mm w = Ok (tt, w') → Q tt w') →
  blind (store_fieldmap m mm) w Q.
Proof. intros H. split; [done|by apply H]. Qed.

Lemma blind_new_fieldmap mm w (Q : ptr → World → Prop) :
  (∀ m w', new_fieldmap mm w = Ok (m, w') → Q m w') →
  blind (new_fieldmap mm) w Q.
Proof. intros H. split; [done|by apply H]. Qed.

(** A load of a Scope, when what follows does not look at the cache of
    [scope]. *)
Lemma blind_bind_load {A} s (k : Scope → M A) w Q :
  (s = scope →
   ∀ w', k (Scope_with_fields c (scopes (heap w) !!! s)) w' = k (scopes (heap w) !!! s) w') →
  blind (k (scopes (heap w) !!! s)) w Q →
  blind (bind (load_Scope s) k) w Q.
Proof.
  intros Hk H. unfold cache_blind, bind, load_Scope in *. cbn.
  destruct (decide (s = scope)) as [->|Hne].
  - rewrite lookup_total_insert_eq, (Hk eq_refl). exact H.
  - rewrite lookup_total_insert_ne by done. exact H.
Qed.

Lemma blind_store_Scope s sc w (Q : unit → World → Prop) :
  s ≠ scope →
  (∀ w', store_Scope s sc w = Ok (tt, w') →
         scopes (heap w') !!! scope = scopes (heap w) !!! scope → Q tt w') →
  blind (store_Scope s sc) w Q.
Proof.
  intros Hne H. unfold cache_blind, store_Scope, World_with_fields. cbn. split.
  - rewrite lookup_total_insert_ne by done. by rewrite insert_insert_ne.
  - apply H; [done|]. cbn. by rewrite lookup_total_insert_ne.
Qed.

Lemma blind_IndirectValue s w Q :
  Q (Scope_indirect (scopes (heap w) !!! s)) (World_with_indirect s w) →
  blind (Scope_IndirectValue s) w Q.
Proof.
  intros H. unfold cache_blind. rewrite !Scope_IndirectValue_spec.
  split; [|done]. f_equal. f_equal.
  - unfold Scope_indirect. cbn.
    destruct (decide (s = scope)) as [->|Hne].
    + by rewrite lookup_total_insert_eq.
    + by rewrite lookup_total_insert_ne.
  - unfold World_with_indirect, World_with_fields. cbn.
    destruct (decide (s = scope)) as [->|Hne].
    + rewrite lookup_total_insert_eq. cbn.
      destruct (indirectValue (scopes (heap w) !!! scope)); [done|]. cbn.
      by rewrite lookup_total_insert_eq, !insert_insert_eq.
    + rewrite lookup_total_insert_ne by done.
      destruct (indirectValue (scopes (heap w) !!! s)); [done|]. cbn.
      rewrite lookup_total_insert_ne by done. by rewrite insert_insert_ne.
Qed.

Lemma blind_Scope_New s value w (Q : ptr → World → Prop) :
  inv w →
  (∀ sub w', Scope_New s value w = Ok (sub, w') → sub ≠ scope → inv w' → Q sub w') →
  blind (Scope_New s value) w Q.
Proof.
  intros Hs H. unfold cache_blind, World_with_fields, Scope_New, bind, load_Scope,
    new_search, new_Scope, store_search, store_Scope, ret in *. cbn in *.
  assert (Hsub : fresh (dom (scopes (heap w))) ≠ scope).
  { intros Heq. apply (is_fresh (dom (scopes (heap w)))). by rewrite Heq. }
  split.
  - rewrite (dom_insert_lookup_L (scopes (heap w)) scope) by by apply elem_of_dom.
    assert (Hdb : scope_db (<[scope:=Scope_with_fields c (scopes (heap w) !!! scope)]>
                              (scopes (heap w)) !!! s)
                  = scope_db (scopes (heap w) !!! s)).
    { destruct (decide (s = scope)) as [->|Hne].
      - by rewrite lookup_total_insert_eq.
      - by rewrite lookup_total_insert_ne. }
    rewrite Hdb, (lookup_total_insert_ne (scopes (heap w)) _ scope) by done.
    by rewrite insert_insert_ne.
  - apply H; [done|done|]. cbn. rewrite dom_insert_L. apply elem_of_union. by right.
Qed.

Ltac blind_step :=
  lazymatch goal with
  | |- cache_blind _ _ (bind (load_Scope _) _) _ _ =>
      apply blind_bind_load; [intros ? ?; try reflexivity|]
  | |- cache_blind _ _ (bind _ _) _ _ => apply blind_bind
  | |- cache_blind _ _ (ret _) _ _ => apply blind_ret
  | |- cache_blind _ _ (panic _) _ _ => apply blind_panic
  | |- cache_blind _ _ (load_DB _) _ _ => apply blind_load_DB
  | |- cache_blind _ _ (load_fieldmap _) _ _ => apply blind_load_fieldmap
  | |- cache_blind _ _ (Scope_IndirectValue _) _ _ => apply blind_IndirectValue
  | |- cache_blind _ _ (lift _) _ _ => apply blind_lift; intros ? ?
  | |- cache_blind _ _ (store_fieldmap _ _) _ _ =>
      apply blind_store_fieldmap; intros ? [= <-]
  | |- cache_blind _ _ (if ?b then _ else _) _ _ => destruct b eqn:?
  | |- cache_blind _ _ (match ?x with _ => _ end) _ _ => destruct x eqn:?
  end.

Lemma indirect_allocated s w : inv w → inv (World_with_indirect s w).
Proof.
  intros H. unfold World_with_indirect.
  destruct (indirectValue (scopes (heap w) !!! s)); [done|]. cbn.
  rewrite dom_insert_L. apply elem_of_union. by right.
Qed.

Lemma blind_fold_M {A B} (body : B → A → M B) acc l w :
  inv w →
  (∀ acc x w, inv w → blind (body acc x) w (fun _ w' => inv w')) →
  blind (fold_M body acc l) w (fun _ w' => inv w').
Proof.
  intros Hw Hbody. revert acc w Hw.
  induction l as [|x l IH]; intros acc w Hw; cbn [fold_M].
  - by apply blind_ret.
  - apply blind_bind. eapply blind_mono; [by apply Hbody|].
    intros acc' w' Hw'. by apply IH.
Qed.

Lemma HasColumn_blind Fields_rec s column w :
  Fields_blind scope c Fields_rec → inv w →
  blind (HasColumn_with E Fields_rec s column) w (fun _ w' => inv w').
Proof.
  intros HF Hw. unfold HasColumn_with.
  pose proof (indirect_allocated s w Hw) as Hw1.
  blind_step. blind_step. blind_step.
  blind_step.
  - blind_step. blind_step.
    apply blind_Scope_New; [done|]. intros sub w2 _ Hsub Hw2.
    blind_step. eapply blind_mono; [apply HF; [done|by right]|].
    intros m w3 Hw3. cbn beta. by repeat blind_step.
  - blind_step. blind_step.
    eapply blind_mono; [apply HF; [done|by right]|].
    intros m w3 Hw3. cbn beta. by repeat blind_step.
Qed.

Lemma blind_Field_IsTime field w Q :
  (∀ b, Q b w) → blind (Field_IsTime E field) w Q.
Proof.
  intros H. unfold Field_IsTime.
  destruct (field_Field field); [apply blind_panic|by apply blind_ret].
Qed.

Lemma blind_Field_IsScanner field w Q :
  (∀ b, Q b w) → blind (Field_IsScanner E field) w Q.
Proof.
  intros H. unfold Field_IsScanner.
  destruct (field_Field field); [apply blind_panic|by apply blind_ret].
Qed.

Lemma fieldFromStruct_blind Fields_rec s fieldStruct withRelation w :
  Fields_blind scope c Fields_rec → inv w →
  blind (fieldFromStruct_with E Fields_rec s fieldStruct withRelation) w
        (fun _ w' => inv w').
Proof.
  intros HF Hw. unfold fieldFromStruct_with.
  pose proof (indirect_allocated s w Hw) as Hw1.
  repeat first [ blind_step | apply blind_Field_IsTime; intros ?
               | apply blind_Field_IsScanner; intros ? ];
    rewrite ?World_with_indirect_idem; try exact Hw1.
  all: lazymatch goal with
       | |- cache_blind _ _ (Scope_New _ _) _ _ =>
           apply blind_Scope_New; [done|]; intros sub w2 _ Hsub Hw2;
           blind_step; eapply blind_mono; [apply HF; [done|by left]|];
           intros m w3 Hw3; cbn beta; by repeat blind_step
       | |- cache_blind _ _ (HasColumn_with _ _ _ _) _ _ =>
           eapply blind_mono; [by apply HasColumn_blind|];
           intros belongs w3 Hw3; cbn beta; destruct belongs; by blind_step
       end.
Qed.

Lemma Fields_enter_blind m hasPrimaryKey field w :
  inv w → blind (Fields_enter m hasPrimaryKey field) w (fun _ w' => inv w').
Proof. intros Hw. unfold Fields_enter. by repeat blind_step. Qed.

(** Discovery on another Scope, or without relations, does not look at
    what [scope] has cached. *)
Lemma Scope_Fields_blind fuel : Fields_blind scope c (Scope_Fields E fuel).
Proof.
  induction fuel as [|fuel IH]; intros s nr w Hw Hcond; [reflexivity|].
  cbn [Scope_Fields].
  apply blind_bind_load.
  { intros -> w'. destruct Hcond as [?|Hwr]; [done|]. by rewrite Hwr. }
  destruct (if Fields_withRelation nr then fields (scopes (heap w) !!! s) else None)
    as [cached|]; [by apply blind_ret|].
  blind_step. apply blind_new_fieldmap. intros m w1 [= Hm <-].
  assert (Htail : ∀ w0, inv w0 →
    blind ((if Fields_withRelation nr
            then sc' <- load_Scope s ;;;
                 store_Scope s (Scope_with_fields (Some m) sc')
            else ret tt) ;;; ret m) w0 (fun _ w' => inv w')).
  { intros w0 Hw0. blind_step. destruct (Fields_withRelation nr).
    - destruct Hcond as [Hne|?]; [|done].
      apply blind_bind_load; [done|].
      apply blind_store_Scope; [done|]. intros w' [= <-] _.
      apply blind_ret. cbn. rewrite dom_insert_L. apply elem_of_union. by right.
    - apply blind_ret. by apply blind_ret. }
  blind_step. blind_step. blind_step.
  blind_step; [|apply blind_ret; apply Htail; by apply indirect_allocated].
  blind_step. blind_step. blind_step.
  eapply blind_mono.
  { apply blind_fold_M; [apply indirect_allocated; exact Hw|]. intros acc x w0 Hw0.
    blind_step; [by blind_step|]. blind_step.
    eapply blind_mono; [by apply fieldFromStruct_blind|].
    intros fs w2 Hw2. cbn beta.
    apply blind_fold_M; [done|]. intros. by apply Fields_enter_blind. }
  intros hpk w2 Hw2. cbn beta.
  blind_step; [|apply blind_ret; by apply Htail].
  blind_step. blind_step. blind_step.
  - blind_step. by apply Htail.
  - apply blind_ret. by apply Htail.
Qed.


End Blind.

Lemma first_primary_key_Some l f :
  first_primary_key l = Some f → IsPrimaryKey f = true ∧ ∃ k, (k, f) ∈ l.
Proof.
  unfold first_primary_key.
  destruct (find (λ kv, IsPrimaryKey kv.2) l) as [[k f']|] eqn:Hfind; [|done].
  intros [= <-]. apply find_some in Hfind as (Hin & Hpk).
  split; [done|]. exists k. by apply list_elem_of_In.
Qed.

Lemma first_primary_key_None l :
  first_primary_key l = None ↔ ∀ k f, (k, f) ∈ l → IsPrimaryKey f = false.
Proof.
  unfold first_primary_key. split.
  - destruct (find (λ kv, IsPrimaryKey kv.2) l) as [[k f']|] eqn:Hfind; [done|].
    intros _ k f Hin. apply list_elem_of_In in Hin.
    by apply (find_none _ _ Hfind (k, f)).
  - intros Hall.
    destruct (find (λ kv, IsPrimaryKey kv.2) l) as [[k f']|] eqn:Hfind; [|done].
    apply find_some in Hfind as (Hin & Hpk). apply list_elem_of_In in Hin.
    cbn in Hpk. by rewrite (Hall k f' Hin) in Hpk.
Qed.

(** C3 (as amended).  Whatever order [range] walks maps in, and with
    fuel for the nesting of the target, [PrimaryKeyField] returns or
    panics.  When it returns: a cached field is returned as it is;
    otherwise the result comes from [Fields()], discovery with relation
    inference, run on the Scope itself (which memoizes the map [m] on the
    Scope) or, for a collection target, on a new Scope over a zero
    element.  The result is the first field flagged primary key in the
    order of [range] over that map: a flagged field of the map, cached on
    the Scope, or none exactly when no field of the map is flagged. *)
Theorem PrimaryKeyField_spec fuel scope w :
  let sc := scopes (heap w) !!! scope in
  scope ∈ dom (scopes (heap w)) →
  (∀ m, map_range E m ≡ₚ map_to_list m) →
  (PrimaryKeyField_fuel sc ≤ fuel)%nat →
  match Scope_PrimaryKeyField E fuel scope w with
  | OutOfFuel => False
  | Panic _ => True
  | Ok (r, w1) =>
      match primaryKeyField sc with
      | Some field => r = Some field ∧ w1 = w
      | None =>
          ∃ clone w0 m w2,
            (Kind_is_Slice (Value_Kind (Scope_indirect sc)) = false →
             clone = scope ∧ w0 = World_with_indirect scope w ∧
             fields (scopes (heap w1) !!! scope) = Some m) ∧
            (∀ v a, Scope_indirect sc = RV v a →
                    Kind_is_Slice (Value_Kind (Scope_indirect sc)) = true →
                    Scope_New scope (I (zero (Type_Elem (TypeOf v))))
                              (World_with_indirect scope w) = Ok (clone, w0)) ∧
            Scope_Fields E fuel clone [] w0 = Ok (m, w2) ∧
            let mm := default ∅ (fieldmaps (heap w2) !! m) in
            r = first_primary_key (map_range E mm) ∧
            primaryKeyField (scopes (heap w1) !!! scope) = r ∧
            (∀ field, r = Some field →
                      IsPrimaryKey field = true ∧ ∃ k, mm !! k = Some field) ∧
            (r = None ↔ ∀ k field, mm !! k = Some field → IsPrimaryKey field = false)
      end
  end.
Proof.
  intros sc Hs Hperm Hfuel.
  unfold Scope_PrimaryKeyField, bind at 1, load_Scope at 1. fold sc.
  destruct (primaryKeyField sc) as [field|] eqn:Hpk; [done|].
  unfold bind at 1. rewrite Scope_IndirectValue_spec. fold sc.
  pose proof (World_with_indirect_discovery None scope w Hs) as Hf1.
  destruct (frame_scope _ _ _ scope Hf1 Hs) as (Hs1 & Hiv1 & _ & _ & Hpk1).
  fold sc in Hiv1, Hpk1.
  set (w1 := World_with_indirect scope w) in *.
  (* the Scope that discovery runs on *)
  assert (Hclone : ∃ clone w0,
    (if Kind_is_Slice (Value_Kind (Scope_indirect sc))
     then t <- lift (Value_Type (Scope_indirect sc)) ;;;
          Scope_New scope (I (zero (Type_Elem t)))
     else ret scope) w1 = Ok (clone, w0) ∧
    clone ∈ dom (scopes (heap w0)) ∧
    Scope_indirect (scopes (heap w0) !!! clone) = PrimaryKeyField_target sc ∧
    discovery_frame None w1 w0 ∧
    (Kind_is_Slice (Value_Kind (Scope_indirect sc)) = false →
     clone = scope ∧ w0 = w1) ∧
    (Kind_is_Slice (Value_Kind (Scope_indirect sc)) = true →
     (clone ∉ dom (scopes (heap w1))) ∧
     ∀ v a, Scope_indirect sc = RV v a →
       Scope_New scope (I (zero (Type_Elem (TypeOf v)))) w1 = Ok (clone, w0))).
  { unfold PrimaryKeyField_target.
    destruct (Scope_indirect sc) as [|v a] eqn:Hiv; cbn [Value_Kind Kind_is_Slice].
    - exists scope, w1.
      split; [done|]. split; [done|]. split; [by rewrite Hiv1|].
      split; [apply frame_refl|]. by split.
    - destruct (Kind_is_Slice (Type_Kind (TypeOf v))) eqn:Hk.
      + cbn [Value_Type lift]. unfold bind at 1. cbn [lift].
        destruct (Scope_New_spec scope (I (zero (Type_Elem (TypeOf v)))) w1)
          as (clone & w0 & Hrun & Hnew & Hin & Hciv & _ & _ & _ & Hf0).
        exists clone, w0.
        split; [done|]. split; [done|]. split; [done|]. split; [exact Hf0|].
        split; [done|]. intros _. split; [done|].
        intros v' a' [= <- <-]. done.
      + exists scope, w1.
      split; [done|]. split; [done|]. split; [by rewrite Hiv1|].
      split; [apply frame_refl|]. by split. }
  destruct Hclone as (clone & w0 & Hrun & Hcin & Hciv & Hf0 & Hns & Hsl).
  unfold bind at 1. rewrite Hrun. unfold bind at 1.
  pose proof (Scope_Fields_ok fuel clone [] w0 Hcin) as Hwp.
  unfold wp in Hwp. rewrite Hciv in Hwp.
  unfold PrimaryKeyField_fuel in Hfuel. cbn [Fields_withRelation] in Hwp.
  destruct (Scope_Fields E fuel clone [] w0) as [[m w2]| |] eqn:HF; [|done|lia].
  destruct Hwp as (Hf2 & Hfields & _). cbn [Fields_withRelation] in Hf2.
  specialize (Hfields eq_refl).
  unfold bind at 1, load_fieldmap at 1.
  set (mm := default ∅ (fieldmaps (heap w2) !! m)).
  assert (Hs0 : scope ∈ dom (scopes (heap w0))).
  { by destruct (frame_scope _ _ _ scope Hf0 Hs1). }
  assert (Hpk2 : primaryKeyField (scopes (heap w2) !!! scope) = None).
  { destruct (frame_scope _ _ _ scope Hf0 Hs1) as (_ & _ & _ & _ & Hp0).
    destruct (frame_scope _ _ _ scope Hf2 Hs0) as (_ & _ & _ & _ & Hp2).
    by rewrite Hp2, Hp0, Hpk1. }
  assert (Hmem : ∀ k field, (k, field) ∈ map_range E mm ↔ mm !! k = Some field).
  { intros k field. rewrite (Hperm mm). apply elem_of_map_to_list. }
  destruct (first_primary_key (map_range E mm)) as [field|] eqn:Hfirst.
  - unfold bind, load_Scope, store_Scope, ret. cbn -[Scope_New Scope_Fields].
    exists clone, w0, m, w2. fold mm. rewrite Hfirst.
    split; [|split; [|split; [done|]]].
    + intros Hk. destruct (Hns Hk) as (-> & ->). repeat split.
      rewrite lookup_total_insert_eq. by cbn.
    + intros v a Hiv Hk. by apply (proj2 (Hsl Hk) v a).
    + rewrite lookup_total_insert_eq. cbn.
      split; [done|]. split; [done|]. split.
      * intros f [= <-]. apply first_primary_key_Some in Hfirst as (Hflag & k & Hin).
        split; [done|]. exists k. by apply Hmem.
      * split; [done|]. intros Hall.
        apply first_primary_key_Some in Hfirst as (Hflag & k & Hin).
        apply Hmem in Hin. by rewrite (Hall k field Hin) in Hflag.
  - unfold bind, load_Scope, ret. cbn -[Scope_New Scope_Fields]. rewrite Hpk2.
    exists clone, w0, m, w2. fold mm. rewrite Hfirst.
    split; [|split; [|split; [done|]]].
    + intros Hk. destruct (Hns Hk) as (-> & ->). by repeat split.
    + intros v a Hiv Hk. by apply (proj2 (Hsl Hk) v a).
    + split; [done|]. split; [done|]. split; [done|].
      split; [|done]. intros _ k field Hin.
      apply (proj1 (first_primary_key_None _) Hfirst k). by apply Hmem.
Qed.


End Proofs.

(** ** Transactions, on any Handle *)

Section Transactions.

Context (E : Env).

(** A successful [Begin], on any Handle. *)
Lemma Begin_spec scope w p tx :
  let d := dbs (heap w) !!! p in
  scope_db (scopes (heap w) !!! scope) = Some p →
  implements_sqlDb (db d) = true →
  sql_Begin E (db d) (trace w) = Some tx →
  ∃ w1, Scope_Begin E scope w = Ok (scope, w1) ∧
    scope_db (scopes (heap w1) !!! scope) = Some p ∧
    instanceId (scopes (heap w1) !!! scope) ≠ "" ∧
    dbs (heap w1) !!! p
    = DB_with_values
        (<["gorm:started_transaction" +:+ instanceId (scopes (heap w1) !!! scope)
           := Go_true]> (values d))
        (DB_with_db (SqlTx tx) d) ∧
    (∀ q, q ≠ p → dbs (heap w1) !!! q = dbs (heap w) !!! q) ∧
    (∀ other, other ≠ scope →
       scopes (heap w1) !!! other = scopes (heap w) !!! other) ∧
    trace w1 = (trace w ++ [EvBegin (db d)])%list.
Proof.
  intros d Hdb HisDb Hbegin. subst d.
  unfold Scope_Begin, Scope_DB, Scope_InstanceSet, Scope_handle, bind, load_DB,
    load_Scope, store_DB, get_trace, emit, ret.
  repeat first [rewrite Hdb | rewrite HisDb | rewrite Hbegin
               | progress cbn -[Scope_InstanceId]].
  match goal with |- context [Scope_InstanceId E scope ?w0] =>
    assert (Hother : ∀ id wi, Scope_InstanceId E scope w0 = Ok (id, wi) →
              ∀ other, other ≠ scope →
                scopes (heap wi) !!! other = scopes (heap w) !!! other);
    [|destruct (Scope_InstanceId_spec E scope w0)
        as (id & wi & Hrun & Hid & Hsid & Hsdb & Hdbs & Htr)]
  end.
  { intros id wi. unfold Scope_InstanceId, bind, load_Scope, store_Scope, ret. cbn.
    destruct (String.eqb _ ""); intros [= _ <-] other Hne; cbn; [|done].
    by rewrite lookup_total_insert_ne. }
  specialize (Hother _ _ Hrun). rewrite Hrun.
  cbn in Hsdb, Hdbs, Htr. rewrite Hdb in Hsdb.
  unfold Scope_Set, Scope_handle, DB_InstantSet, bind, load_DB, load_Scope,
    store_DB, ret.
  repeat first [rewrite Hsdb | progress cbn].
  eexists. split; [reflexivity|]. cbn.
  rewrite Hdbs, !lookup_total_insert_eq. cbn.
  rewrite Hsid, Hsdb, Htr.
  repeat split; try done.
  intros q Hq. by rewrite !lookup_total_insert_ne.
Qed.

(** [CommitOrRollback] on a Scope that holds the marker and whose Handle
    is on a transaction. *)
Lemma CommitOrRollback_marked scope p tx w :
  let sc := scopes (heap w) !!! scope in
  let d := dbs (heap w) !!! p in
  scope_db sc = Some p → instanceId sc ≠ "" →
  is_Some (values d !! ("gorm:started_transaction" +:+ instanceId sc)) →
  db d = SqlTx tx →
  ∃ w2, Scope_CommitOrRollback E scope w = Ok (scope, w2) ∧
    trace w2 = (trace w ++ [finish_event (Error d) (SqlTx tx)])%list ∧
    dbs (heap w2) !!! p = DB_with_db (db (dbs (heap w) !!! parent d)) d ∧
    (∀ q, q ≠ p → dbs (heap w2) !!! q = dbs (heap w) !!! q).
Proof.
  intros sc d Hdb Hid [m Hm] Hconn. subst sc d.
  unfold Scope_CommitOrRollback, Scope_InstanceGet, bind.
  rewrite (Scope_InstanceId_cached _ _ _ Hid).
  unfold Scope_Get, Scope_DB, Scope_HasError, Scope_handle, DB_Get, bind,
    load_DB, load_Scope, store_DB, emit, ret.
  destruct (Error (dbs (heap w) !!! p)) as [e|] eqn:He;
    repeat first [rewrite Hdb | rewrite Hm | rewrite Hconn | rewrite He
                 | progress cbn ];
    (eexists; split; [reflexivity|]; cbn; split; [reflexivity|]);
    (split; [by rewrite lookup_total_insert_eq|]);
    intros q Hq; by rewrite lookup_total_insert_ne.
Qed.

(** [CommitOrRollback] on a Scope without the marker. *)
Lemma CommitOrRollback_unmarked scope p w id wi :
  scope_db (scopes (heap w) !!! scope) = Some p →
  Scope_InstanceId E scope w = Ok (id, wi) →
  values (dbs (heap w) !!! p) !! ("gorm:started_transaction" +:+ id) = None →
  Scope_CommitOrRollback E scope w = Ok (scope, wi) ∧
  trace wi = trace w ∧ dbs (heap wi) = dbs (heap w).
Proof.
  intros Hdb Hrun Hnone.
  destruct (Scope_InstanceId_spec E scope w)
    as (id' & wi' & Heq & Hid & Hsid & Hsdb & Hdbs & Htr).
  rewrite Heq in Hrun. injection Hrun as -> ->.
  rewrite Hdb in Hsdb.
  unfold Scope_CommitOrRollback, Scope_InstanceGet, bind. rewrite Heq.
  unfold Scope_Get, Scope_handle, DB_Get, bind, load_DB, load_Scope, ret.
  rewrite Hsdb, Hdbs, Hnone. done.
Qed.


End Transactions.

(** ** The dispatch of hooks, receiver by receiver *)

Section Dispatch.

Context (E : Env).

Lemma DB_with_Error_same d : DB_with_Error (Error d) d = d.
Proof. by destruct d. Qed.

(** What [err] leaves of the Handle: its fields but for the error. *)
Lemma DB_err_Handle s err w w' r :
  DB_err E s err w = Ok (r, w') →
  dbs (heap w') !!! s
  = DB_with_Error (latched (Error (dbs (heap w) !!! s)) err) (dbs (heap w) !!! s).
Proof.
  unfold DB_err, latched.
  destruct err as [e|]; [|intros [= _ <-]; by rewrite DB_with_Error_same].
  destruct e as [|msg]; cbn [is_RecordNotFound negb andb].
  - unfold bind, load_DB, store_DB, ret. intros [= _ <-]. cbn.
    by rewrite lookup_total_insert_eq.
  - rewrite scanErrorRegexp_prefix. cbn [error_Error].
    unfold DB_log, go_DB_print, DB_print, bind, load_DB, store_DB, emit, ret.
    destruct (logMode (dbs (heap w) !!! s) =? 0)%Z;
      [|destruct (logMode (dbs (heap w) !!! s) =? 2)%Z];
      destruct (String.prefix scan_error_text msg); cbn;
      intros [= _ <-]; cbn;
      by rewrite ?lookup_total_insert_eq, ?DB_with_Error_same.
Qed.

Lemma Scope_Err_Handle scope p err w :
  scope_db (scopes (heap w) !!! scope) = Some p →
  ∃ w', Scope_Err E scope err w = Ok (err, w') ∧
    dbs (heap w') !!! p
    = DB_with_Error (latched (Error (dbs (heap w) !!! p)) err) (dbs (heap w) !!! p) ∧
    (∀ q, q ≠ p → dbs (heap w') !!! q = dbs (heap w) !!! q) ∧
    searches (heap w') = searches (heap w) ∧ scopes (heap w') = scopes (heap w) ∧
    fieldmaps (heap w') = fieldmaps (heap w) ∧
    calls_of (trace w') = calls_of (trace w).
Proof.
  intros Hdb.
  destruct (Scope_Err_frame E scope p err w Hdb) as (w' & Hrun & _ & H).
  exists w'. split; [done|]. split; [|done].
  revert Hrun. unfold Scope_Err. destruct err as [e|].
  - unfold bind at 1. rewrite (Scope_handle_Ok _ _ _ Hdb). unfold bind at 1.
    destruct (DB_err E p (Some e) w) as [[r w0]| |] eqn:Herr; try discriminate.
    intros [= <-]. by apply (DB_err_Handle _ _ _ _ _ Herr).
  - intros [= <-]. cbn. by rewrite DB_with_Error_same.
Qed.

(** The dispatch on one receiver. *)
Lemma CallMethod_call_step scope p name recv w :
  keeps_handle E scope name →
  scope_db (scopes (heap w) !!! scope) = Some p →
  ∃ w1, CallMethod_call E scope name (I recv) w = Ok (tt, w1) ∧
    scope_db (scopes (heap w1) !!! scope) = Some p ∧
    hook_step E scope name p recv w w1.
Proof.
  intros Hkeep Hdb. unfold CallMethod_call, hook_step. cbn [reflect_ValueOf].
  destruct (MethodByName E (TypeOf recv) name) as [fm|] eqn:Hfm;
    [|by exists w].
  unfold hook_start.
  destruct fm as [f|f|f|f|f|f|n f]; cbn [takes_Handle hook_result recognized fst snd].
  - unfold bind, emit, run_body. cbn.
    eexists. split; [reflexivity|]. cbn.
    rewrite calls_of_app, DB_with_Error_same.
    split; [|done].
    rewrite <- Hdb. apply (Hkeep _ _ recv p (heap w) Hfm).
  - unfold bind, emit, run_body. cbn.
    eexists. split; [reflexivity|]. cbn.
    rewrite calls_of_app, DB_with_Error_same.
    split; [|done].
    rewrite <- Hdb. apply (Hkeep _ _ recv scope (heap w) Hfm).
  - unfold bind at 1. rewrite (Scope_handle_Ok _ _ _ Hdb).
    destruct (DB_new_spec p w) as (p' & q & wn & Hnew & _ & _ & _ & _ & _ & _ & _ & _ & Hsc & _ & Htr).
    unfold bind at 1. rewrite Hnew.
    unfold bind, emit, run_body. cbn.
    eexists. split; [reflexivity|]. cbn.
    rewrite calls_of_app, DB_with_Error_same, Htr.
    split; [|done].
    rewrite <- Hdb, <- Hsc. apply (Hkeep _ _ recv p' (heap wn) Hfm).
  - unfold bind at 1. unfold emit at 1. unfold bind at 1. unfold run_body at 1.
    cbn [heap trace].
    destruct (f recv (heap w)) as [h' r] eqn:Hf.
    assert (Hdb' : scope_db (scopes h' !!! scope) = Some p).
    { rewrite <- Hdb. generalize (Hkeep _ _ recv p (heap w) Hfm). cbn. by rewrite Hf. }
    unfold bind at 1.
    destruct (Scope_Err_Handle scope p r (mkWorld h' (trace w ++ [EvCall name recv])))
      as (w1 & -> & Hp & Hq & Hs & Hsc & Hfs & Htr); [done|].
    cbn in *. exists w1. split; [done|].
    rewrite Hsc, Htr, calls_of_app. repeat split; try done; try reflexivity.
  - unfold bind at 1. unfold emit at 1. unfold bind at 1. unfold run_body at 1.
    cbn [heap trace].
    destruct (f recv scope (heap w)) as [h' r] eqn:Hf.
    assert (Hdb' : scope_db (scopes h' !!! scope) = Some p).
    { rewrite <- Hdb. generalize (Hkeep _ _ recv scope (heap w) Hfm). cbn. by rewrite Hf. }
    unfold bind at 1.
    destruct (Scope_Err_Handle scope p r (mkWorld h' (trace w ++ [EvCall name recv])))
      as (w1 & -> & Hp & Hq & Hs & Hsc & Hfs & Htr); [done|].
    cbn in *. exists w1. split; [done|].
    rewrite Hsc, Htr, calls_of_app. repeat split; try done; try reflexivity.
  - unfold bind at 1. rewrite (Scope_handle_Ok _ _ _ Hdb).
    destruct (DB_new_spec p w) as (p' & q & wn & Hnew & _ & _ & _ & _ & _ & _ & _ & _ & Hscn & _ & Htrn).
    unfold bind at 1. rewrite Hnew.
    unfold bind at 1. unfold emit at 1. unfold bind at 1. unfold run_body at 1.
    cbn [heap trace fst snd].
    destruct (f recv p' (heap wn)) as [h' r] eqn:Hf.
    assert (Hdb' : scope_db (scopes h' !!! scope) = Some p).
    { rewrite <- Hdb, <- Hscn. generalize (Hkeep _ _ recv p' (heap wn) Hfm). cbn.
      by rewrite Hf. }
    unfold bind at 1.
    destruct (Scope_Err_Handle scope p r (mkWorld h' (trace wn ++ [EvCall name recv])))
      as (w1 & -> & Hp & Hq & Hs & Hsc & Hfs & Htr); [done|].
    cbn in *. exists w1. split; [done|].
    rewrite Hsc, Htr, calls_of_app, Htrn. repeat split; try done; try reflexivity.
  - unfold bind at 1.
    destruct (Scope_Err_Handle scope p
                (Some (errors_New ("unsupported function " +:+ name))) w Hdb)
      as (w1 & -> & Hp & Hq & Hs & Hsc & Hfs & Htr).
    cbn in *. exists w1. split; [done|].
    rewrite Hsc, Htr, app_nil_r. repeat split; try done; try reflexivity.
Qed.

Lemma for_each_dispatched scope p name recvs : ∀ w,
  keeps_handle E scope name →
  scope_db (scopes (heap w) !!! scope) = Some p →
  ∃ w', for_each recvs (fun v => CallMethod_call E scope name (I v)) w = Ok (tt, w') ∧
    scope_db (scopes (heap w') !!! scope) = Some p ∧
    dispatched E scope name p recvs w w'.
Proof.
  induction recvs as [|recv recvs IH]; intros w Hkeep Hdb.
  - by exists w.
  - cbn [for_each dispatched]. unfold bind at 1.
    destruct (CallMethod_call_step scope p name recv w Hkeep Hdb)
      as (w1 & -> & Hdb1 & Hstep).
    destruct (IH w1 Hkeep Hdb1) as (w' & Hrun & Hdb' & Hd).
    exists w'. split; [done|]. split; [done|]. by exists w1.
Qed.

Lemma DB_new_derived p w :
  ∃ fresh wn, DB_new p w = Ok (fresh, wn) ∧ derived p fresh w wn.
Proof.
  destruct (DB_new_spec p w)
    as (p' & q & wn & Hnew & Hp' & Hne & Hq & Hd' & Hd & Hr & Hsq & Hsr & Hsc & Hfm & Htr).
  exists p', wn. split; [done|]. exists q. repeat split; try done.
  intros r Hin. apply Hsr. by intros ->.
Qed.

Lemma CallMethod_call_fresh scope p name recv w :
  keeps_handle E scope name →
  scope_db (scopes (heap w) !!! scope) = Some p →
  ∃ w1, CallMethod_call E scope name (I recv) w = Ok (tt, w1) ∧
    scope_db (scopes (heap w1) !!! scope) = Some p ∧
    fresh_step E scope name p recv w w1.
Proof.
  intros Hkeep Hdb.
  destruct (CallMethod_call_step scope p name recv w Hkeep Hdb)
    as (w1 & Hrun & Hdb1 & _).
  exists w1. split; [done|]. split; [done|].
  unfold fresh_step.
  destruct (MethodByName E (TypeOf recv) name) as [fm|] eqn:Hfm; [|done].
  destruct (fresh_Handle_body fm) as [body|] eqn:Hbody; cbn; rewrite Hbody; [|done].
  destruct (DB_new_derived p w) as (fresh & wn & Hnew & Hder).
  exists fresh, wn. split; [done|]. split; [done|].
  rewrite <- Hrun. symmetry. unfold CallMethod_call. cbn [reflect_ValueOf].
  rewrite Hfm.
  destruct fm; try discriminate Hbody; cbn in Hbody; injection Hbody as <-.
  - unfold bind at 1. rewrite (Scope_handle_Ok _ _ _ Hdb).
    unfold bind at 1. rewrite Hnew.
    unfold bind, emit, run_body, Scope_Err, ret. cbn. reflexivity.
  - unfold bind at 1. rewrite (Scope_handle_Ok _ _ _ Hdb).
    unfold bind at 1. rewrite Hnew. reflexivity.
Qed.

Lemma for_each_fresh scope p name recvs : ∀ w,
  keeps_handle E scope name →
  scope_db (scopes (heap w) !!! scope) = Some p →
  ∃ w', for_each recvs (fun v => CallMethod_call E scope name (I v)) w = Ok (tt, w') ∧
    fresh_dispatched E scope name p recvs w w'.
Proof.
  induction recvs as [|recv recvs IH]; intros w Hkeep Hdb.
  - by exists w.
  - cbn [for_each fresh_dispatched]. unfold bind at 1.
    destruct (CallMethod_call_fresh scope p name recv w Hkeep Hdb)
      as (w1 & -> & Hdb1 & Hstep).
    destruct (IH w1 Hkeep Hdb1) as (w' & Hrun & Hd).
    exists w'. split; [done|]. by exists w1.
Qed.

(** C7 (as amended).  For a collection target, [CallMethod] dispatches
    on the address of each element, in the order of the elements, each
    dispatch starting from the world the one before it left: the body of
    the hook runs once on each element that has it, and what it returns
    goes to [err] on the Scope's Handle, which stores it as the Handle's
    error unless its text starts with the scan-error text.  A failure
    does not end the walk: the calls in the trace are those of all the
    elements that have the hook.  For a nil target nothing happens. *)
Theorem CallMethod_collection scope name w p t elems a :
  let sc := scopes (heap w) !!! scope in
  is_Nil (scope_Value sc) = false →
  Scope_indirect sc = RV (VSlice t elems) a →
  Type_Kind t = Slice →
  scope_db sc = Some p →
  keeps_handle E scope name →
  (∃ w', Scope_CallMethod E scope name w = Ok (tt, w') ∧
     dispatched E scope name p (map VPtr elems) (World_with_indirect scope w) w' ∧
     calls_of (trace w')
     = (calls_of (trace w) ++ hook_calls E name (map VPtr elems))%list)
  ∧ (∀ w0, is_Nil (scope_Value (scopes (heap w0) !!! scope)) = true →
       Scope_CallMethod E scope name w0 = Ok (tt, w0)).
Proof.
  intros sc Hnil Hiv Hkind Hdb Hkeep. split.
  - rewrite Scope_CallMethod_unfold by done. fold sc.
    unfold hook_receivers. rewrite Hiv. cbn [Value_Kind TypeOf Value_elems].
    rewrite Hkind. cbn [Kind_is_Slice].
    destruct (World_with_indirect_scope scope w) as (_ & Hdb' & _).
    destruct (World_with_indirect_frame scope w) as (_ & _ & _ & Htr).
    fold sc in Hdb'. rewrite Hdb in Hdb'.
    destruct (for_each_dispatched scope p name (map VPtr elems)
                (World_with_indirect scope w) Hkeep Hdb') as (w' & Hrun & _ & Hd).
    destruct (for_each_calls E scope p name (map VPtr elems)
                (World_with_indirect scope w) Hkeep Hdb') as (w2 & Hrun2 & _ & Hcalls).
    rewrite Hrun in Hrun2. injection Hrun2 as <-.
    exists w'. split; [done|]. split; [done|]. by rewrite Hcalls, Htr.
  - intros w0 Hn. unfold Scope_CallMethod, bind, load_Scope. by rewrite Hn.
Qed.

(** C4 (as amended).  In every dispatch of [CallMethod], on a single
    target or on the elements of a collection, a method that takes a
    Handle is called with the Handle that [new] on the Scope's Handle has
    just made: a Handle at a new address, with the connection, the
    parent, the log mode, the value, the error and the settings of the
    Scope's Handle, and with a new, empty accumulator.  No accumulator
    that existed is changed and no Scope is, but the Scope's Handle has
    lost its reference to its accumulator when the body starts. *)
Theorem CallMethod_fresh_Handle scope name w p :
  let sc := scopes (heap w) !!! scope in
  is_Nil (scope_Value sc) = false →
  scope_db sc = Some p →
  keeps_handle E scope name →
  ∃ w', Scope_CallMethod E scope name w = Ok (tt, w') ∧
    fresh_dispatched E scope name p (hook_receivers sc)
                     (World_with_indirect scope w) w'.
Proof.
  intros sc Hnil Hdb Hkeep.
  rewrite Scope_CallMethod_unfold by done. fold sc.
  destruct (World_with_indirect_scope scope w) as (_ & Hdb' & _).
  fold sc in Hdb'. rewrite Hdb in Hdb'.
  apply (for_each_fresh scope p name (hook_receivers sc) _ Hkeep Hdb').
Qed.

End Dispatch.

(** * The statements on the example program *)

(** No hook of the example assigns the field [db] of a Scope. *)
Lemma ex_keeps_handle range scope name : keeps_handle (ex_Env range) scope name.
Proof.
  intros t fm recv arg h. cbn. unfold ex_MethodByName.
  repeat case_match; intros [= <-]; reflexivity.
Qed.

(** Both orders of [range] walk the entries of the map, each once. *)
Lemma range_forth_perm (m : gmap string Field) : range_forth m ≡ₚ map_to_list m.
Proof. reflexivity. Qed.

Lemma range_back_perm (m : gmap string Field) : range_back m ≡ₚ map_to_list m.
Proof. apply reverse_Permutation. Qed.



(** [err] on the example Handle, which has latched a first error. *)
Lemma DB_err_last_error_wins_witness :
  ∃ r w', DB_err exE 1 (Some (ErrorString "second"))
                 (World_with_Error 1 (Some (ErrorString "first")) ex_world)
          = Ok (r, w') ∧
    Error (dbs (heap w') !!! 1%nat) = Some (ErrorString "second").
Proof.
  apply (DB_err_last_error_wins exE 1 (ErrorString "first") (ErrorString "second")
           (World_with_Error 1 (Some (ErrorString "first")) ex_world)).
  reflexivity.
Defined.

(** C2, counterexample.  The Handle has latched a first error; a second,
    different error replaces it. *)
Lemma DB_err_overwrites :
  match DB_err exE 1 (Some (ErrorString "first")) ex_world with
  | Ok (_, w1) =>
      match DB_err exE 1 (Some (ErrorString "second")) w1 with
      | Ok (_, w2) =>
          Error (dbs (heap w1) !!! 1%nat) = Some (ErrorString "first") ∧
          Error (dbs (heap w2) !!! 1%nat) = Some (ErrorString "second")
      | _ => False
      end
  | _ => False
  end.
Proof. vm_compute. split; reflexivity. Qed.

(** [err] with a scan error on the example Handle. *)
Lemma DB_err_scan_error_witness :
  ∃ w', DB_err exE 1 (Some ex_scan_error) ex_world = Ok (None, w') ∧
    heap w' = heap ex_world.
Proof.
  destruct (DB_err_scan_error exE 1 ex_scan_error ex_world) as (w' & Hrun & Hh & _).
  - reflexivity.
  - exists w'. split; [exact Hrun | exact Hh].
Defined.

(** C5, counterexample.  [err] with a scan error returns nil, not the
    error it was given. *)
Lemma DB_err_scan_error_returns_nil :
  match DB_err exE 1 (Some ex_scan_error) ex_world with
  | Ok (r, w') => r = None ∧ r ≠ Some ex_scan_error
                  ∧ Error (dbs (heap w') !!! 1%nat) = None
  | _ => False
  end.
Proof. vm_compute. repeat split; congruence. Qed.

(** The Scopes of the example are at the addresses [0] to [3]. *)
Lemma ex_scope_allocated (scope : nat) :
  (scope < 4)%nat → scope ∈ dom (scopes (heap ex_world)).
Proof.
  intros H. apply elem_of_dom.
  destruct scope as [|[|[|[|?]]]]; [by eexists..|lia].
Qed.

(** [BeforeSave] on the Scope over two [User]s: both are called, and the
    Handle holds the failure of the last one. *)
Lemma CallMethod_collection_witness :
  ∃ w', Scope_CallMethod exE 1 "BeforeSave" ex_world = Ok (tt, w') ∧
    dispatched exE 1 "BeforeSave" 1 (map VPtr ex_users)
               (World_with_indirect 1 ex_world) w' ∧
    calls_of (trace w')
    = [EvCall "BeforeSave" (VPtr (ex_user 1 "ann"));
       EvCall "BeforeSave" (VPtr (ex_user 2 "bob"))] ∧
    Error (dbs (heap w') !!! 1%nat) = Some (ErrorString "invalid record").
Proof.
  destruct (CallMethod_collection exE 1 "BeforeSave" ex_world 1 Users_T ex_users true)
    as [(w' & Hrun & Hd & Hcalls) _].
  - reflexivity.
  - reflexivity.
  - reflexivity.
  - reflexivity.
  - apply ex_keeps_handle.
  - exists w'. split; [exact Hrun|]. split; [exact Hd|]. split; [exact Hcalls|].
    destruct Hd as (w1 & _ & w2 & (_ & He & _) & Hw').
    rewrite Hw'. exact (f_equal Error He).
Defined.

(** C7, counterexample.  The hook of both elements returns a failure
    whose text is that of a scan error: both are called, and the Handle
    holds no error after the dispatch. *)
Lemma CallMethod_scan_failure_dropped :
  match Scope_CallMethod ex_Env_scan_failure 1 "BeforeSave" ex_world with
  | Ok (_, w') =>
      calls_of (trace w')
      = [EvCall "BeforeSave" (VPtr (ex_user 1 "ann"));
         EvCall "BeforeSave" (VPtr (ex_user 2 "bob"))] ∧
      Error (dbs (heap ex_world) !!! 1%nat) = None ∧
      Error (dbs (heap w') !!! 1%nat) = None
  | _ => False
  end.
Proof. vm_compute. repeat split. Qed.

(** [Validate], a method that takes two arguments, on the Scope over a
    [User]. *)
Lemma CallMethod_unsupported_signature_witness :
  ∃ w', Scope_CallMethod exE 0 "Validate" ex_world = Ok (tt, w') ∧
    Error (dbs (heap w') !!! 1%nat)
    = Some (errors_New "unsupported function Validate") ∧
    calls_of (trace w') = [].
Proof.
  apply (CallMethod_unsupported_signature exE 0 "Validate" ex_world 1).
  - reflexivity.
  - reflexivity.
  - vm_compute. discriminate.
  - intros v _. eexists _, _. reflexivity.
Defined.

(** [AfterFind] on the Scope over two [User]s: a Handle is made for each
    of them; when the first body starts, the Scope's Handle has lost its
    accumulator reference and the Scopes are as they were. *)
Lemma CallMethod_fresh_Handle_witness :
  ∃ w', Scope_CallMethod exE 1 "AfterFind" ex_world = Ok (tt, w') ∧
    fresh_dispatched exE 1 "AfterFind" 1
      [VPtr (ex_user 1 "ann"); VPtr (ex_user 2 "bob")]
      (World_with_indirect 1 ex_world) w' ∧
    ∃ fresh wn,
      DB_new 1 (World_with_indirect 1 ex_world) = Ok (fresh, wn) ∧
      fresh ≠ 1%nat ∧
      search (dbs (heap wn) !!! 1%nat) = None ∧
      search (dbs (heap wn) !!! fresh) ≠ None ∧
      scopes (heap wn) = scopes (heap (World_with_indirect 1 ex_world)).
Proof.
  destruct (CallMethod_fresh_Handle exE 1 "AfterFind" ex_world 1)
    as (w' & Hrun & Hchain).
  - reflexivity.
  - reflexivity.
  - apply ex_keeps_handle.
  - exists w'. split; [exact Hrun|]. split; [exact Hchain|].
    change (fresh_dispatched exE 1 "AfterFind" 1
              [VPtr (ex_user 1 "ann"); VPtr (ex_user 2 "bob")]
              (World_with_indirect 1 ex_world) w') in Hchain.
    destruct Hchain as (w1 & (fresh & wn & Hnew & Hder & _) & _).
    destruct Hder as (q & _ & Hne & Hfresh & _ & _ & Hp & _ & _ & Hsc & _).
    exists fresh, wn. split; [exact Hnew|]. split; [exact Hne|].
    split; [exact (f_equal search Hp)|].
    split; [rewrite Hfresh; discriminate | exact Hsc].
Defined.

(** C4, counterexample.  Before the dispatch the Scope's Handle refers to
    the accumulator [0]; after it, to none. *)
Lemma CallMethod_drops_search :
  match Scope_CallMethod exE 0 "AfterFind" ex_world with
  | Ok (_, w') =>
      search (dbs (heap ex_world) !!! 1%nat) = Some 0%nat ∧
      search (dbs (heap w') !!! 1%nat) = None
  | _ => False
  end.
Proof. vm_compute. split; reflexivity. Qed.

(** [Set] of a string on a [NullInt64] field: [Scan] fails, [Set] does not. *)
Lemma Field_Set_scanner_witness :
  (ex_Scan (zero NullInt64_T) (Go_string "x")).2
  = Some (ErrorString "converting driver.Value type to a int64") ∧
  ∃ field, Field_Set exE ex_null_field (Go_string "x") ex_world
           = Ok ((field, None),
                 mkWorld (heap ex_world)
                         [EvScan (VPtr (zero NullInt64_T)) (Go_string "x")]).
Proof.
  split; [reflexivity|]. eexists.
  apply (Field_Set_scanner exE ex_null_field (Go_string "x") (Go_string "x")
           (zero NullInt64_T) ex_Scan ex_world); reflexivity.
Defined.

(** The table of [User] is [users]. *)
Lemma TableName_plural_witness :
  Scope_TableName exE 0 ex_world = Ok ("users", World_with_indirect 0 ex_world).
Proof.
  apply (TableName_plural exE 0 ex_world (ex_user 1 "ann") true); reflexivity.
Defined.

(** C8, counterexample.  The type [Bus]: the name [bus] ends in [s], the
    last rule leaves it as it is, where the list of the claim appends an
    [s]. *)
Lemma TableName_Bus :
  match Scope_TableName exE 3 ex_world with
  | Ok (name, _) => name = "bus" ∧ plural_as_specified "bus" = "buss"
  | _ => False
  end.
Proof. vm_compute. split; reflexivity. Qed.

(** On the Scope over a [User]: a second [Fields()] returns the map of
    the first one, and [Fields(false)] after it returns another one. *)
Lemma Fields_User :
  match Scope_Fields exE 4 0 [] ex_world with
  | Ok (m, w1) =>
      Scope_Fields exE 4 0 [] w1 = Ok (m, w1) ∧
      match Scope_Fields exE 4 0 [false] w1 with
      | Ok (m', w2) =>
          m' ≠ m ∧ fields (scopes (heap w2) !!! 0%nat) = Some m ∧
          fieldmaps (heap w2) !! m' = fieldmaps (heap w2) !! m
      | _ => False
      end
  | _ => False
  end.
Proof. vm_compute. repeat split. discriminate. Qed.

(** [PrimaryKeyField] on the Scope over a [User]. *)
Lemma PrimaryKeyField_spec_witness :
  match Scope_PrimaryKeyField exE 4 0 ex_world with
  | Ok (r, w1) => primaryKeyField (scopes (heap w1) !!! 0%nat) = r
  | _ => True
  end.
Proof.
  pose proof (PrimaryKeyField_spec exE 4 0 ex_world) as H.
  cbv zeta in H.
  specialize (H (ex_scope_allocated 0 ltac:(lia)) range_forth_perm
                ltac:(vm_compute; lia)).
  destruct (Scope_PrimaryKeyField exE 4 0 ex_world) as [[r w1]| |]; [|trivial..].
  change (primaryKeyField (scopes (heap ex_world) !!! 0%nat)) with (@None Field) in H.
  cbv beta iota in H.
  destruct H as (clone & w0 & m & w2 & _ & _ & _ & _ & Hr & _).
  exact Hr.
Defined.

(** C3, counterexample.  The type [Pair] declares the primary keys [A]
    and [B], in this order.  With a [range] that walks the map from its
    last key, [PrimaryKeyField] returns [B]; and the discovery has
    memoized its map on the Scope, as discovery with relation inference
    does. *)
Lemma PrimaryKeyField_Pair :
  match Scope_PrimaryKeyField (ex_Env range_back) 4 2 ex_world with
  | Ok (r, w1) =>
      Name <$> r = Some "B" ∧
      first_declared_primary_key (ex_Env range_back) Pair_T = Some "A" ∧
      fields (scopes (heap ex_world) !!! 2%nat) = None ∧
      is_Some (fields (scopes (heap w1) !!! 2%nat))
  | _ => False
  end.
Proof. vm_compute. repeat split. by eexists. Qed.

(** * More of the package: proofs *)

(** ** [strings] *)


Lemma string_ind2 (P : string → Prop) :
  P "" → (∀ c, P (String c "")) →
  (∀ a b s, P s → P (String b s) → P (String a (String b s))) →
  ∀ s, P s.
Proof.
  intros H0 H1 H2 s.
  assert (H : P s ∧ ∀ c, P (String c s)); [|apply H].
  induction s as [|b s [IH1 IH2]]; [by split|].
  split; [apply IH2|]. intros a. by apply H2.
Qed.

Lemma prefix2 a b s :
  String.prefix "$$" (String a (String b s)) = Ascii.eqb a "$" && Ascii.eqb b "$".
Proof.
  cbn [String.prefix].
  destruct (Ascii.eqb_spec a "$") as [->|Ha];
    destruct (Ascii.eqb_spec b "$") as [->|Hb]; cbn [andb];
    repeat match goal with
           | |- context [ascii_dec ?x ?y] => destruct (ascii_dec x y)
           end; try congruence; by destruct s.
Qed.

Lemma Replace_match s :
  Replace_from 0 (String "$" (String "$" s)) "$$" "?"
  = String "?" (Replace_from 0 s "$$" "?").
Proof.
  change (Replace_from 0 (String "$" (String "$" s)) "$$" "?")
    with (if String.prefix "$$" (String "$" (String "$" s))
          then "?" +:+ Replace_from 0 s "$$" "?"
          else String "$" (Replace_from 0 (String "$" s) "$$" "?")).
  by rewrite prefix2.
Qed.

Lemma Replace_skip a s :
  String.prefix "$$" (String a s) = false →
  Replace_from 0 (String a s) "$$" "?" = String a (Replace_from 0 s "$$" "?").
Proof.
  intros H.
  change (Replace_from 0 (String a s) "$$" "?")
    with (if String.prefix "$$" (String a s)
          then "?" +:+ Replace_from 1 s "$$" "?"
          else String a (Replace_from 0 s "$$" "?")).
  by rewrite H.
Qed.

(** What [Replace] leaves starts with [$] only if the text did. *)
Lemma Replace_head s t :
  Replace_from 0 s "$$" "?" = String "$" t → ∃ s', s = String "$" s'.
Proof.
  destruct s as [|a [|b s]]; [done| |].
  - rewrite Replace_skip; [intros [= -> _]; by eexists|].
    cbn [String.prefix]. by destruct (ascii_dec "$" a).
  - destruct (String.prefix "$$" (String a (String b s))) eqn:Hp.
    + rewrite prefix2 in Hp. apply andb_prop in Hp as [Ha Hb].
      apply Ascii.eqb_eq in Ha, Hb. subst. by rewrite Replace_match.
    + rewrite (Replace_skip _ _ Hp). intros [= -> _]. by eexists.
Qed.

Lemma Replace_no_dollars s :
  strings_Contains (strings_Replace s "$$" "?") "$$" = false.
Proof.
  unfold strings_Replace. induction s as [|c|a b s IH1 IH2] using string_ind2.
  - reflexivity.
  - rewrite Replace_skip by (cbn [String.prefix]; by destruct (ascii_dec "$" c)).
    cbn [Replace_from strings_Contains String.prefix orb].
    by destruct (ascii_dec "$" c).
  - destruct (String.prefix "$$" (String a (String b s))) eqn:Hp.
    + rewrite prefix2 in Hp. apply andb_prop in Hp as [Ha Hb].
      apply Ascii.eqb_eq in Ha, Hb. subst. rewrite Replace_match.
      cbn [strings_Contains]. by rewrite IH1.
    + rewrite (Replace_skip _ _ Hp). cbn [strings_Contains]. rewrite IH2.
      rewrite orb_false_r.
      destruct (Replace_from 0 (String b s) "$$" "?") as [|b' t] eqn:Hr;
        [cbn [String.prefix]; by destruct (ascii_dec "$" a)|].
      rewrite prefix2. apply andb_false_iff.
      destruct (Ascii.eqb_spec a "$") as [->|]; [right|by left].
      destruct (Ascii.eqb_spec b' "$") as [->|]; [|done].
      destruct (Replace_head _ _ Hr) as (s' & [= -> ->]).
      by rewrite prefix2 in Hp.
Qed.

Lemma Replace_nothing s :
  strings_Contains s "$$" = false → strings_Replace s "$$" "?" = s.
Proof.
  unfold strings_Replace. induction s as [|c s IH]; [done|].
  cbn [strings_Contains]. intros [Hp Hc]%orb_false_elim.
  rewrite (Replace_skip _ _ Hp). by rewrite IH.
Qed.

Lemma prefix_empty s : String.prefix "" s = true.
Proof. by destruct s. Qed.

Lemma prefix_dot c s : String.prefix "." (String c s) = Ascii.eqb c ".".
Proof.
  cbn [String.prefix]. rewrite prefix_empty.
  destruct (Ascii.eqb_spec c ".") as [->|Hc]; destruct (ascii_dec "." _); congruence.
Qed.

Lemma Split_dot s :
  Split_from 0 (String "." s) "." = ("", (Split_from 0 s ".").1 :: (Split_from 0 s ".").2).
Proof.
  change (Split_from 0 (String "." s) ".")
    with (if String.prefix "." (String "." s)
          then let '(p, ps) := Split_from 0 s "." in ("", p :: ps)
          else let '(p, ps) := Split_from 0 s "." in (String "." p, ps)).
  rewrite prefix_dot. cbn. by destruct (Split_from 0 s ".").
Qed.

Lemma Split_other c s :
  c ≠ "."%char →
  Split_from 0 (String c s) "."
  = (String c (Split_from 0 s ".").1, (Split_from 0 s ".").2).
Proof.
  intros Hc.
  change (Split_from 0 (String c s) ".")
    with (if String.prefix "." (String c s)
          then let '(p, ps) := Split_from 0 s "." in ("", p :: ps)
          else let '(p, ps) := Split_from 0 s "." in (String c p, ps)).
  rewrite prefix_dot. destruct (Ascii.eqb_spec c "."); [done|].
  by destruct (Split_from 0 s ".").
Qed.

Lemma Contains_dot c s :
  strings_Contains (String c s) "." = Ascii.eqb c "." || strings_Contains s ".".
Proof. cbn [strings_Contains]. by rewrite prefix_dot. Qed.

(** A piece without dot, and what follows it. *)
Lemma Split_piece p rest :
  strings_Contains p "." = false →
  Split_from 0 (p +:+ rest) "."
  = (p +:+ (Split_from 0 rest ".").1, (Split_from 0 rest ".").2).
Proof.
  induction p as [|c p IH]; intros Hp.
  - rewrite !append_nil_l. by destruct (Split_from 0 rest ".").
  - rewrite Contains_dot in Hp. apply orb_false_elim in Hp as [Hc Hp].
    apply Ascii.eqb_neq in Hc.
    rewrite !append_cons, Split_other by done. by rewrite IH.
Qed.

Lemma Split_no_dot p :
  strings_Contains p "." = false → Split_from 0 p "." = (p, []).
Proof.
  induction p as [|c p IH]; intros Hp; [done|].
  rewrite Contains_dot in Hp. apply orb_false_elim in Hp as [Hc Hp].
  apply Ascii.eqb_neq in Hc. rewrite Split_other by done. by rewrite IH.
Qed.

(** [Split] undoes [Join] on pieces that have no dot. *)
Lemma Split_Join parts :
  parts ≠ [] → Forall (fun p => strings_Contains p "." = false) parts →
  strings_Split (strings_Join parts ".") "." = parts.
Proof.
  unfold strings_Split, strings_Join.
  induction parts as [|p parts IH]; [done|]. intros _ Hall.
  apply Forall_cons in Hall as [Hp Hall].
  destruct parts as [|q parts].
  - cbn [String.concat]. by rewrite Split_no_dot.
  - change (String.concat "." (p :: q :: parts))
      with (p +:+ "." +:+ String.concat "." (q :: parts)).
    rewrite Split_piece by done.
    change ("." +:+ String.concat "." (q :: parts))
      with (String "." (String.concat "." (q :: parts))).
    rewrite Split_dot. cbn [fst snd]. rewrite append_empty_r.
    specialize (IH ltac:(done) Hall).
    destruct (Split_from 0 (String.concat "." (q :: parts)) ".") as [q' qs].
    cbn [fst snd]. by rewrite IH.
Qed.

(** The leftmost [$$]: what comes before it has no [$$] and does not end
    with a [$] that would start one. *)
Lemma Replace_leftmost a b :
  strings_Contains (a +:+ "$") "$$" = false →
  strings_Replace (a +:+ "$$" +:+ b) "$$" "?"
  = a +:+ "?" +:+ strings_Replace b "$$" "?".
Proof.
  unfold strings_Replace. induction a as [|c a IH]; intros Ha.
  - rewrite !append_nil_l. apply Replace_match.
  - rewrite !append_cons in *. cbn [strings_Contains] in Ha.
    apply orb_false_elim in Ha as [Hp Hc].
    rewrite Replace_skip; [by rewrite IH|].
    destruct a as [|d a].
    + rewrite append_nil_l in *. change ("$$" +:+ b) with (String "$" (String "$" b)).
      rewrite prefix2. change "$" with (String "$" "") in Hp at 2.
      rewrite prefix2 in Hp. by rewrite andb_true_r in Hp |- *.
    + rewrite append_cons in *. by rewrite prefix2 in Hp |- *.
Qed.

(** ** [Raw], [AddToVars] and [QuotedTableName] *)

Section Quoting.

Context (E : Env) (dialect : ptr → Dialect).

(** X1.  [Raw] stores the text with every [$$] replaced by [?], from the
    left: what it stores has no [$$] left; it is the text itself when the
    text has none; and when the text is [a], then its leftmost [$$], then
    [b], it is [a], then [?], then what [Raw] stores for [b].  Nothing
    but the [Sql] of the Scope changes. *)
Theorem Raw_placeholders scope sql w :
  ∃ w', Scope_Raw scope sql w = Ok (scope, w') ∧
    let stored := Sql (scopes (heap w') !!! scope) in
    strings_Contains stored "$$" = false ∧
    (strings_Contains sql "$$" = false → stored = sql) ∧
    (∀ a b, strings_Contains (a +:+ "$") "$$" = false →
            sql = a +:+ "$$" +:+ b →
            ∃ wb, Scope_Raw scope b w = Ok (scope, wb) ∧
              stored = a +:+ "?" +:+ Sql (scopes (heap wb) !!! scope)) ∧
    scopes (heap w')
    = <[scope := Scope_with_Sql stored (scopes (heap w) !!! scope)]> (scopes (heap w)) ∧
    dbs (heap w') = dbs (heap w) ∧ searches (heap w') = searches (heap w) ∧
    fieldmaps (heap w') = fieldmaps (heap w) ∧ trace w' = trace w.
Proof.
  unfold Scope_Raw, bind, load_Scope, store_Scope, ret. eexists.
  split; [reflexivity|]. cbn. rewrite lookup_total_insert_eq. cbn.
  split; [apply Replace_no_dollars|]. split; [apply Replace_nothing|].
  split; [|done].
  intros a b Ha ->. eexists. split; [reflexivity|]. cbn.
  rewrite lookup_total_insert_eq. cbn. by apply Replace_leftmost.
Qed.

Lemma Scope_Dialect_Ok scope p w :
  scope_db (scopes (heap w) !!! scope) = Some p →
  Scope_Dialect dialect scope w = Ok (dialect (parent (dbs (heap w) !!! p)), w).
Proof.
  intros Hp. unfold Scope_Dialect, bind.
  by rewrite (Scope_handle_Ok _ _ _ Hp).
Qed.

Lemma map_M_Quote scope p w keys :
  scope_db (scopes (heap w) !!! scope) = Some p →
  map_M (Scope_Quote dialect scope) keys w
  = Ok (map (Quote (dialect (parent (dbs (heap w) !!! p)))) keys, w).
Proof.
  intros Hp. induction keys as [|k keys IH]; [done|].
  cbn [map_M map]. unfold bind at 1. unfold Scope_Quote at 1. unfold bind at 1.
  rewrite (Scope_Dialect_Ok _ _ _ Hp). cbn. unfold bind. by rewrite IH.
Qed.

(** X3.  A table name that the accumulator gives is returned as it is, by
    [TableName] and by [QuotedTableName]: it is not quoted, and nothing is
    computed. *)
Theorem TableName_override_verbatim scope q w :
  Search (scopes (heap w) !!! scope) = Some q →
  TableName (searches (heap w) !!! q) ≠ "" →
  Scope_TableName E scope w = Ok (TableName (searches (heap w) !!! q), w) ∧
  Scope_QuotedTableName E dialect scope w
  = Ok (TableName (searches (heap w) !!! q), w).
Proof.
  intros Hq Hname.
  unfold Scope_TableName, Scope_QuotedTableName, bind, load_Scope, load_search, ret.
  rewrite Hq. cbn.
  destruct (TableName (searches (heap w) !!! q)) as [|c t] eqn:Ht; [done|].
  by cbn.
Qed.

(** X4.  Without a name on the accumulator: when [TableName] returns the
    pieces [parts] joined by dots, [QuotedTableName] returns the pieces
    quoted one by one by the dialect of the session, joined by dots. *)
Theorem QuotedTableName_parts scope parts p w w1 :
  TableName_override (heap w) (scopes (heap w) !!! scope) = "" →
  Scope_TableName E scope w = Ok (strings_Join parts ".", w1) →
  scope_db (scopes (heap w1) !!! scope) = Some p →
  parts ≠ [] → Forall (fun part => strings_Contains part "." = false) parts →
  Scope_QuotedTableName E dialect scope w
  = Ok (strings_Join (map (Quote (dialect (parent (dbs (heap w1) !!! p)))) parts) ".",
        w1).
Proof.
  intros Hover Hname Hp Hne Hparts.
  pose proof (map_M_Quote scope p w1 parts Hp) as Hq.
  unfold Scope_QuotedTableName, bind, load_Scope, load_search, ret in *.
  unfold TableName_override in Hover.
  destruct (Search (scopes (heap w) !!! scope)) as [q|]; cbn -[Scope_TableName];
    rewrite ?Hover; cbn -[Scope_TableName]; rewrite Hname, Split_Join by done;
    by rewrite Hq.
Qed.

(** X2.  Consecutive [AddToVars]: the values are appended to [SqlVars] in
    order, and the call for the value at position [i] (from 1) returns
    the variable [BinVar(i)] of the dialect. *)
Theorem AddToVars_numbering scope p vs w :
  scope_db (scopes (heap w) !!! scope) = Some p →
  let sc := scopes (heap w) !!! scope in
  ∃ w', map_M (Scope_AddToVars dialect scope) vs w
        = Ok (map (BinVar (dialect (parent (dbs (heap w) !!! p))))
                  (seq (S (length (SqlVars sc))) (length vs)), w') ∧
    SqlVars (scopes (heap w') !!! scope) = (SqlVars sc ++ vs)%list ∧
    Sql (scopes (heap w') !!! scope) = Sql sc ∧
    dbs (heap w') = dbs (heap w) ∧ trace w' = trace w.
Proof.
  intros Hp sc. subst sc. revert w Hp.
  induction vs as [|v vs IH]; intros w Hp.
  - eexists. split; [reflexivity|]. by rewrite app_nil_r.
  - cbn [map_M]. unfold bind at 1. unfold Scope_AddToVars at 1.
    unfold bind, load_Scope, store_Scope, ret. cbn.
    set (w1 := mkWorld _ _).
    assert (Hp1 : scope_db (scopes (heap w1) !!! scope) = Some p).
    { cbn. by rewrite lookup_total_insert_eq. }
    rewrite (Scope_Dialect_Ok _ _ _ Hp1). cbn.
    destruct (IH w1 Hp1) as (w' & Hrun & Hvars & Hsql & Hdbs & Htr).
    unfold bind in Hrun. rewrite Hrun. eexists. split; [|split; [|split]].
    + cbn. rewrite !lookup_total_insert_eq. cbn.
      rewrite length_app, Nat.add_1_r. reflexivity.
    + rewrite Hvars. cbn. rewrite lookup_total_insert_eq. cbn.
      by rewrite <- app_assoc.
    + rewrite Hsql. cbn. by rewrite lookup_total_insert_eq.
    + by rewrite Hdbs, Htr.
Qed.

End Quoting.

(** ** The Handle and [New] *)

Section Handles.

Context (E : Env).

(** X11.  [clone] leaves every Handle and every accumulator that exists as it
    is.  The clone is a new Handle with the connection, parent, log mode,
    value, error and settings of the receiver; its accumulator is a new
    object, a copy of the receiver's (an empty one when the receiver has
    none), that points back to the clone. *)
Theorem clone_independent s w :
  let d := dbs (heap w) !!! s in
  ∃ p q w', DB_clone s w = Ok (p, w') ∧
    (p ∉ dom (dbs (heap w))) ∧ (q ∉ dom (searches (heap w))) ∧
    dbs (heap w') !!! p
      = mkDB (db d) (parent d) (logMode d) (Value d) (Error d) (values d)
             (Some q) false "" ∧
    searches (heap w') !!! q
      = match search d with
        | Some q0 => search_with_db (Some p) (searches (heap w) !!! q0)
        | None => mkSearch (Some p) "" []
        end ∧
    (∀ r, r ∈ dom (dbs (heap w)) → dbs (heap w') !! r = dbs (heap w) !! r) ∧
    (∀ r, r ∈ dom (searches (heap w)) →
          searches (heap w') !! r = searches (heap w) !! r) ∧
    scopes (heap w') = scopes (heap w) ∧
    fieldmaps (heap w') = fieldmaps (heap w) ∧
    trace w' = trace w.
Proof.
  intros d. unfold DB_clone, search_clone, new_DB, new_search, bind, load_DB,
    store_DB, load_search, store_search, ret. cbn.
  set (p := fresh (dom (dbs (heap w)))).
  set (q := fresh (dom (searches (heap w)))).
  assert (Hp : p ∉ dom (dbs (heap w))) by apply is_fresh.
  assert (Hq : q ∉ dom (searches (heap w))) by apply is_fresh.
  fold d. destruct (search d) as [q0|]; cbn; fold q;
    rewrite !lookup_total_insert_eq; cbn;
    (eexists p, q, _; split; [reflexivity|]); cbn;
    rewrite !lookup_total_insert_eq;
    (repeat split; try done);
    intros r Hr; rewrite ?lookup_insert_ne; try done; by intros <-.
Qed.

(** X12.  What [err] logs.  The sentinel [RecordNotFound] and nil are not
    logged.  Any other error is logged once when the log mode is 0 (by a
    print that is not waited for) or 2 (through [log]), and not at all
    in another log mode. *)
Theorem err_logging s err w :
  ∃ r w', DB_err E s err w = Ok (r, w') ∧
    trace w'
    = (trace w ++
       match err with
       | None => []
       | Some e =>
           if is_RecordNotFound e then []
           else if (logMode (dbs (heap w) !!! s) =? 0)%Z
                then [EvGoPrint [LogStr (fileWithLineNum E); LogErr e]]
                else if (logMode (dbs (heap w) !!! s) =? 2)%Z
                     then [EvPrint [LogStr "log"; LogStr (fileWithLineNum E);
                                    LogErr e]]
                     else []
       end)%list.
Proof.
  unfold DB_err. destruct err as [e|]; [|eexists _, _; by rewrite app_nil_r].
  destruct e as [|msg]; cbn [is_RecordNotFound negb].
  - unfold bind, load_DB, store_DB, ret. eexists _, _. split; [reflexivity|].
    cbn. by rewrite app_nil_r.
  - unfold DB_log, go_DB_print, DB_print, bind, load_DB, store_DB, emit, ret.
    destruct (logMode (dbs (heap w) !!! s) =? 0)%Z;
      [|destruct (logMode (dbs (heap w) !!! s) =? 2)%Z];
      destruct (MatchString scanErrorRegexp (error_Error (ErrorString msg)));
      cbn; eexists _, _; (split; [reflexivity|]); cbn; by rewrite ?app_nil_r.
Qed.

(** X13.  A Scope made by [New] works on the Handle of the Scope it is made
    from, with an accumulator of its own, new and empty: an error set
    through the new Scope is the error the first Scope sees. *)
Theorem New_shares_Handle scope value e w p :
  scope_db (scopes (heap w) !!! scope) = Some p →
  latched None (Some e) = Some e →
  ∃ sub q w1 w2,
    Scope_New scope value w = Ok (sub, w1) ∧
    (sub ∉ dom (scopes (heap w))) ∧
    Search (scopes (heap w1) !!! sub) = Some q ∧
    (q ∉ dom (searches (heap w))) ∧
    searches (heap w1) !!! q = mkSearch None "" [] ∧
    scope_db (scopes (heap w1) !!! sub) = Some p ∧
    Scope_Err E sub (Some e) w1 = Ok (Some e, w2) ∧
    Scope_HasError scope w2 = Ok (true, w2) ∧
    Error (dbs (heap w2) !!! p) = Some e.
Proof.
  intros Hp He.
  unfold Scope_New, new_search, new_Scope, bind, load_Scope, store_search,
    store_Scope, ret. cbn.
  set (q := fresh (dom (searches (heap w)))).
  set (sub := fresh (dom (scopes (heap w)))).
  assert (Hq : q ∉ dom (searches (heap w))) by apply is_fresh.
  assert (Hsub : sub ∉ dom (scopes (heap w))) by apply is_fresh.
  set (w1 := mkWorld _ _).
  assert (Hsp : scope_db (scopes (heap w1) !!! sub) = Some p).
  { cbn. by rewrite lookup_total_insert_eq. }
  destruct (Scope_Err_frame E sub p (Some e) w1 Hsp)
    as (w2 & Hrun & Herr & _ & _ & Hsc & _).
  exists sub, q, w1, w2. split; [reflexivity|]. split; [done|].
  split; [cbn; by rewrite lookup_total_insert_eq|]. split; [done|].
  split; [cbn; by rewrite lookup_total_insert_eq|]. split; [done|].
  split; [done|].
  assert (Herr' : Error (dbs (heap w2) !!! p) = Some e).
  { rewrite Herr. unfold latched in *. destruct e as [|msg]; cbn in *; [done|].
    by destruct (String.prefix scan_error_text msg). }
  split; [|done].
  assert (Hne : scope ≠ sub).
  { intros ->. apply Hsub. apply elem_of_dom.
    destruct (scopes (heap w) !! sub) eqn:Hl; [done|].
    rewrite lookup_total_alt, Hl in Hp. done. }
  unfold Scope_HasError, Scope_handle, bind, load_Scope, load_DB, ret.
  rewrite Hsc. cbn. rewrite lookup_total_insert_ne by done. rewrite Hp. cbn.
  by rewrite Herr'.
Qed.

End Handles.

(** ** Settings and transactions *)

Lemma append_length a b : String.length (a +:+ b) = (String.length a + String.length b)%nat.
Proof. induction a as [|c a IH]; [done|]. rewrite append_cons. cbn. by rewrite IH. Qed.

Lemma append_suffix_ne name id : id ≠ "" → name +:+ id ≠ name.
Proof.
  intros Hid Heq. apply (f_equal String.length) in Heq.
  rewrite append_length in Heq. destruct id; [done|]. cbn in Heq. lia.
Qed.

Section Settings.

Context (E : Env).

Lemma Set_Get_frame scope other name value w p :
  scope_db (scopes (heap w) !!! scope) = Some p →
  scope_db (scopes (heap w) !!! other) = Some p →
  ∃ w', Scope_Set scope name value w = Ok (scope, w') ∧
    Scope_Get other name w' = Ok (Some value, w') ∧
    ∀ name', name' ≠ name →
      Scope_Get other name' w' = Ok (values (dbs (heap w) !!! p) !! name', w').
Proof.
  intros Hp Ho.
  unfold Scope_Set, Scope_Get, Scope_handle, DB_InstantSet, DB_Get, bind,
    load_Scope, load_DB, store_DB, ret.
  rewrite Hp. cbn. eexists. split; [reflexivity|]. cbn. rewrite Ho. cbn.
  rewrite lookup_total_insert_eq. cbn. rewrite lookup_insert_eq.
  split; [done|]. intros name' Hne. by rewrite lookup_insert_ne.
Qed.

(** X14.  A setting written by [Set] through one Scope is what [Get] returns
    for that name through every Scope on the same Handle; the other names
    keep their settings. *)
Theorem Set_then_Get scope other name value w p :
  scope_db (scopes (heap w) !!! scope) = Some p →
  scope_db (scopes (heap w) !!! other) = Some p →
  ∃ w', Scope_Set scope name value w = Ok (scope, w') ∧
    Scope_Get other name w' = Ok (Some value, w') ∧
    ∀ name', name' ≠ name →
      Scope_Get other name' w' = Ok (values (dbs (heap w) !!! p) !! name', w').
Proof. apply Set_Get_frame. Qed.

(** X15.  What [InstanceSet] stores under a name is what [InstanceGet] returns
    for it on the same Scope.  It is stored under the name followed by the
    id of the Scope: the setting of the name itself, which [Get] reads, is
    as before. *)
Theorem InstanceSet_then_InstanceGet scope name value w p :
  scope_db (scopes (heap w) !!! scope) = Some p →
  ∃ w', Scope_InstanceSet E scope name value w = Ok (scope, w') ∧
    Scope_InstanceGet E scope name w' = Ok (Some value, w') ∧
    Scope_Get scope name w' = Ok (values (dbs (heap w) !!! p) !! name, w').
Proof.
  intros Hp. unfold Scope_InstanceSet, Scope_InstanceGet. unfold bind at 1.
  destruct (Scope_InstanceId_spec E scope w)
    as (id & wi & -> & Hid & Hsid & Hsdb & Hdbs & Htr).
  rewrite Hp in Hsdb.
  destruct (Set_Get_frame scope scope (name +:+ id) value wi p Hsdb Hsdb)
    as (w' & Hset & Hget & Hother).
  exists w'. split; [done|].
  assert (Hid' : instanceId (scopes (heap w') !!! scope) = id).
  { revert Hset. unfold Scope_Set, Scope_handle, DB_InstantSet, bind,
      load_Scope, load_DB, store_DB, ret. rewrite Hsdb. cbn.
    by intros [= <-]. }
  unfold bind. rewrite Scope_InstanceId_cached by (by rewrite Hid').
  rewrite Hid'. split; [done|].
  rewrite Hother by (symmetry; by apply append_suffix_ne). by rewrite Hdbs.
Qed.

(** X16.  The id of a Scope is computed once: it is not empty, the Scope
    holds it after the call, a second call returns it again, and so does
    every later [InstanceId], in whatever world that has kept the Scope's
    [instanceId], changing nothing.  The first call changes no Handle and
    no other Scope, and nothing at all when the Scope held an id. *)
Theorem InstanceId_stable scope w :
  ∃ id w1, Scope_InstanceId E scope w = Ok (id, w1) ∧ id ≠ "" ∧
    instanceId (scopes (heap w1) !!! scope) = id ∧
    Scope_InstanceId E scope w1 = Ok (id, w1) ∧
    (∀ w2, instanceId (scopes (heap w2) !!! scope) = id →
           Scope_InstanceId E scope w2 = Ok (id, w2)) ∧
    (instanceId (scopes (heap w) !!! scope) ≠ "" →
     id = instanceId (scopes (heap w) !!! scope) ∧ w1 = w) ∧
    (∀ other, other ≠ scope →
       scopes (heap w1) !!! other = scopes (heap w) !!! other) ∧
    dbs (heap w1) = dbs (heap w) ∧ trace w1 = trace w.
Proof.
  destruct (Scope_InstanceId_spec E scope w)
    as (id & w1 & Hrun & Hid & Hsid & _ & Hdbs & Htr).
  assert (Hlater : ∀ w2, instanceId (scopes (heap w2) !!! scope) = id →
                         Scope_InstanceId E scope w2 = Ok (id, w2)).
  { intros w2 H2. rewrite Scope_InstanceId_cached by (by rewrite H2).
    by rewrite H2. }
  exists id, w1. split; [done|]. split; [done|]. split; [done|].
  split; [by apply Hlater|]. split; [done|]. split; [|split; [|done]].
  - intros Hne. rewrite (Scope_InstanceId_cached _ _ _ Hne) in Hrun.
    by injection Hrun as <- <-.
  - intros other Hne. revert Hrun.
    unfold Scope_InstanceId, bind, load_Scope, store_Scope, ret. cbn.
    destruct (String.eqb _ ""); intros [= _ <-]; cbn; [|done].
    by rewrite lookup_total_insert_ne.
Qed.

(** X17.  [Begin] on a connection that cannot begin a transaction (one that is
    a transaction already, for instance), or when the driver refuses:
    the stores are as before, there is no marker and the Handle keeps its
    connection.  The driver is asked only in the second case. *)
Theorem Begin_without_transaction scope w p :
  let c := db (dbs (heap w) !!! p) in
  scope_db (scopes (heap w) !!! scope) = Some p →
  implements_sqlDb c = false ∨ sql_Begin E c (trace w) = None →
  Scope_Begin E scope w
  = Ok (scope,
        mkWorld (heap w)
                (trace w ++ if implements_sqlDb c then [EvBegin c] else [])).
Proof.
  intros c Hp Hno.
  unfold Scope_Begin, Scope_DB, Scope_handle, bind, load_Scope, load_DB,
    get_trace, emit, ret.
  rewrite Hp. cbn. fold c.
  destruct (implements_sqlDb c) eqn:Hc; cbn.
  - destruct Hno as [?|Hno]; [done|]. by rewrite Hno.
  - rewrite app_nil_r. by destruct w.
Qed.

(** X18.  After [Begin] and [CommitOrRollback], when the connection of the
    session is not itself a transaction: a second [CommitOrRollback]
    does nothing: the transaction is not finished twice. *)
Theorem CommitOrRollback_once scope w p tx :
  let top := parent (dbs (heap w) !!! p) in
  scope_db (scopes (heap w) !!! scope) = Some p →
  top ≠ p →
  implements_sqlDb (db (dbs (heap w) !!! p)) = true →
  sql_Begin E (db (dbs (heap w) !!! p)) (trace w) = Some tx →
  implements_sqlTx (db (dbs (heap w) !!! top)) = false →
  ∃ w1 w2,
    Scope_Begin E scope w = Ok (scope, w1) ∧
    Scope_CommitOrRollback E scope w1 = Ok (scope, w2) ∧
    Scope_CommitOrRollback E scope w2 = Ok (scope, w2).
Proof.
  intros top Hp Htop HisDb Hbegin HnoTx. subst top.
  destruct (Begin_starts E scope w p tx Hp Htop HisDb Hbegin)
    as (w1 & Hrun & Hst & _ & _ & Hpar & Hothers).
  destruct Hst as (Hdb & Hid & [m Hm] & Hconn & Hpar1).
  exists w1.
  assert (Hfin : ∃ w2, Scope_CommitOrRollback E scope w1 = Ok (scope, w2) ∧
            scopes (heap w2) = scopes (heap w1) ∧
            dbs (heap w2)
            = <[p := DB_with_db (db (dbs (heap w1) !!! parent (dbs (heap w1) !!! p)))
                                (dbs (heap w1) !!! p)]> (dbs (heap w1))).
  { unfold Scope_CommitOrRollback, Scope_InstanceGet, bind.
    rewrite (Scope_InstanceId_cached _ _ _ Hid).
    unfold Scope_Get, Scope_DB, Scope_HasError, Scope_handle, DB_Get, bind,
      load_DB, load_Scope, store_DB, emit, ret.
    destruct (Error (dbs (heap w1) !!! p)) as [e|] eqn:He;
      repeat first [rewrite Hdb | rewrite Hm | rewrite Hconn | rewrite He
                   | progress cbn ];
      by eexists. }
  destruct Hfin as (w2 & Hfin & Hsc2 & Hdbs2).
  exists w2. split; [done|]. split; [done|].
  unfold Scope_CommitOrRollback, Scope_InstanceGet, bind.
  rewrite Scope_InstanceId_cached by (by rewrite Hsc2).
  unfold Scope_Get, Scope_DB, Scope_handle, DB_Get, bind, load_DB, load_Scope, ret.
  rewrite Hpar, (Hothers _ Htop) in Hdbs2.
  repeat first [rewrite Hsc2 | rewrite Hdb | rewrite Hdbs2 | rewrite Hm
               | rewrite HnoTx | rewrite lookup_total_insert_eq
               | progress cbn ].
  reflexivity.
Qed.

End Settings.

(** ** Plurals *)

Lemma append_assoc a b c : (a +:+ b) +:+ c = a +:+ (b +:+ c).
Proof. induction a as [|x a IH]; [done|]. by rewrite !append_cons, IH. Qed.

(** Two texts that are equal end alike. *)
Lemma append_inj_tail a b x y :
  String.length x = String.length y → a +:+ x = b +:+ y → x = y.
Proof.
  revert b. induction a as [|c a IH]; intros [|d b] Hlen Heq.
  - done.
  - apply (f_equal String.length) in Heq. rewrite append_nil_l in Heq.
    rewrite append_cons in Heq. cbn in Heq. rewrite append_length in Heq. lia.
  - apply (f_equal String.length) in Heq. rewrite append_nil_l in Heq.
    rewrite append_cons in Heq. cbn in Heq. rewrite append_length in Heq. lia.
  - rewrite !append_cons in Heq. injection Heq as _ Heq. by apply (IH b).
Qed.

Lemma strip_suffix_tail suf s x y u v :
  s = x +:+ y → suf = u +:+ v → String.length y = String.length v → y ≠ v →
  strip_suffix suf s = None.
Proof.
  intros -> -> Hlen Hne.
  destruct (strip_suffix (u +:+ v) (x +:+ y)) as [stem|] eqn:Hs; [|done].
  apply strip_suffix_app in Hs. rewrite <- append_assoc in Hs.
  by apply append_inj_tail in Hs.
Qed.

Lemma last_char_app s rep : rep ≠ "" → last_char (s +:+ rep) = last_char rep.
Proof.
  intros Hrep. induction s as [|c s IH]; [done|].
  rewrite append_cons. destruct (s +:+ rep) as [|c2 t] eqn:Ht.
  - destruct s; [by rewrite append_nil_l in Ht|done].
  - by rewrite last_char_cons.
Qed.

Lemma last_char_snoc s c : last_char s = Some c → ∃ s', s = s' +:+ String c "".
Proof.
  induction s as [|c1 s IH]; [done|]. destruct s as [|c2 s].
  - intros [= ->]. by exists "".
  - rewrite last_char_cons. intros H. destruct (IH H) as (s' & ->).
    by exists (String c1 s').
Qed.

(** A name that ends in [s] and that no suffix rule applies to is its own
    plural. *)
Lemma plural_word_fixed s :
  first_suffix_rule plural_suffix_rules s = None → last_char s = Some "s"%char →
  plural_word s = s.
Proof. intros H1 H2. unfold plural_word, plural_default. by rewrite H1, H2. Qed.

Lemma strip_suffix_last suf s stem :
  suf ≠ "" → strip_suffix suf s = Some stem → last_char s = last_char suf.
Proof.
  intros Hsuf Hs. apply strip_suffix_app in Hs as ->. by apply last_char_app.
Qed.

(** No suffix rule applies to a name that ends in [s], but not in [ss]. *)
Lemma no_suffix_rule s :
  last_char s = Some "s"%char → strip_suffix "ss" s = None →
  first_suffix_rule plural_suffix_rules s = None.
Proof.
  intros Hlast Hss. cbn [first_suffix_rule plural_suffix_rules]. rewrite Hss.
  repeat match goal with
  | |- context [strip_suffix ?suf s] =>
      let H := fresh in
      destruct (strip_suffix suf s) eqn:H;
        [apply strip_suffix_last in H; [by rewrite Hlast in H|done]|]
  end.
  done.
Qed.

Lemma suffix_rule_settled stem suf rep :
  rep = suf +:+ "es" ∨ rep = suf +:+ "ys" →
  first_suffix_rule plural_suffix_rules (stem +:+ rep) = None ∧
  last_char (stem +:+ rep) = Some "s"%char.
Proof.
  intros Hrep.
  assert (Hlast : last_char (stem +:+ rep) = Some "s"%char).
  { destruct Hrep as [-> | ->]; rewrite <- append_assoc; by rewrite last_char_app. }
  split; [|done]. apply no_suffix_rule; [done|].
  destruct Hrep as [-> | ->]; rewrite <- append_assoc.
  - by apply (strip_suffix_tail "ss" _ (stem +:+ suf) "es" "" "ss").
  - by apply (strip_suffix_tail "ss" _ (stem +:+ suf) "ys" "" "ss").
Qed.

Lemma plural_word_settled str :
  str ≠ "" →
  first_suffix_rule plural_suffix_rules (plural_word str) = None ∧
  last_char (plural_word str) = Some "s"%char.
Proof.
  intros Hne. unfold plural_word.
  cbn [first_suffix_rule plural_suffix_rules].
  destruct (strip_suffix "ch" str) as [stem|] eqn:Hch;
    [apply (suffix_rule_settled stem "ch"); by left|].
  destruct (strip_suffix "ss" str) as [stem|] eqn:Hss;
    [apply (suffix_rule_settled stem "ss"); by left|].
  destruct (strip_suffix "sh" str) as [stem|] eqn:Hsh;
    [apply (suffix_rule_settled stem "sh"); by left|].
  destruct (strip_suffix "day" str) as [stem|] eqn:Hday;
    [apply (suffix_rule_settled stem "da"); by right|].
  destruct (strip_suffix "y" str) as [stem|] eqn:Hy;
    [apply (suffix_rule_settled stem "i"); by left|].
  destruct (strip_suffix "x" str) as [stem|] eqn:Hx;
    [apply (suffix_rule_settled stem "x"); by left|].
  cbn [default]. unfold plural_default.
  destruct str as [|c0 str]; [done|].
  destruct (last_char_is_Some c0 str) as [c Hc]. rewrite Hc.
  destruct (Ascii.eqb_spec c "s") as [->|Hcs].
  - split; [|done]. by apply no_suffix_rule.
  - assert (Hlast : last_char (String c0 str +:+ "s") = Some "s"%char)
      by by rewrite last_char_app.
    split; [|done]. apply no_suffix_rule; [done|].
    destruct (last_char_snoc _ _ Hc) as (s' & ->). rewrite append_assoc.
    apply (strip_suffix_tail "ss" _ s' (String c "s") "" "ss"); try done.
    congruence.
Qed.

(** X9.  The plural of a plural is the plural itself: the names the loop over
    [pluralMapKeys] returns are left as they are by the loop; and the
    plural of a name that is not empty ends in [s]. *)
Theorem pluralize_idempotent str :
  pluralize (pluralize str) = pluralize str ∧
  (str ≠ "" → last_char (pluralize str) = Some "s"%char).
Proof.
  rewrite !pluralize_plural_word.
  destruct (decide (str = "")) as [->|Hne]; [done|].
  destruct (plural_word_settled str Hne) as [Hrule Hlast].
  split; [by apply plural_word_fixed|done].
Qed.

(** ** Table names and hooks *)

Section Table_names.

Context (E : Env) (dialect : ptr → Dialect).

(** [TableName] from the point where the value that names the table is
    known. *)
Lemma TableName_unfold scope w v a :
  let sc := scopes (heap w) !!! scope in
  TableName_override (heap w) sc = "" →
  is_Nil (scope_Value sc) = false →
  TableName_data sc = RV v a →
  Scope_TableName E scope w
  = (hooked <-
       match MethodByName E (TypeOf v) "TableName" with
       | Some fm =>
           results <- Value_Call0 fm "TableName" v ;;;
           match results with
           | r :: _ => ret (as_string r)
           | [] => ret None
           end
       | None => ret None
       end ;;;
     match hooked with
     | Some result => ret result
     | None =>
         let str := ToSnake E (Type_Name (TypeOf v)) in
         sc' <- load_Scope scope ;;;
         singular <-
           match scope_db sc' with
           | None => ret false
           | Some p =>
               d <- load_DB p ;;;
               top <- load_DB (parent d) ;;;
               ret (singularTable top)
           end ;;;
         if negb singular then
           match plural_from 0 pluralMapKeys str with
           | Some plural => ret plural
           | None => ret str
           end
         else ret str
     end) (World_with_indirect scope w).
Proof.
  intros sc Hover Hnil Hdata.
  unfold Scope_TableName, bind at 1, load_Scope at 1. fold sc.
  unfold bind at 1.
  assert (Ho : (match Search sc with
                | Some q => sr <- load_search q ;;; ret (TableName sr)
                | None => ret ""
                end) w = Ok ("", w)).
  { unfold TableName_override in Hover. destruct (Search sc); [|done].
    unfold bind, load_search, ret. by rewrite Hover. }
  rewrite Ho. cbn [String.length Nat.ltb Nat.leb]. rewrite Hnil.
  unfold bind at 1. rewrite Scope_IndirectValue_spec. fold sc.
  unfold TableName_data in Hdata.
  destruct (Kind_is_Slice (Value_Kind (Scope_indirect sc))) eqn:Hk.
  - destruct (Scope_indirect sc) as [|v0 a0]; [done|]. by rewrite Hdata.
  - by rewrite Hdata.
Qed.

(** X6.  With [singularTable] set on the session, the table is named by the
    snake-cased type name as it is: no plural is formed. *)
Theorem TableName_singular scope w v a :
  let sc := scopes (heap w) !!! scope in
  TableName_override (heap w) sc = "" →
  is_Nil (scope_Value sc) = false →
  TableName_data sc = RV v a →
  MethodByName E (TypeOf v) "TableName" = None →
  singular_tables (heap w) sc = true →
  Scope_TableName E scope w
  = Ok (ToSnake E (Type_Name (TypeOf v)), World_with_indirect scope w).
Proof.
  intros sc Hover Hnil Hdata Hhook Hsing.
  rewrite (TableName_unfold scope w v a Hover Hnil Hdata), Hhook.
  destruct (World_with_indirect_scope scope w) as (_ & Hdb & _).
  destruct (World_with_indirect_frame scope w) as (Hdbs & _).
  unfold bind, load_Scope, load_DB, ret. cbn beta iota. rewrite Hdb. fold sc.
  unfold singular_tables in Hsing.
  destruct (scope_db sc); [|done]. by rewrite Hdbs, Hsing.
Qed.

(** X7.  A method [TableName() string] of the type names the table: its
    result is returned as it is, neither snake-cased nor made plural. *)
Theorem TableName_method scope w v a f h name rest :
  let sc := scopes (heap w) !!! scope in
  TableName_override (heap w) sc = "" →
  is_Nil (scope_Value sc) = false →
  TableName_data sc = RV v a →
  MethodByName E (TypeOf v) "TableName" = Some (func_other 0 f) →
  f v (heap (World_with_indirect scope w)) = (h, Go_string name :: rest) →
  Scope_TableName E scope w
  = Ok (name, mkWorld h (trace w ++ [EvCall "TableName" v])).
Proof.
  intros sc Hover Hnil Hdata Hhook Hf.
  rewrite (TableName_unfold scope w v a Hover Hnil Hdata), Hhook.
  destruct (World_with_indirect_frame scope w) as (_ & _ & _ & Htr).
  unfold Value_Call0, bind, emit, run_body, ret. cbn. by rewrite Hf, Htr.
Qed.

(** X8.  A method [TableName] that takes arguments makes [TableName] panic:
    it is called with none. *)
Theorem TableName_method_panics scope w v a n f :
  let sc := scopes (heap w) !!! scope in
  TableName_override (heap w) sc = "" →
  is_Nil (scope_Value sc) = false →
  TableName_data sc = RV v a →
  MethodByName E (TypeOf v) "TableName" = Some (func_other (S n) f) →
  Scope_TableName E scope w = Panic "reflect: Call with too few input arguments".
Proof.
  intros sc Hover Hnil Hdata Hhook.
  by rewrite (TableName_unfold scope w v a Hover Hnil Hdata), Hhook.
Qed.

(** X5.  On a Scope without a target and without a name on its accumulator,
    [TableName] returns the empty name and sets the error
    [can't get table name] on the Handle; [QuotedTableName] then returns
    the quoted empty name. *)
Theorem TableName_nil_Value scope w p :
  let sc := scopes (heap w) !!! scope in
  TableName_override (heap w) sc = "" →
  scope_Value sc = Nil →
  scope_db sc = Some p →
  ∃ w', Scope_TableName E scope w = Ok ("", w') ∧
    Error (dbs (heap w') !!! p) = Some (errors_New "can't get table name") ∧
    scopes (heap w') = scopes (heap w) ∧
    Scope_QuotedTableName E dialect scope w
    = Ok (Quote (dialect (parent (dbs (heap w') !!! p))) "", w').
Proof.
  intros sc Hover Hnil Hp.
  assert (Ho : (match Search sc with
                | Some q => sr <- load_search q ;;; ret (TableName sr)
                | None => ret ""
                end) w = Ok ("", w)).
  { unfold TableName_override in Hover. destruct (Search sc); [|done].
    unfold bind, load_search, ret. by rewrite Hover. }
  destruct (Scope_Err_frame E scope p (Some (errors_New "can't get table name")) w Hp)
    as (w' & Hrun & Herr & _ & _ & Hsc & _).
  assert (Hname : Scope_TableName E scope w = Ok ("", w')).
  { unfold Scope_TableName, bind at 1, load_Scope at 1. fold sc.
    unfold bind at 1. rewrite Ho. cbn [String.length Nat.ltb Nat.leb].
    rewrite Hnil. cbn [is_Nil]. unfold bind. by rewrite Hrun. }
  exists w'. split; [done|]. split; [by rewrite Herr|]. split; [done|].
  assert (Hp' : scope_db (scopes (heap w') !!! scope) = Some p) by by rewrite Hsc.
  pose proof (map_M_Quote dialect scope p w' [""] Hp') as Hq.
  unfold Scope_QuotedTableName, bind at 1, load_Scope at 1. fold sc.
  unfold bind at 1. rewrite Ho. cbn [String.length Nat.ltb Nat.leb].
  unfold bind at 1. rewrite Hname.
  change (strings_Split "" ".") with [""]. unfold bind. by rewrite Hq.
Qed.

(** X10.  A Scope made by [NewScope] reads the accumulator of its Handle: the
    table named there is the table of the Scope, whatever its target. *)
Theorem NewScope_TableName p value q w :
  search (dbs (heap w) !!! p) = Some q →
  TableName (searches (heap w) !!! q) ≠ "" →
  ∃ scope w', DB_NewScope p value w = Ok (scope, w') ∧
    (scope ∉ dom (scopes (heap w))) ∧
    Value (dbs (heap w') !!! p) = value ∧
    Scope_TableName E scope w' = Ok (TableName (searches (heap w) !!! q), w').
Proof.
  intros Hq Hname.
  unfold DB_NewScope, new_Scope, bind, load_DB, store_DB, store_Scope, ret. cbn.
  eexists _, _. split; [reflexivity|]. split; [apply is_fresh|]. cbn.
  rewrite lookup_total_insert_eq. split; [done|].
  unfold Scope_TableName, bind, load_Scope, load_search, ret. cbn.
  rewrite lookup_total_insert_eq. cbn. rewrite Hq. cbn.
  destruct (TableName (searches (heap w) !!! q)) as [|c t]; [done|]. by cbn.
Qed.

(** X19.  When no receiver of the dispatch has a method of the name,
    [CallMethod] calls nothing: it ends in the world in which
    [IndirectValue] has filled its cache. *)
Theorem CallMethod_without_method scope name w :
  let sc := scopes (heap w) !!! scope in
  is_Nil (scope_Value sc) = false →
  (∀ v, v ∈ hook_receivers sc → MethodByName E (TypeOf v) name = None) →
  Scope_CallMethod E scope name w = Ok (tt, World_with_indirect scope w).
Proof.
  intros sc Hnil Hnone. rewrite Scope_CallMethod_unfold by done. fold sc.
  generalize (World_with_indirect scope w).
  induction (hook_receivers sc) as [|v vs IH]; intros w0; [done|].
  cbn [for_each]. unfold bind, CallMethod_call. cbn [reflect_ValueOf].
  rewrite (Hnone v) by (apply elem_of_cons; by left). cbn [ret].
  apply IH. intros v' Hv'. apply Hnone. apply elem_of_cons; by right.
Qed.

End Table_names.

(** ** [Field.Set], the primary key, [FieldByName] *)

Lemma wp_any {A} (m : M A) w (Q : A → World → Prop) :
  (∀ a w', m w = Ok (a, w') → Q a w') → wp True m w Q.
Proof. intros H. unfold wp. destruct (m w) as [[a w']| |]; [by apply H|done..]. Qed.

Section Field_values.

Context (E : Env).

(** X20.  When [Set] returns an error, it has done nothing: the field is as it
    was and [Scan] was not called.  The error is one of three: the field
    is not valid; it is valid and not addressable; or it is addressable,
    is no scanner, and the type of the value does not convert to its
    type. *)
Theorem Field_Set_failure field value w field' e w' :
  Field_Set E field value w = Ok ((field', Some e), w') →
  field' = field ∧ w' = w ∧
  (e = errors_New "field value not valid"
     ∧ Value_IsValid (field_Field field) = false
   ∨ e = errors_New "field value not addressable"
     ∧ Value_IsValid (field_Field field) = true
     ∧ Value_CanAddr (field_Field field) = false
   ∨ e = errors_New "could not convert argument"
     ∧ ∃ cur arg vt, field_Field field = RV cur true
         ∧ supplied_value value = Some arg
         ∧ Scanner E (TypeOf cur) = None
         ∧ reflect_TypeOf arg = Some vt
         ∧ ConvertibleTo E vt (TypeOf cur) = false).
Proof.
  unfold Field_Set.
  destruct (Value_IsValid (field_Field field)) eqn:Hv; cbn [negb];
    [|intros [= <- <- <-]; split; [done|]; split; [done|]; left; by split].
  destruct (Value_CanAddr (field_Field field)) eqn:Ha; cbn [negb];
    [|intros [= <- <- <-]; split; [done|]; split; [done|]; right; left;
      by repeat split].
  destruct (field_Field field) as [|cur a] eqn:Hf; [done|]. cbn in Ha. subst a.
  assert (Hsup : ∀ arg wa,
    (match value with
     | IReflect rvalue => Value_Interface rvalue
     | _ => ret value
     end) w = Ok (arg, wa) → supplied_value value = Some arg ∧ wa = w).
  { intros arg wa. destruct value as [| | |[|]]; cbn; by intros [= <- <-]. }
  unfold bind.
  destruct (match value with
            | IReflect rvalue => Value_Interface rvalue
            | _ => ret value
            end w) as [[arg wa]| |] eqn:Harg; [|done..].
  destruct (Hsup _ _ eq_refl) as [Hs ->].
  destruct (Scanner E (TypeOf cur)) as [scan|] eqn:Hscan.
  { unfold emit, ret. cbn. by destruct (scan cur arg). }
  destruct (reflect_TypeOf arg) as [vt|] eqn:Hvt; [|done].
  destruct (ConvertibleTo E vt (TypeOf cur)) eqn:Hc.
  - by destruct (reflect_ValueOf arg).
  - intros [= <- <- <-]. split; [done|]. split; [done|]. right. right.
    split; [done|]. by exists cur, arg, vt.
Qed.

(** X21.  When [Set] returns nil, the flag [IsBlank] of the field is the one
    of the value the field now has; the field is addressable as before,
    and the rest of its description is unchanged. *)
Theorem Field_Set_success field value w field' w' :
  Field_Set E field value w = Ok ((field', None), w') →
  IsBlank field' = isBlank E (field_Field field') ∧
  Value_CanAddr (field_Field field') = true ∧
  Name field' = Name field ∧ DBName field' = DBName field ∧
  Tag field' = Tag field ∧ Relationship field' = Relationship field ∧
  IsNormal field' = IsNormal field ∧ IsIgnored field' = IsIgnored field ∧
  IsPrimaryKey field' = IsPrimaryKey field ∧
  DefaultValue field' = DefaultValue field.
Proof.
  unfold Field_Set.
  destruct (Value_IsValid (field_Field field)) eqn:Hv; cbn [negb]; [|done].
  destruct (Value_CanAddr (field_Field field)) eqn:Ha; cbn [negb]; [|done].
  destruct (field_Field field) as [|cur a] eqn:Hf; [done|]. cbn in Ha. subst a.
  unfold bind.
  destruct (match value with
            | IReflect rvalue => Value_Interface rvalue
            | _ => ret value
            end w) as [[arg wa]| |] eqn:Harg; [|done..].
  destruct (Scanner E (TypeOf cur)) as [scan|] eqn:Hscan.
  { unfold emit, ret. cbn. destruct (scan cur arg) as [cur' r].
    intros [= <- <-]. by cbn. }
  destruct (reflect_TypeOf arg) as [vt|] eqn:Hvt; [|done].
  destruct (ConvertibleTo E vt (TypeOf cur)) eqn:Hc; [|done].
  destruct (reflect_ValueOf arg); [done|]. intros [= <- <-]. by cbn.
Qed.

(** X22.  The value [Set] is given, on a valid and addressable field: a
    [reflect.Value] is unboxed, and set as the value it holds; the zero
    [reflect.Value] makes [Set] panic; and nil makes it panic when the
    field is no scanner (the type of nil is nil, and [ConvertibleTo] is
    called on it). *)
Theorem Field_Set_argument field cur w :
  field_Field field = RV cur true →
  (∀ v a, Field_Set E field (IReflect (RV v a)) w = Field_Set E field (I v) w) ∧
  Field_Set E field (IReflect RInvalid) w
  = Panic "reflect: call of reflect.Value.Interface on zero Value" ∧
  (Scanner E (TypeOf cur) = None →
   Field_Set E field Nil w = Panic "nil pointer dereference").
Proof.
  intros Hf. split; [done|]. unfold Field_Set. rewrite Hf. cbn.
  split; [done|]. by intros ->.
Qed.

(** Where the primary key field ends up. *)
Lemma PrimaryKeyField_stored fuel scope w :
  wp True (Scope_PrimaryKeyField E fuel scope) w
     (fun r w' => primaryKeyField (scopes (heap w') !!! scope) = r).
Proof.
  unfold Scope_PrimaryKeyField. apply wp_bind, wp_load_Scope.
  destruct (primaryKeyField (scopes (heap w) !!! scope)) as [field|] eqn:Hpk;
    [by apply wp_ret|].
  apply wp_bind, wp_any. intros iv w1 _.
  apply wp_bind, wp_any. intros clone w2 _.
  apply wp_bind, wp_any. intros m w3 _.
  apply wp_bind, wp_load_fieldmap.
  destruct (first_primary_key _) as [field|].
  - apply wp_bind, wp_load_Scope. apply wp_bind, wp_store_Scope. apply wp_ret.
    cbn. by rewrite lookup_total_insert_eq.
  - apply wp_bind, wp_load_Scope. by apply wp_ret.
Qed.

(** X23.  Once [PrimaryKeyField] has found a field, the Scope keeps it: every
    later [PrimaryKeyField] returns this field, [PrimaryKey] its column
    and [PrimaryKeyValue] its value, without another discovery (the world
    stays as it is, whatever the fuel). *)
Theorem PrimaryKey_cached fuel scope w field w1 :
  Scope_PrimaryKeyField E fuel scope w = Ok (Some field, w1) →
  ∀ fuel',
    Scope_PrimaryKeyField E fuel' scope w1 = Ok (Some field, w1) ∧
    Scope_PrimaryKey E fuel' scope w1 = Ok (DBName field, w1) ∧
    Scope_PrimaryKeyValue E fuel' scope w1 = Value_Interface (field_Field field) w1.
Proof.
  intros Hrun fuel'.
  pose proof (wp_inv_Ok _ _ _ _ _ _ (PrimaryKeyField_stored fuel scope w) Hrun) as Hpk.
  cbn beta in Hpk.
  assert (Hagain : Scope_PrimaryKeyField E fuel' scope w1 = Ok (Some field, w1)).
  { unfold Scope_PrimaryKeyField, bind, load_Scope. by rewrite Hpk. }
  split; [done|].
  unfold Scope_PrimaryKey, Scope_PrimaryKeyValue, bind. by rewrite Hagain.
Qed.

(** Without a primary key: [PrimaryKey] is the empty name and
    [PrimaryKeyValue] the number 0, and [PrimaryKeyZero] says whether 0
    is blank. *)
Lemma PrimaryKey_absent fuel scope w w1 :
  Scope_PrimaryKeyField E fuel scope w = Ok (None, w1) →
  Scope_PrimaryKey E fuel scope w = Ok ("", w1) ∧
  Scope_PrimaryKeyValue E fuel scope w = Ok (int_0, w1) ∧
  Scope_PrimaryKeyZero E fuel scope w
  = Ok (isBlank E (RV (VBasic (TBasic KInt "int") (BInt 0)) false), w1).
Proof.
  intros Hrun.
  unfold Scope_PrimaryKeyZero, Scope_PrimaryKey, Scope_PrimaryKeyValue, bind.
  by rewrite Hrun.
Qed.

Lemma first_named_Some name l f :
  first_named name l = Some f → Name f = name ∧ ∃ k, (k, f) ∈ l.
Proof.
  unfold first_named. destruct (find _ l) as [[k f']|] eqn:Hfind; [|done].
  intros [= <-]. apply find_some in Hfind as [Hin Hname]. cbn in Hname.
  apply String.eqb_eq in Hname. split; [done|]. exists k. by apply list_elem_of_In.
Qed.

Lemma first_named_None name l :
  first_named name l = None ↔ ∀ k f, (k, f) ∈ l → Name f ≠ name.
Proof.
  unfold first_named. split.
  - destruct (find _ l) as [[k f']|] eqn:Hfind; [done|]. intros _ k f Hin Hname.
    apply list_elem_of_In in Hin.
    pose proof (find_none _ _ Hfind _ Hin) as Hf. cbn in Hf.
    apply String.eqb_neq in Hf. done.
  - intros Hall. destruct (find _ l) as [[k f']|] eqn:Hfind; [|done].
    apply find_some in Hfind as [Hin Hname]. cbn in Hname.
    apply String.eqb_eq in Hname. apply list_elem_of_In in Hin.
    by destruct (Hall _ _ Hin).
Qed.

(** X24.  [FieldByName] runs [Fields()] and looks through the map it returns,
    in the order of [range]: a field it returns has the name and is in
    the map, and it returns none exactly when no field of the map has the
    name. *)
Theorem FieldByName_spec fuel scope name w m w1 :
  (∀ mm, map_range E mm ≡ₚ map_to_list mm) →
  Scope_Fields E fuel scope [] w = Ok (m, w1) →
  let mm := default ∅ (fieldmaps (heap w1) !! m) in
  ∃ r, Scope_FieldByName E fuel scope name w = Ok (r, w1) ∧
    (∀ f, r = Some f → Name f = name ∧ ∃ k, mm !! k = Some f) ∧
    (r = None ↔ ∀ k f, mm !! k = Some f → Name f ≠ name).
Proof.
  intros Hrange Hrun mm.
  exists (first_named name (map_range E mm)).
  split; [unfold Scope_FieldByName, bind, load_fieldmap, ret; by rewrite Hrun|].
  split.
  - intros f Hf. apply first_named_Some in Hf as [Hname [k Hin]].
    split; [done|]. exists k. rewrite Hrange in Hin.
    by apply elem_of_map_to_list in Hin.
  - rewrite first_named_None. split; intros H k f Hin.
    + apply (H k). rewrite Hrange. by apply elem_of_map_to_list.
    + apply (H k). rewrite Hrange in Hin. by apply elem_of_map_to_list in Hin.
Qed.

End Field_values.

(** ** The map of fields *)

Lemma wp_and {A} oof (m : M A) w (Q1 Q2 : A → World → Prop) :
  wp oof m w Q1 → wp oof m w Q2 → wp oof m w (fun a w' => Q1 a w' ∧ Q2 a w').
Proof. unfold wp. destruct (m w) as [[a w']| |]; by auto. Qed.

Lemma keyed_insert mm field :
  keyed_by_DBName mm → keyed_by_DBName (<[DBName field := field]> mm).
Proof.
  intros H k f. destruct (decide (k = DBName field)) as [->|Hne].
  - rewrite lookup_insert_eq. by intros [= <-].
  - rewrite lookup_insert_ne by done. apply H.
Qed.

Section Field_maps.

Context (E : Env).

Lemma filling_frame s m w w' :
  filling s m w → discovery_frame None w w' → filling s m w'.
Proof.
  intros (Hs & Hm & Hk) Hf. destruct (frame_scope _ _ _ s Hf Hs) as (Hs' & _).
  destruct Hf as (_ & _ & _ & _ & Hmaps). specialize (Hmaps m Hm).
  split; [done|]. split.
  - apply elem_of_dom. rewrite Hmaps. by apply elem_of_dom.
  - by rewrite Hmaps.
Qed.

Lemma filling_store s m w mm :
  filling s m w → keyed_by_DBName mm →
  wp True (store_fieldmap m mm) w (fun _ w' => filling s m w').
Proof.
  intros (Hs & Hm & Hk) Hmm. unfold wp, store_fieldmap, filling. cbn.
  split; [done|]. split.
  - rewrite dom_insert_L. apply elem_of_union. by right.
  - by rewrite lookup_insert_eq.
Qed.

Lemma Fields_enter_filling s m hasPrimaryKey field w :
  filling s m w →
  wp True (Fields_enter m hasPrimaryKey field) w (fun _ w' => filling s m w').
Proof.
  intros Hfill. unfold Fields_enter. apply wp_bind, wp_load_fieldmap.
  assert (Hk : keyed_by_DBName
                 (<[DBName field := field]> (default ∅ (fieldmaps (heap w) !! m))))
    by (apply keyed_insert; apply Hfill).
  destruct (default ∅ (fieldmaps (heap w) !! m) !! DBName field) as [value|].
  - destruct (IsIgnored value); [|apply wp_panic].
    apply wp_bind. eapply wp_mono; [by apply filling_store|done|].
    intros ? w' Hw'. by apply wp_ret.
  - apply wp_bind. eapply wp_mono; [by apply filling_store|done|].
    intros ? w' Hw'. by apply wp_ret.
Qed.

Lemma Fields_filling fuel s nr w :
  s ∈ dom (scopes (heap w)) →
  Fields_withRelation nr = false ∨ fields (scopes (heap w) !!! s) = None →
  wp True (Scope_Fields E fuel s nr) w
     (fun m w' => keyed_by_DBName (default ∅ (fieldmaps (heap w') !! m))).
Proof.
  intros Hs Hcond. destruct fuel as [|fuel]; [done|].
  cbn [Scope_Fields]. apply wp_bind, wp_load_Scope.
  assert (Hnone : (if Fields_withRelation nr
                   then fields (scopes (heap w) !!! s) else None) = None).
  { destruct Hcond as [-> | ->]; [done|by destruct (Fields_withRelation nr)]. }
  rewrite Hnone. apply wp_bind.
  eapply wp_Ok;
    [unfold new_fieldmap, bind, store_fieldmap, ret; reflexivity|].
  set (m := fresh (dom (fieldmaps (heap w)))).
  set (w1 := mkWorld _ _).
  assert (Hfill1 : filling s m w1).
  { split; [done|]. split; cbn.
    - rewrite dom_insert_L. apply elem_of_union. left. by apply elem_of_singleton.
    - rewrite lookup_insert_eq. intros k f Hkf. cbn in Hkf.
      by rewrite lookup_empty in Hkf. }
  assert (Htail : ∀ w3, filling s m w3 →
    wp True
      ((if Fields_withRelation nr
        then sc' <- load_Scope s ;;;
             store_Scope s (Scope_with_fields (Some m) sc')
        else ret tt) ;;; ret m) w3
      (fun m w' => keyed_by_DBName (default ∅ (fieldmaps (heap w') !! m)))).
  { intros w3 (_ & _ & Hk). apply wp_bind. destruct (Fields_withRelation nr).
    - apply wp_bind, wp_load_Scope, wp_store_Scope. by apply wp_ret.
    - apply wp_ret. by apply wp_ret. }
  apply wp_bind, wp_IndirectValue.
  assert (Hfill2 : filling s m (World_with_indirect s w1)).
  { apply (filling_frame s m w1); [done|].
    apply World_with_indirect_discovery. apply Hfill1. }
  apply wp_bind.
  destruct (Value_IsValid (Scope_indirect (scopes (heap w1) !!! s))
            && Kind_is_Struct (Value_Kind (Scope_indirect (scopes (heap w1) !!! s))));
    [|apply wp_ret; by apply Htail].
  apply wp_bind, wp_any. intros scopeTyp w2 Hlift.
  assert (w2 = World_with_indirect s w1) as ->.
  { unfold lift in Hlift. destruct (Value_Type _); congruence. }
  apply wp_bind.
  eapply wp_mono;
    [apply (wp_fold_M True _ (filling s m)); [exact Hfill2|] | done |].
  - intros acc fieldStruct w3 Hfill3.
    destruct (negb (IsExported E (sf_Name fieldStruct))); [by apply wp_ret|].
    apply wp_bind.
    eapply wp_mono;
      [apply (fieldFromStruct_wp E fuel _ s fieldStruct _ w3 (Scope_Fields_ok E fuel));
       apply Hfill3
      | done |].
    intros fs w4 Hf4. cbn beta.
    apply (wp_fold_M True _ (filling s m)).
    + by apply (filling_frame s m w3).
    + intros acc' field w5 Hfill5. by apply Fields_enter_filling.
  - intros hasPrimaryKey w3 Hfill3. cbn beta in Hfill3 |- *.
    destruct (negb hasPrimaryKey); [|apply wp_ret; by apply Htail].
    apply wp_bind, wp_load_fieldmap.
    destruct (default ∅ (fieldmaps (heap w3) !! m) !! "id") as [field|] eqn:Hid;
      [|apply wp_ret; by apply Htail].
    eapply wp_mono; [apply (filling_store s m w3); [done|] | done |].
    + destruct Hfill3 as (_ & _ & Hk).
      rewrite <- (Hk _ _ Hid) at 1.
      apply (keyed_insert _ (Field_with_IsPrimaryKey true field)), Hk.
    + intros ? w4 Hfill4. by apply Htail.
Qed.

(** X25.  The map that [Fields] computes (without relations, or with relations
    when the Scope has none cached) has every field under its own column
    name: an entry [k] holds a field whose [DBName] is [k]. *)
Theorem Fields_keyed_by_DBName fuel scope nr w m w' :
  scope ∈ dom (scopes (heap w)) →
  Fields_withRelation nr = false ∨ fields (scopes (heap w) !!! scope) = None →
  Scope_Fields E fuel scope nr w = Ok (m, w') →
  ∀ k f, default ∅ (fieldmaps (heap w') !! m) !! k = Some f → DBName f = k.
Proof.
  intros Hs Hcond Hrun.
  exact (wp_inv_Ok _ _ _ _ _ _ (Fields_filling fuel scope nr w Hs Hcond) Hrun).
Qed.

(** X26.  On a target that is not a struct (nil, a nil pointer, a collection,
    a number), [Fields] finds no field and does not panic: it returns a
    new, empty map, which is cached on the Scope when relations are
    asked for. *)
Theorem Fields_not_struct fuel scope nr w :
  let sc := scopes (heap w) !!! scope in
  Value_IsValid (Scope_indirect sc) && Kind_is_Struct (Value_Kind (Scope_indirect sc))
  = false →
  Fields_withRelation nr = false ∨ fields sc = None →
  ∃ m w', Scope_Fields E (S fuel) scope nr w = Ok (m, w') ∧
    (m ∉ dom (fieldmaps (heap w))) ∧
    fieldmaps (heap w') !! m = Some ∅ ∧
    fields (scopes (heap w') !!! scope)
    = (if Fields_withRelation nr then Some m else fields sc) ∧
    dbs (heap w') = dbs (heap w) ∧ trace w' = trace w.
Proof.
  intros sc Hkind Hcond.
  assert (Hnone : (if Fields_withRelation nr then fields sc else None) = None).
  { destruct Hcond as [-> | ->]; [done|by destruct (Fields_withRelation nr)]. }
  cbn [Scope_Fields]. unfold bind at 1, load_Scope at 1. fold sc. rewrite Hnone.
  unfold bind at 1. unfold new_fieldmap at 1, bind at 1, store_fieldmap, ret at 1.
  cbn beta iota. set (m := fresh (dom (fieldmaps (heap w)))).
  unfold bind at 1. rewrite Scope_IndirectValue_spec. cbn [heap scopes].
  fold sc. unfold bind at 1. rewrite Hkind. cbn [ret].
  destruct (World_with_indirect_scope scope
              (mkWorld (mkHeap (dbs (heap w)) (searches (heap w)) (scopes (heap w))
                               (<[m:=∅]> (fieldmaps (heap w)))) (trace w)))
    as (_ & _ & _ & Hfields & _).
  destruct (World_with_indirect_frame scope
              (mkWorld (mkHeap (dbs (heap w)) (searches (heap w)) (scopes (heap w))
                               (<[m:=∅]> (fieldmaps (heap w)))) (trace w)))
    as (Hdbs & _ & Hmaps & Htr).
  cbn [heap scopes dbs fieldmaps trace] in Hfields, Hdbs, Hmaps, Htr. fold sc in Hfields.
  unfold bind, load_Scope, store_Scope, ret.
  destruct (Fields_withRelation nr); eexists m, _; (split; [reflexivity|]);
    cbn [heap scopes dbs fieldmaps trace];
    rewrite ?Hmaps, ?lookup_insert_eq, ?lookup_total_insert_eq;
    (split; [apply is_fresh|]); by repeat split.
Qed.

End Field_maps.

(** ** The columns that [Fields] finds *)

Section Discovered_columns.

Context (E : Env).

Lemma fold_M_app {A B} (body : B → A → M B) l1 l2 : ∀ acc w,
  fold_M body acc (l1 ++ l2) w
  = (acc' <- fold_M body acc l1 ;;; fold_M body acc' l2) w.
Proof.
  induction l1 as [|x l1 IH]; intros acc w; [done|].
  cbn [fold_M app]. unfold bind.
  destruct (body acc x w) as [[acc' w']| |]; [|done..].
  rewrite IH. reflexivity.
Qed.

Ltac own_step :=
  lazymatch goal with
  | |- wp _ (bind _ _) _ _ => apply wp_bind
  | |- wp _ (ret _) _ _ => apply wp_ret
  | |- wp _ (panic _) _ _ => apply wp_panic
  | |- wp _ (load_Scope _) _ _ => apply wp_load_Scope
  | |- wp _ (load_DB _) _ _ => apply wp_load_DB
  | |- wp _ (Scope_IndirectValue _) _ _ => apply wp_IndirectValue
  | |- wp _ (lift _) _ _ => apply wp_any; intros ? ? _
  | |- wp _ (HasColumn_with _ _ _ _) _ _ => apply wp_any; intros ? ? _
  | |- wp _ (Field_IsTime _ _) _ _ => apply wp_any; intros ? ? _
  | |- wp _ (Field_IsScanner _ _) _ _ => apply wp_any; intros ? ? _
  | |- wp _ (if ?b then _ else _) _ _ => destruct b eqn:?
  | |- wp _ (match ?x with _ => _ end) _ _ => destruct x eqn:?
  | |- wp _ (let '(_, _) := ?x in _) _ _ => destruct x eqn:?
  end.

(** What [fieldFromStruct] returns for a field that is not embedded: one
    field, with the name and the column of the declaration. *)
Lemma fieldFromStruct_own Fields_rec scope sf withRelation w :
  bool_decide (is_Some (parseTagSetting E (Tag_Get (sf_Tag sf) "gorm") !! "EMBEDDED"))
  || sf_Anonymous sf = false →
  wp True (fieldFromStruct_with E Fields_rec scope sf withRelation) w
     (fun fs _ => ∃ f, fs = [f] ∧ DBName f = column_of E sf ∧ Name f = sf_Name sf).
Proof.
  intros Hown. unfold fieldFromStruct_with, column_of.
  repeat own_step; try (exfalso; congruence); eexists; (split; [reflexivity|done]).
Qed.

Lemma wp_fold_M_app {A B} oof (body : B → A → M B) l1 l2 acc w Q :
  wp oof (fold_M body acc l1) w (fun acc' w' => wp oof (fold_M body acc' l2) w' Q) →
  wp oof (fold_M body acc (l1 ++ l2)) w Q.
Proof. intros H. unfold wp at 1. rewrite fold_M_app. by apply wp_bind. Qed.

Lemma has_column_frame s m key w w' :
  filling s m w → has_column m key w → discovery_frame None w w' →
  has_column m key w'.
Proof.
  intros (_ & Hm & _) Hk (_ & _ & _ & _ & Hmaps). unfold has_column.
  by rewrite (Hmaps m Hm).
Qed.

Lemma Fields_enter_column s m key hasPrimaryKey field w :
  filling s m w → has_column m key w ∨ DBName field = key →
  wp True (Fields_enter m hasPrimaryKey field) w
     (fun _ w' => filling s m w' ∧ has_column m key w').
Proof.
  intros Hfill Hk. apply wp_and; [by apply Fields_enter_filling|].
  unfold Fields_enter. apply wp_bind, wp_load_fieldmap.
  assert (Hin : is_Some (<[DBName field := field]>
                           (default ∅ (fieldmaps (heap w) !! m)) !! key)).
  { destruct (decide (DBName field = key)) as [<-|Hne].
    - rewrite lookup_insert_eq. by eexists.
    - rewrite lookup_insert_ne by done. by destruct Hk. }
  assert (Hstore : wp True
            (store_fieldmap m (<[DBName field := field]>
                                 (default ∅ (fieldmaps (heap w) !! m))) ;;;
             ret (if IsPrimaryKey field then true else hasPrimaryKey)) w
            (fun _ w' => has_column m key w')).
  { unfold wp, bind, store_fieldmap, ret, has_column. cbn.
    by rewrite lookup_insert_eq. }
  destruct (default ∅ (fieldmaps (heap w) !! m) !! DBName field) as [value|];
    [destruct (IsIgnored value); [|apply wp_panic]|]; exact Hstore.
Qed.

(** [Fields], when it computes the map, enters every declared field that
    has its own column. *)
Lemma Fields_columns fuel s nr w v a sf :
  s ∈ dom (scopes (heap w)) →
  Fields_withRelation nr = false ∨ fields (scopes (heap w) !!! s) = None →
  Scope_indirect (scopes (heap w) !!! s) = RV v a →
  sf ∈ Type_fields (TypeOf v) →
  own_column E sf = true →
  wp True (Scope_Fields E fuel s nr) w
     (fun m w' => has_column m (column_of E sf) w').
Proof.
  intros Hs Hcond Hiv Hsf Hown. destruct fuel as [|fuel]; [done|].
  apply andb_true_iff in Hown as [Hexp Hown]. apply negb_true_iff in Hown.
  set (key := column_of E sf).
  cbn [Scope_Fields]. apply wp_bind, wp_load_Scope.
  assert (Hnone : (if Fields_withRelation nr
                   then fields (scopes (heap w) !!! s) else None) = None).
  { destruct Hcond as [-> | ->]; [done|by destruct (Fields_withRelation nr)]. }
  rewrite Hnone. apply wp_bind.
  eapply wp_Ok;
    [unfold new_fieldmap, bind, store_fieldmap, ret; reflexivity|].
  set (m := fresh (dom (fieldmaps (heap w)))).
  set (w1 := mkWorld _ _).
  assert (Hfill1 : filling s m w1).
  { split; [done|]. split; cbn.
    - rewrite dom_insert_L. apply elem_of_union. left. by apply elem_of_singleton.
    - rewrite lookup_insert_eq. intros k f Hkf. cbn in Hkf.
      by rewrite lookup_empty in Hkf. }
  assert (Htail : ∀ w3, has_column m key w3 →
    wp True
      ((if Fields_withRelation nr
        then sc' <- load_Scope s ;;;
             store_Scope s (Scope_with_fields (Some m) sc')
        else ret tt) ;;; ret m) w3
      (fun m w' => has_column m key w')).
  { intros w3 Hk. apply wp_bind. destruct (Fields_withRelation nr).
    - apply wp_bind, wp_load_Scope, wp_store_Scope. by apply wp_ret.
    - apply wp_ret. by apply wp_ret. }
  apply wp_bind, wp_IndirectValue.
  assert (Hfill2 : filling s m (World_with_indirect s w1)).
  { apply (filling_frame s m w1); [done|].
    apply World_with_indirect_discovery. apply Hfill1. }
  change (scopes (heap w1)) with (scopes (heap w)). rewrite Hiv.
  assert (Hstruct : Kind_is_Struct (Value_Kind (RV v a)) = true).
  { cbn. destruct (TypeOf v); try by apply elem_of_nil in Hsf. done. }
  rewrite Hstruct. cbn [Value_IsValid andb Value_Type]. apply wp_bind.
  apply wp_bind, wp_any. intros scopeTyp w2 [= <- <-].
  apply list_elem_of_split in Hsf as (l1 & l2 & Hsplit). rewrite Hsplit.
  apply wp_bind, wp_fold_M_app.
  eapply wp_mono;
    [apply (wp_fold_M True _ (filling s m)); [exact Hfill2|] | done |].
  { intros acc fieldStruct w3 Hfill3.
    destruct (negb (IsExported E (sf_Name fieldStruct))); [by apply wp_ret|].
    apply wp_bind.
    eapply wp_mono;
      [apply (fieldFromStruct_wp E fuel _ s fieldStruct _ w3 (Scope_Fields_ok E fuel));
       apply Hfill3
      | done |].
    intros fs w4 Hf4. cbn beta.
    apply (wp_fold_M True _ (filling s m)).
    + by apply (filling_frame s m w3).
    + intros acc' field w5 Hfill5. by apply Fields_enter_filling. }
  intros acc1 w3 Hfill3. cbn beta in Hfill3 |- *.
  cbn [fold_M]. apply wp_bind. rewrite Hexp. cbn [negb]. apply wp_bind.
  eapply wp_mono;
    [apply (wp_and True);
     [eapply wp_mono;
        [apply (fieldFromStruct_wp E fuel _ s sf _ w3 (Scope_Fields_ok E fuel));
         apply Hfill3
        | done | intros ? ? H; exact H]
     |apply (fieldFromStruct_own (Scope_Fields E fuel) s sf _ w3 Hown)]
    | done |].
  intros fs w4 [Hf4 (f & -> & Hcol & _)]. cbn beta. cbn [fold_M].
  apply wp_bind.
  eapply wp_mono;
    [apply (Fields_enter_column s m key acc1 f w4);
     [by apply (filling_frame s m w3)|by right] | done |].
  intros acc2 w5 [Hfill5 Hk5]. cbn beta. apply wp_ret.
  eapply wp_mono;
    [apply (wp_fold_M True _ (fun w' => filling s m w' ∧ has_column m key w'));
     [by split|] | done |].
  { intros acc fieldStruct w6 [Hfill6 Hk6].
    destruct (negb (IsExported E (sf_Name fieldStruct))); [by apply wp_ret|].
    apply wp_bind.
    eapply wp_mono;
      [apply (fieldFromStruct_wp E fuel _ s fieldStruct _ w6 (Scope_Fields_ok E fuel));
       apply Hfill6
      | done |].
    intros fs w7 Hf7. cbn beta.
    apply (wp_fold_M True _ (fun w' => filling s m w' ∧ has_column m key w')).
    + split; [by apply (filling_frame s m w6)|by apply (has_column_frame s m key w6)].
    + intros acc' field w8 [Hfill8 Hk8]. apply Fields_enter_column; [done|by left]. }
  intros hasPrimaryKey w6 [Hfill6 Hk6]. cbn beta.
  destruct (negb hasPrimaryKey); [|apply wp_ret; by apply Htail].
  apply wp_bind, wp_load_fieldmap.
  destruct (default ∅ (fieldmaps (heap w6) !! m) !! "id") as [field|] eqn:Hid;
    [|apply wp_ret; by apply Htail].
  unfold wp at 1, store_fieldmap. cbn beta iota.
  apply Htail. unfold has_column. cbn. rewrite lookup_insert_eq. cbn.
  destruct (decide (key = "id")) as [->|Hne].
  - rewrite lookup_insert_eq. by eexists.
  - by rewrite lookup_insert_ne.
Qed.


End Discovered_columns.

(** ** [HasColumn] *)

Section Columns.

Context (E : Env).

(** X27.  [HasColumn] only looks: when it returns, the Handles and the log are
    as before, and so are the accumulators, the maps of fields and the
    Scopes that existed, the cache of fields of the Scope included (only
    the cache of [IndirectValue] may have been filled).  On a target that
    is not a collection, with fuel for the nesting of the target, it
    does not run out of fuel. *)
Theorem HasColumn_reads_only fuel scope column w :
  let sc := scopes (heap w) !!! scope in
  scope ∈ dom (scopes (heap w)) →
  (∀ b w', Scope_HasColumn E fuel scope column w = Ok (b, w') →
           discovery_frame None w w') ∧
  (Kind_is_Slice (Value_Kind (Scope_indirect sc)) = false →
   (Fields_fuel (Scope_indirect sc) false ≤ fuel)%nat →
   Scope_HasColumn E fuel scope column w ≠ OutOfFuel).
Proof.
  intros sc Hs. split.
  - intros b w' Hrun.
    assert (Hwp : wp True (Scope_HasColumn E fuel scope column) w
                     (fun _ w' => discovery_frame None w w'));
      [|exact (wp_inv_Ok _ _ _ _ _ _ Hwp Hrun)].
    destruct (Kind_is_Slice (Value_Kind (Scope_indirect sc))) eqn:Hk.
    + unfold Scope_HasColumn, HasColumn_with.
      pose proof (World_with_indirect_discovery None scope w Hs) as Hf1.
      apply wp_bind, wp_IndirectValue. fold sc. rewrite Hk.
      apply wp_bind, wp_bind, wp_any. intros t w1 Hlift.
      assert (w1 = World_with_indirect scope w) as ->.
      { unfold lift in Hlift. destruct (Value_Type _); congruence. }
      destruct (Scope_New_spec scope (I (VPtr (zero (Type_Elem t))))
                  (World_with_indirect scope w))
        as (sub & w2 & Hnew & _ & Hsub & _ & _ & _ & _ & Hf2).
      eapply wp_Ok; [exact Hnew|]. apply wp_bind.
      eapply wp_mono; [apply (Scope_Fields_ok E fuel sub [false] w2 Hsub)|done|].
      intros m w3 (Hf3 & _). cbn [Fields_withRelation] in Hf3.
      apply wp_bind, wp_load_fieldmap, wp_ret.
      apply (frame_trans _ _ _ _ Hf1). by apply (frame_trans _ _ _ _ Hf2).
    + by apply (HasColumn_wp E fuel (Scope_Fields E fuel) scope column w True
                  (Scope_Fields_ok E fuel) Hs Hk).
  - intros Hk Hfuel Hoof.
    pose proof (HasColumn_wp E fuel (Scope_Fields E fuel) scope column w False
                  (Scope_Fields_ok E fuel) Hs Hk ltac:(fold sc; lia)) as Hwp.
    unfold wp in Hwp. unfold Scope_HasColumn in Hoof. by rewrite Hoof in Hwp.
Qed.

End Columns.

(** ** [NeedPtr] *)

Section Targets.

Context (E : Env).

(** X28.  [NeedPtr] accepts a target that is nil or a pointer and does nothing
    then.  For any other target it hands the error
    [<file> using unaddressable value] to [Err] of the Scope, so that the
    Handle latches it, prints it, and still returns the Scope. *)
Theorem NeedPtr_spec scope w p :
  let sc := scopes (heap w) !!! scope in
  let kind := Value_Kind (reflect_ValueOf (scope_Value sc)) in
  let msg := fileWithLineNum E +:+ " " +:+ "using unaddressable value" +:+ newline in
  scope_db sc = Some p →
  (kind = Invalid ∨ kind = Ptr → Scope_NeedPtr E scope w = Ok ((scope, None), w)) ∧
  (kind ≠ Invalid → kind ≠ Ptr →
   ∃ w', Scope_NeedPtr E scope w = Ok ((scope, Some msg), w') ∧
     Error (dbs (heap w') !!! p)
     = latched (Error (dbs (heap w) !!! p)) (Some (errors_New msg)) ∧
     scopes (heap w') = scopes (heap w)).
Proof.
  intros sc kind msg Hp. subst msg.
  destruct (Scope_Err_frame E scope p
              (Some (errors_New (fileWithLineNum E +:+ " "
                                 +:+ "using unaddressable value" +:+ newline)))
              w Hp)
    as (w' & Hrun & Herr & _ & _ & Hsc & _).
  unfold Scope_NeedPtr, bind, load_Scope. cbv zeta. fold sc. fold kind.
  split.
  - by intros [-> | ->].
  - intros H1 H2. exists w'. split; [|by split].
    destruct kind; try done; by rewrite Hrun.
Qed.

End Targets.

(** * More of the package: the example program *)

(** Two values are put into [SqlVars]: they get the variables 1 and 2. *)
Lemma AddToVars_numbering_witness :
  ∃ w', map_M (Scope_AddToVars ex_dialect 0) [Go_string "ann"; Go_true] ex_world
        = Ok (["$1"; "$2"], w') ∧
    SqlVars (scopes (heap w') !!! 0%nat) = [Go_string "ann"; Go_true].
Proof.
  destruct (AddToVars_numbering ex_dialect 0 1 [Go_string "ann"; Go_true] ex_world)
    as (w' & Hrun & Hvars & _); [reflexivity|].
  exists w'. split; [exact Hrun | exact Hvars].
Defined.

Lemma TableName_override_verbatim_witness :
  Scope_TableName exE 6 ex_world_more = Ok ("people", ex_world_more) ∧
  Scope_QuotedTableName exE ex_dialect 6 ex_world_more = Ok ("people", ex_world_more).
Proof.
  apply (TableName_override_verbatim exE ex_dialect 6 1 ex_world_more);
    [reflexivity | vm_compute; discriminate].
Defined.

Lemma QuotedTableName_parts_witness :
  Scope_QuotedTableName exE ex_dialect 0 ex_world
  = Ok ("`users`", World_with_indirect 0 ex_world).
Proof.
  apply (QuotedTableName_parts exE ex_dialect 0 ["users"] 1 ex_world
           (World_with_indirect 0 ex_world)).
  - reflexivity.
  - vm_compute. reflexivity.
  - reflexivity.
  - discriminate.
  - repeat constructor.
Defined.

Lemma TableName_nil_Value_witness :
  ∃ w', Scope_TableName exE 5 ex_world_more = Ok ("", w') ∧
    Error (dbs (heap w') !!! 1%nat) = Some (errors_New "can't get table name") ∧
    Scope_QuotedTableName exE ex_dialect 5 ex_world_more = Ok ("``", w').
Proof.
  destruct (TableName_nil_Value exE ex_dialect 5 ex_world_more 1)
    as (w' & Hrun & Herr & _ & Hq); [reflexivity..|].
  exists w'. split; [exact Hrun|]. split; [exact Herr | exact Hq].
Defined.

Lemma TableName_singular_witness :
  Scope_TableName exE 7 ex_world_more
  = Ok ("bus", World_with_indirect 7 ex_world_more).
Proof.
  apply (TableName_singular exE 7 ex_world_more (zero Bus_T) true); reflexivity.
Defined.

Lemma TableName_method_witness :
  Scope_TableName
    (ex_Env_TableName (func_other 0 (fun _ h => (h, [Go_string "people"]))))
    0 ex_world
  = Ok ("people",
        mkWorld (heap (World_with_indirect 0 ex_world))
                [EvCall "TableName" (ex_user 1 "ann")]).
Proof.
  apply (TableName_method
           (ex_Env_TableName (func_other 0 (fun _ h => (h, [Go_string "people"]))))
           0 ex_world (ex_user 1 "ann") true
           (fun _ h => (h, [Go_string "people"]))
           (heap (World_with_indirect 0 ex_world)) "people" []);
    reflexivity.
Defined.

Lemma TableName_method_panics_witness :
  Scope_TableName (ex_Env_TableName (func_other 1 (fun _ h => (h, [])))) 0 ex_world
  = Panic "reflect: Call with too few input arguments".
Proof.
  apply (TableName_method_panics
           (ex_Env_TableName (func_other 1 (fun _ h => (h, []))))
           0 ex_world (ex_user 1 "ann") true 0 (fun _ h => (h, [])));
    reflexivity.
Defined.

Lemma NewScope_TableName_witness :
  ∃ scope w', DB_NewScope 3 (I (VPtr (ex_user 2 "bob"))) ex_world_more
              = Ok (scope, w') ∧
    Value (dbs (heap w') !!! 3%nat) = I (VPtr (ex_user 2 "bob")) ∧
    Scope_TableName exE scope w' = Ok ("people", w').
Proof.
  destruct (NewScope_TableName exE 3 (I (VPtr (ex_user 2 "bob"))) 1 ex_world_more)
    as (scope & w' & Hrun & _ & Hv & Hname);
    [reflexivity | vm_compute; discriminate |].
  exists scope, w'. split; [exact Hrun|]. split; [exact Hv | exact Hname].
Defined.

Lemma New_shares_Handle_witness :
  ∃ sub w1 w2,
    Scope_New 0 (I (VPtr (ex_user 2 "bob"))) ex_world = Ok (sub, w1) ∧
    Scope_Err exE sub (Some (ErrorString "boom")) w1
    = Ok (Some (ErrorString "boom"), w2) ∧
    Scope_HasError 0 w2 = Ok (true, w2).
Proof.
  destruct (New_shares_Handle exE 0 (I (VPtr (ex_user 2 "bob")))
              (ErrorString "boom") ex_world 1)
    as (sub & q & w1 & w2 & Hnew & _ & _ & _ & _ & _ & Herr & Hhas & _);
    [reflexivity..|].
  exists sub, w1, w2. split; [exact Hnew|]. split; [exact Herr | exact Hhas].
Defined.

Lemma Set_then_Get_witness :
  ∃ w', Scope_Set 0 "gorm:insert_option" (Go_string "x") ex_world = Ok (0%nat, w') ∧
    Scope_Get 1 "gorm:insert_option" w' = Ok (Some (Go_string "x"), w').
Proof.
  destruct (Set_then_Get 0 1 "gorm:insert_option" (Go_string "x") ex_world 1)
    as (w' & Hset & Hget & _); [reflexivity..|].
  exists w'. split; [exact Hset | exact Hget].
Defined.

Lemma InstanceSet_then_InstanceGet_witness :
  ∃ w', Scope_InstanceSet exE 0 "gorm:skip" Go_true ex_world = Ok (0%nat, w') ∧
    Scope_InstanceGet exE 0 "gorm:skip" w' = Ok (Some Go_true, w') ∧
    Scope_Get 0 "gorm:skip" w' = Ok (None, w').
Proof.
  apply (InstanceSet_then_InstanceGet exE 0 "gorm:skip" Go_true ex_world 1).
  reflexivity.
Defined.

Lemma Begin_without_transaction_witness :
  Scope_Begin exE 4 ex_world_more = Ok (4%nat, ex_world_more).
Proof.
  pose proof (Begin_without_transaction exE 4 ex_world_more 4 eq_refl
                (or_introl eq_refl)) as H.
  exact H.
Defined.

Lemma CommitOrRollback_once_witness :
  ∃ w1 w2,
    Scope_Begin exE 0 ex_world = Ok (0%nat, w1) ∧
    Scope_CommitOrRollback exE 0 w1 = Ok (0%nat, w2) ∧
    Scope_CommitOrRollback exE 0 w2 = Ok (0%nat, w2).
Proof.
  apply (CommitOrRollback_once exE 0 ex_world 1 7);
    [reflexivity | vm_compute; lia | reflexivity..].
Defined.

Lemma CallMethod_without_method_witness :
  Scope_CallMethod exE 1 "AfterDelete" ex_world
  = Ok (tt, World_with_indirect 1 ex_world).
Proof.
  apply (CallMethod_without_method exE 1 "AfterDelete" ex_world);
    [reflexivity | intros v _; reflexivity].
Defined.

(** A string does not convert to the number of [Age]. *)
Lemma Field_Set_failure_witness :
  Field_Set exE ex_age_field (Go_string "x") ex_world
  = Ok ((ex_age_field, Some (errors_New "could not convert argument")), ex_world) ∧
  ∃ cur arg vt, field_Field ex_age_field = RV cur true ∧
    supplied_value (Go_string "x") = Some arg ∧
    reflect_TypeOf arg = Some vt ∧
    ConvertibleTo exE vt (TypeOf cur) = false.
Proof.
  split; [reflexivity|].
  destruct (Field_Set_failure exE ex_age_field (Go_string "x") ex_world
              ex_age_field (errors_New "could not convert argument") ex_world
              eq_refl) as (_ & _ & [[He _]|[[He _]|[_ Hc]]]);
    [discriminate He | discriminate He |].
  destruct Hc as (cur & arg & vt & H1 & H2 & _ & H3 & H4).
  by exists cur, arg, vt.
Defined.

(** [Scan] of a string into a [NullInt64] fails, and [Set] returns nil:
    the field is blank as its value is. *)
Lemma Field_Set_success_witness :
  match Field_Set exE ex_null_field (Go_string "x") ex_world with
  | Ok ((field', None), w') =>
      IsBlank field' = isBlank exE (field_Field field') ∧ DBName field' = "score"
  | _ => False
  end.
Proof.
  destruct (Field_Set exE ex_null_field (Go_string "x") ex_world)
    as [[[field' [e|]] w']| |] eqn:Hrun;
    [vm_compute in Hrun; discriminate | | vm_compute in Hrun; discriminate..].
  destruct (Field_Set_success exE _ _ _ _ _ Hrun) as (Hb & _ & _ & Hn & _).
  split; [exact Hb | exact Hn].
Defined.

Lemma Field_Set_argument_witness :
  Field_Set exE ex_age_field (IReflect (RV (VBasic int_T (BInt 1)) false)) ex_world
  = Field_Set exE ex_age_field (I (VBasic int_T (BInt 1))) ex_world ∧
  Field_Set exE ex_age_field Nil ex_world = Panic "nil pointer dereference".
Proof.
  destruct (Field_Set_argument exE ex_age_field (VBasic int_T (BInt 30)) ex_world
              eq_refl) as (Hbox & _ & Hnil).
  split; [apply Hbox | apply Hnil; reflexivity].
Defined.

(** The primary key of [User] is [Id], in the column [id]. *)
Lemma PrimaryKey_cached_witness :
  match Scope_PrimaryKeyField exE 4 0 ex_world with
  | Ok (Some field, w1) =>
      Scope_PrimaryKey exE 0 0 w1 = Ok ("id", w1) ∧ DBName field = "id"
  | _ => False
  end.
Proof.
  destruct (Scope_PrimaryKeyField exE 4 0 ex_world) as [[[field|] w1]| |] eqn:Hrun;
    [|vm_compute in Hrun; discriminate..].
  destruct (PrimaryKey_cached exE 4 0 ex_world field w1 Hrun 0) as (_ & Hpk & _).
  assert (Hname : DBName field = "id")
    by (vm_compute in Hrun; by injection Hrun as <- _).
  rewrite Hname in Hpk. split; [exact Hpk | exact Hname].
Defined.

Lemma FieldByName_spec_witness :
  match Scope_Fields exE 4 0 [] ex_world with
  | Ok (m, w1) =>
      ∃ r, Scope_FieldByName exE 4 0 "Name" ex_world = Ok (r, w1) ∧
           ∀ f, r = Some f → Name f = "Name"
  | _ => False
  end.
Proof.
  destruct (Scope_Fields exE 4 0 [] ex_world) as [[m w1]| |] eqn:Hrun;
    [|vm_compute in Hrun; discriminate..].
  destruct (FieldByName_spec exE 4 0 "Name" ex_world m w1 range_forth_perm Hrun)
    as (r & Hr & Hsome & _).
  exists r. split; [exact Hr|]. intros f Hf. by destruct (Hsome f Hf).
Defined.

Lemma Fields_keyed_by_DBName_witness :
  match Scope_Fields exE 3 0 [false] ex_world with
  | Ok (m, w') =>
      ∀ k f, default ∅ (fieldmaps (heap w') !! m) !! k = Some f → DBName f = k
  | _ => False
  end.
Proof.
  destruct (Scope_Fields exE 3 0 [false] ex_world) as [[m w']| |] eqn:Hrun;
    [|vm_compute in Hrun; discriminate..].
  apply (Fields_keyed_by_DBName exE 3 0 [false] ex_world m w');
    [apply ex_scope_allocated; lia | by left | exact Hrun].
Defined.

(** The target of the Scope 1 is a collection. *)
Lemma Fields_not_struct_witness :
  ∃ m w', Scope_Fields exE 1 1 [] ex_world = Ok (m, w') ∧
    fieldmaps (heap w') !! m = Some ∅ ∧
    fields (scopes (heap w') !!! 1%nat) = Some m.
Proof.
  destruct (Fields_not_struct exE 0 1 [] ex_world)
    as (m & w' & Hrun & _ & Hempty & Hf & _); [reflexivity | by right |].
  exists m, w'. split; [exact Hrun|]. split; [exact Hempty | exact Hf].
Defined.

Lemma HasColumn_reads_only_witness :
  Scope_HasColumn exE 3 0 "Name" ex_world ≠ OutOfFuel.
Proof.
  destruct (HasColumn_reads_only exE 3 0 "Name" ex_world) as (_ & Hfuel);
    [apply ex_scope_allocated; lia|].
  apply Hfuel; [reflexivity | vm_compute; lia].
Defined.

(** [HasColumn] on the example: [User] has the column of [Name], and none
    of [Email]. *)
Lemma HasColumn_User :
  match Scope_HasColumn exE 3 0 "Name" ex_world,
        Scope_HasColumn exE 3 0 "Email" ex_world with
  | Ok (b1, _), Ok (b2, _) => b1 = true ∧ b2 = false
  | _, _ => False
  end.
Proof. vm_compute. by split. Qed.

(** The target of the Scope 8 is a struct: [NeedPtr] reports it. *)
Lemma NeedPtr_spec_witness :
  Scope_NeedPtr exE 0 ex_world = Ok ((0%nat, None), ex_world) ∧
  ∃ msg w', Scope_NeedPtr exE 8 ex_world_more = Ok ((8%nat, Some msg), w') ∧
    Error (dbs (heap w') !!! 1%nat) = Some (ErrorString msg).
Proof.
  split.
  - destruct (NeedPtr_spec exE 0 ex_world 1 eq_refl) as [Hptr _].
    apply Hptr. by right.
  - destruct (NeedPtr_spec exE 8 ex_world_more 1 eq_refl) as [_ Hval].
    destruct Hval as (w' & Hrun & Herr & _); [discriminate..|].
    eexists _, w'. split; [exact Hrun | exact Herr].
Defined.

